(** * Honeycomb lock-free collections: hazard-pointer memory manager,
      doubly-linked list, Michael-Scott queue and SPSC deque.

    The development follows the sources
      Honey/Thread/LockFree/HazardMem.h, List.h, Queue.h and SpscDeque.h.

    Concurrent code is embedded as programs over atomic memory operations
    (a free monad): every access to an [Atomic<>] cell, every container
    call on thread-private data and every call into the node pool is one
    operation.  A program can be run to completion on a memory (sequential
    execution) or advanced one operation at a time, which gives the
    interleavings of several threads.  [while (true)] loops take a bound on
    the number of iterations; a loop that exhausts it ends in [Spin].

    The embedding of the sources comes first, then the conditions, events
    and concrete memories the properties are stated with, then the
    properties. *)

From stdpp Require Import gmap list.

Local Open Scope Z_scope.

(** ** Machine integers *)

(** Two's complement wrap-around of a [bits]-wide signed integer. *)
Definition wrap (bits z : Z) : Z :=
  (z + 2 ^ (bits - 1)) `mod` 2 ^ bits - 2 ^ (bits - 1).

Definition int8 : Z → Z := wrap 8.
Definition int32 : Z → Z := wrap 32.
Definition intptr : Z → Z := wrap 64.

Definition int_min : Z := - 2 ^ 31.
Definition int_max : Z := 2 ^ 31 - 1.

(** ** Programs over atomic operations *)

Section Prog.
Context {Op : Type → Type}.

(** [Abort] is a failed [assert]; [Spin] is a loop that used up its
    iteration bound. *)
Inductive Prog (A : Type) : Type :=
| Ret (a : A)
| Abort
| Spin
| Vis {B : Type} (o : Op B) (k : B → Prog A).

Global Arguments Ret {A} a.
Global Arguments Abort {A}.
Global Arguments Spin {A}.
Global Arguments Vis {A B} o k.

Fixpoint bind {A B} (p : Prog A) (f : A → Prog B) : Prog B :=
  match p with
  | Ret a => f a
  | Abort => Abort
  | Spin => Spin
  | Vis o k => Vis o (λ b, bind (k b) f)
  end.

Definition call {B} (o : Op B) : Prog B := Vis o Ret.

(** How a run ends. *)
Inductive Outcome (A : Type) : Type :=
| Done (a : A)
| Aborted
| Spinning.
Global Arguments Done {A} a.
Global Arguments Aborted {A}.
Global Arguments Spinning {A}.

Definition result {A} (p : Prog A) : option (Outcome A) :=
  match p with
  | Ret a => Some (Done a)
  | Abort => Some Aborted
  | Spin => Some Spinning
  | Vis _ _ => None
  end.

(** An operation with the answer it got. *)
Inductive Event : Type :=
| Ev (B : Type) (o : Op B) (b : B).
Global Arguments Ev {B} o b.

(** The operations a program performs along one of its paths: a path fixes
    no memory, so the paths cover every run of the program under every
    interference. *)
Fixpoint Path {A} (p : Prog A) (tr : list Event) (r : Outcome A) : Prop :=
  match p with
  | Ret a => tr = [] ∧ r = Done a
  | Abort => tr = [] ∧ r = Aborted
  | Spin => tr = [] ∧ r = Spinning
  | Vis o k => ∃ b tr', tr = Ev o b :: tr' ∧ Path (k b) tr' r
  end.

Section Sem.
Context {St : Type}.
(** The effect of one operation performed by a thread. *)
Variable exec : ∀ B, nat → Op B → St → St * B.

(** Run a program of thread [tid] without interference. *)
Fixpoint run {A} (tid : nat) (p : Prog A) (s : St) : St * Outcome A :=
  match p with
  | Ret a => (s, Done a)
  | Abort => (s, Aborted)
  | Spin => (s, Spinning)
  | Vis o k => let '(s', b) := exec _ tid o s in run tid (k b) s'
  end.

(** The operations of that run, in order. *)
Fixpoint trace {A} (tid : nat) (p : Prog A) (s : St) : list Event :=
  match p with
  | Vis o k => let '(s', b) := exec _ tid o s in Ev o b :: trace tid (k b) s'
  | _ => []
  end.

(** One operation of thread [tid]; a finished program stays put. *)
Definition step {A} (tid : nat) (p : Prog A) (s : St) : St * Prog A :=
  match p with
  | Vis o k => let '(s', b) := exec _ tid o s in (s', k b)
  | _ => (s, p)
  end.

(** [n] operations of thread [tid]. *)
Fixpoint steps {A} (n : nat) (tid : nat) (p : Prog A) (s : St) : St * Prog A :=
  match n with
  | O => (s, p)
  | S n => let '(s', p') := step tid p s in steps n tid p' s'
  end.

(** A pool of threads, thread [i] running the [i]-th program, and a
    schedule: the list of the threads that take the next steps, one
    operation each.  The third component keeps, for every thread, the
    operations it has performed with their answers. *)
Fixpoint interleave {A} (sched : list nat) (ps : list (Prog A))
    (logs : list (list Event)) (s : St) : St * list (Prog A) * list (list Event) :=
  match sched with
  | [] => (s, ps, logs)
  | t :: sched =>
      match ps !! t with
      | Some (Vis o k) =>
          let '(s', b) := exec _ t o s in
          interleave sched (<[t := k b]> ps) (alter (λ l, l ++ [Ev o b]) t logs) s'
      | _ => interleave sched ps logs s
      end
  end.

(** The threads of a pool start with empty logs. *)
Definition start {A} (ps : list (Prog A)) : list (list Event) :=
  replicate (length ps) [].

End Sem.

End Prog.

Global Arguments Prog Op A : clear implicits.
Global Arguments Event Op : clear implicits.

Global Instance Prog_ret {Op} : MRet (Prog Op) := λ A a, Ret a.
Global Instance Prog_bind {Op} : MBind (Prog Op) := λ A B f p, bind p f.

(** ** Counting the operations of a path *)

Section Quiet.
Context {Op : Type → Type}.
Implicit Types f : Event Op → bool.

(** The number of events of a trace that [f] selects. *)
Fixpoint cnt f (tr : list (Event Op)) : nat :=
  match tr with
  | [] => 0
  | e :: tr => ((if f e then 1 else 0) + cnt f tr)%nat
  end.

(** [quiet f Q p]: no operation of [p], whatever its answer, is selected by
    [f], and every result of [p] satisfies [Q]. *)
Fixpoint quiet {A} f (Q : A → Prop) (p : Prog Op A) : Prop :=
  match p with
  | Ret a => Q a
  | Abort | Spin => True
  | Vis o k => ∀ b, f (Ev o b) = false ∧ quiet f Q (k b)
  end.

(** [post f R p]: on every path of [p] that returns, the result [a] and the
    number [n] of events that [f] selects satisfy [R a n]. *)
Definition post {A} f (R : A → nat → Prop) (p : Prog Op A) : Prop :=
  ∀ tr a, Path p tr (Done a) → R a (cnt f tr).

End Quiet.

(** ** Pools of threads *)

Section Pool.
Context {Op : Type → Type} {St A : Type}.
Variable exec : ∀ B, nat → Op B → St → St * B.
Implicit Types (p : Prog Op A) (ps : list (Prog Op A)) (logs : list (list (Event Op))).

(** [p] is what is left of [p0] after the operations [log]. *)
Definition resid p0 (log : list (Event Op)) p : Prop :=
  ∀ tr r, Path p tr r → Path p0 (log ++ tr) r.

(** Every thread of the pool [ps] is what is left of its program in [ps0]
    after the operations of its log. *)
Definition logged ps0 ps logs : Prop :=
  ∀ i p, ps !! i = Some p →
    ∃ p0 log, ps0 !! i = Some p0 ∧ logs !! i = Some log ∧ resid p0 log p.

End Pool.


(** ** Memory of a list and its hazard-pointer memory manager *)

Module Heap.

(** A node pointer is the node's address; [0] is [nullptr].  Addresses of
    nodes are even: the low bit of a list link is its delete mark. *)
Definition nil : Z := 0.

(** [HazardMemNode::Hazard]: the calling thread's hold on a node. *)
Record Hazard := mkHazard {
  h_index : Z;   (* int8: index into the hazard pointer list, -1 = none *)
  h_ref : Z      (* int8: reference count by a single thread *)
}.

(** [Hazard()] *)
Definition Hazard0 : Hazard := mkHazard (-1) 0.

(** [List::Node : HazardMemNode] *)
Record Node := mkNode {
  n_threadId : nat;            (* thread that created the node *)
  n_ref : Z;                   (* Atomic<int> ref *)
  n_trace : bool;              (* Atomic<bool> trace *)
  n_del : bool;                (* Atomic<bool> del *)
  n_hazard : gmap nat Hazard;  (* thread::Local<Hazard>, by thread *)
  n_next : Z;                  (* Link next (data word) *)
  n_prev : Z;                  (* Link prev (data word) *)
  n_data : Z                   (* T data *)
}.

(** [ThreadData::DelNode]; the [next] pointers are kept as the chain
    [td_delHead] below. *)
Record DelNode := mkDelNode {
  dn_node : Z;
  dn_claim : Z;
  dn_done : bool
}.

(** [DelNode()] *)
Definition DelNode0 : DelNode := mkDelNode nil 0 false.

(** [HazardMem::ThreadData].  A [DelNode*] is the index of the entry in
    [td_delNodes]; [td_delHead] is the chain [delHead], [delHead->next], ...
    A [vector] is a list whose [back()] is its last element. *)
Record ThreadData := mkThreadData {
  td_hazards : list Z;
  td_hazardFreeList : list Z;
  td_delNodes : list DelNode;
  td_delNodeFreeList : list nat;
  td_delHazards : gset Z;
  td_delHead : list nat;
  td_delCount : Z
}.

(** A link cell: the list's [_head] and [_tail], or a link of a node. *)
Inductive LinkAddr := LHead | LTail | LNext (n : Z) | LPrev (n : Z).

Global Instance LinkAddr_eq_dec : EqDecision LinkAddr.
Proof. solve_decision. Defined.

(** Calls recorded as they are made. *)
Inductive Call :=
| CTerminate (node : Z) (concurrent : bool)   (* _config.terminateNode *)
| CCleanUp (node : Z)                          (* _config.cleanUpNode *)
| CDestruct (node : Z)                         (* _freeList.destruct *)
| CIterInc (cur : Z).                          (* Iter::operator++ *)

Global Instance Call_eq_dec : EqDecision Call.
Proof. solve_decision. Defined.

Record Mem := mkMem {
  nodes : gmap Z Node;              (* the slots of the nodes, by address *)
  threads : gmap nat ThreadData;    (* _threadData, by thread *)
  threadDataList : list nat;        (* _threadDataList[0 .. _threadDataCount) *)
  pools : gmap nat (list Z);        (* _freeList: recycled nodes, by origin thread *)
  slab : Z;                         (* _freeList: next fresh address *)
  l_head : Z;                       (* List::_head *)
  l_tail : Z;                       (* List::_tail *)
  l_size : Z;                       (* List::_size, Atomic<sdt> *)
  vars : gmap nat Z;                (* the caller's output variables *)
  calls : list Call
}.

Definition set_nodes (f : gmap Z Node → gmap Z Node) (m : Mem) : Mem :=
  mkMem (f (nodes m)) (threads m) (threadDataList m) (pools m) (slab m)
        (l_head m) (l_tail m) (l_size m) (vars m) (calls m).
Definition set_threads (f : gmap nat ThreadData → gmap nat ThreadData) (m : Mem) : Mem :=
  mkMem (nodes m) (f (threads m)) (threadDataList m) (pools m) (slab m)
        (l_head m) (l_tail m) (l_size m) (vars m) (calls m).
Definition set_threadDataList (f : list nat → list nat) (m : Mem) : Mem :=
  mkMem (nodes m) (threads m) (f (threadDataList m)) (pools m) (slab m)
        (l_head m) (l_tail m) (l_size m) (vars m) (calls m).
Definition set_pools (f : gmap nat (list Z) → gmap nat (list Z)) (m : Mem) : Mem :=
  mkMem (nodes m) (threads m) (threadDataList m) (f (pools m)) (slab m)
        (l_head m) (l_tail m) (l_size m) (vars m) (calls m).
Definition set_slab (f : Z → Z) (m : Mem) : Mem :=
  mkMem (nodes m) (threads m) (threadDataList m) (pools m) (f (slab m))
        (l_head m) (l_tail m) (l_size m) (vars m) (calls m).
Definition set_l_head (f : Z → Z) (m : Mem) : Mem :=
  mkMem (nodes m) (threads m) (threadDataList m) (pools m) (slab m)
        (f (l_head m)) (l_tail m) (l_size m) (vars m) (calls m).
Definition set_l_tail (f : Z → Z) (m : Mem) : Mem :=
  mkMem (nodes m) (threads m) (threadDataList m) (pools m) (slab m)
        (l_head m) (f (l_tail m)) (l_size m) (vars m) (calls m).
Definition set_l_size (f : Z → Z) (m : Mem) : Mem :=
  mkMem (nodes m) (threads m) (threadDataList m) (pools m) (slab m)
        (l_head m) (l_tail m) (f (l_size m)) (vars m) (calls m).
Definition set_vars (f : gmap nat Z → gmap nat Z) (m : Mem) : Mem :=
  mkMem (nodes m) (threads m) (threadDataList m) (pools m) (slab m)
        (l_head m) (l_tail m) (l_size m) (f (vars m)) (calls m).
Definition set_calls (f : list Call → list Call) (m : Mem) : Mem :=
  mkMem (nodes m) (threads m) (threadDataList m) (pools m) (slab m)
        (l_head m) (l_tail m) (l_size m) (vars m) (f (calls m)).

(** Field updates of the records above. *)
Definition with_ref (f : Z → Z) (n : Node) : Node :=
  mkNode (n_threadId n) (f (n_ref n)) (n_trace n) (n_del n) (n_hazard n)
         (n_next n) (n_prev n) (n_data n).
Definition with_trace (b : bool) (n : Node) : Node :=
  mkNode (n_threadId n) (n_ref n) b (n_del n) (n_hazard n)
         (n_next n) (n_prev n) (n_data n).
Definition with_del (b : bool) (n : Node) : Node :=
  mkNode (n_threadId n) (n_ref n) (n_trace n) b (n_hazard n)
         (n_next n) (n_prev n) (n_data n).
Definition with_hazard (f : gmap nat Hazard → gmap nat Hazard) (n : Node) : Node :=
  mkNode (n_threadId n) (n_ref n) (n_trace n) (n_del n) (f (n_hazard n))
         (n_next n) (n_prev n) (n_data n).
Definition with_next (f : Z → Z) (n : Node) : Node :=
  mkNode (n_threadId n) (n_ref n) (n_trace n) (n_del n) (n_hazard n)
         (f (n_next n)) (n_prev n) (n_data n).
Definition with_prev (f : Z → Z) (n : Node) : Node :=
  mkNode (n_threadId n) (n_ref n) (n_trace n) (n_del n) (n_hazard n)
         (n_next n) (f (n_prev n)) (n_data n).
Definition with_data (v : Z) (n : Node) : Node :=
  mkNode (n_threadId n) (n_ref n) (n_trace n) (n_del n) (n_hazard n)
         (n_next n) (n_prev n) v.

Definition with_hazards (f : list Z → list Z) (t : ThreadData) : ThreadData :=
  mkThreadData (f (td_hazards t)) (td_hazardFreeList t) (td_delNodes t)
    (td_delNodeFreeList t) (td_delHazards t) (td_delHead t) (td_delCount t).
Definition with_hazardFreeList (f : list Z → list Z) (t : ThreadData) : ThreadData :=
  mkThreadData (td_hazards t) (f (td_hazardFreeList t)) (td_delNodes t)
    (td_delNodeFreeList t) (td_delHazards t) (td_delHead t) (td_delCount t).
Definition with_delNodes (f : list DelNode → list DelNode) (t : ThreadData) : ThreadData :=
  mkThreadData (td_hazards t) (td_hazardFreeList t) (f (td_delNodes t))
    (td_delNodeFreeList t) (td_delHazards t) (td_delHead t) (td_delCount t).
Definition with_delNodeFreeList (f : list nat → list nat) (t : ThreadData) : ThreadData :=
  mkThreadData (td_hazards t) (td_hazardFreeList t) (td_delNodes t)
    (f (td_delNodeFreeList t)) (td_delHazards t) (td_delHead t) (td_delCount t).
Definition with_delHazards (f : gset Z → gset Z) (t : ThreadData) : ThreadData :=
  mkThreadData (td_hazards t) (td_hazardFreeList t) (td_delNodes t)
    (td_delNodeFreeList t) (f (td_delHazards t)) (td_delHead t) (td_delCount t).
Definition with_delHead (f : list nat → list nat) (t : ThreadData) : ThreadData :=
  mkThreadData (td_hazards t) (td_hazardFreeList t) (td_delNodes t)
    (td_delNodeFreeList t) (td_delHazards t) (f (td_delHead t)) (td_delCount t).
Definition with_delCount (f : Z → Z) (t : ThreadData) : ThreadData :=
  mkThreadData (td_hazards t) (td_hazardFreeList t) (td_delNodes t)
    (td_delNodeFreeList t) (td_delHazards t) (td_delHead t) (f (td_delCount t)).

Definition with_node (p : Z) (e : DelNode) : DelNode :=
  mkDelNode p (dn_claim e) (dn_done e).
Definition with_claim (f : Z → Z) (e : DelNode) : DelNode :=
  mkDelNode (dn_node e) (f (dn_claim e)) (dn_done e).
Definition with_done (b : bool) (e : DelNode) : DelNode :=
  mkDelNode (dn_node e) (dn_claim e) b.

(** Reads; the slot of a node never constructed reads as zeroes. *)
Definition Node0 : Node := mkNode 0 0 false false ∅ 0 0 0.
Definition ThreadData0 : ThreadData := mkThreadData [] [] [] [] ∅ [] 0.

Definition node_at (m : Mem) (n : Z) : Node := default Node0 (nodes m !! n).
Definition td_at (m : Mem) (t : nat) : ThreadData := default ThreadData0 (threads m !! t).
Definition entry_at (m : Mem) (t : nat) (e : nat) : DelNode :=
  default DelNode0 (td_delNodes (td_at m t) !! e).
Definition hazard_at (m : Mem) (t : nat) (n : Z) : Hazard :=
  default Hazard0 (n_hazard (node_at m n) !! t).

(** Writes go through the pointer: the memory of a node outlives the node
    (the pool never returns its slab), so a write to a dead node lands in
    its slot. *)
Definition upd_node (n : Z) (f : Node → Node) (m : Mem) : Mem :=
  set_nodes <[n := f (node_at m n)]> m.
Definition upd_td (t : nat) (f : ThreadData → ThreadData) (m : Mem) : Mem :=
  set_threads <[t := f (td_at m t)]> m.
Definition upd_entry (t : nat) (e : nat) (f : DelNode → DelNode) : Mem → Mem :=
  upd_td t (with_delNodes (alter f e)).
Definition upd_hazard (t : nat) (n : Z) (f : Hazard → Hazard) (m : Mem) : Mem :=
  upd_node n (with_hazard <[t := f (hazard_at m t n)]>) m.

Definition load_link (m : Mem) (l : LinkAddr) : Z :=
  match l with
  | LHead => l_head m
  | LTail => l_tail m
  | LNext n => n_next (node_at m n)
  | LPrev n => n_prev (node_at m n)
  end.

Definition store_link (l : LinkAddr) (v : Z) : Mem → Mem :=
  match l with
  | LHead => set_l_head (λ _, v)
  | LTail => set_l_tail (λ _, v)
  | LNext n => upd_node n (with_next (λ _, v))
  | LPrev n => upd_node n (with_prev (λ _, v))
  end.

(** The memory before the constructor of the list runs: no node, no
    thread has called into the memory manager. *)
Definition Mem_new : Mem := mkMem ∅ ∅ [] ∅ 2 0 0 0 ∅ [].

End Heap.

(** ** Configuration of the memory manager *)

(** [HazardMemConfig]: the constants a container overrides, and how its
    link type decodes the node pointer ([Link::ptr]). *)
Class Config := mkConfig {
  linkMax : Z;
  linkDelMax : Z;
  hazardMax : Z;
  link_ptr : Z → Z
}.

(** The defaults of [HazardMemConfig], with [HazardMemLink::ptr]. *)
Definition HazardMemConfig : Config := mkConfig 2 2 6 (λ data, data).

(** [List::Node::Link]: node pointer and delete mark in one word. *)
Definition d_mask : Z := 1.
Definition ptr_mask : Z := Z.lnot d_mask.

(** [Link(Node* ptr, bool d)] *)
Definition Link (ptr : Z) (d : bool) : Z := Z.lor ptr (Z.b2z d).
(** [Link::ptr] *)
Definition Link_ptr (data : Z) : Z := Z.land data ptr_mask.
(** [Link::d] *)
Definition Link_d (data : Z) : bool := negb (Z.land data d_mask =? 0).

(** [List<T, Backoff, iterMax>] as a configuration. *)
Definition ListConfig (iterMax : Z) : Config :=
  mkConfig 2 2 (int8 (5 + iterMax)) Link_ptr.

(** The thresholds computed by the constructor of [HazardMem]. *)
Definition threshClean `{Config} (threadMax : Z) : Z :=
  int32 (threadMax * int32 (int32 (int32 (hazardMax + linkMax) + linkDelMax) + 1)).

Definition threshScan `{Config} (threadMax : Z) : Z :=
  if int32 (hazardMax * 2) <? threshClean threadMax
  then int32 (hazardMax * 2) else threshClean threadMax.

(** ** The atomic operations *)

Module Atomic.
Import Heap.

Inductive Op : Type → Type :=
(* HazardMemNode *)
| LoadRef (n : Z) : Op Z
| AddRef (n : Z) (d : Z) : Op unit
| LoadTrace (n : Z) : Op bool
| StoreTrace (n : Z) (b : bool) : Op unit
| StoreDel (n : Z) (b : bool) : Op unit
(* *node.hazard of the calling thread *)
| HazardRefInc (n : Z) : Op Z          (* hazard.ref++, the value before *)
| HazardRefDec (n : Z) : Op Z          (* --hazard.ref, the value after *)
| LoadHazardIndex (n : Z) : Op Z
| StoreHazardIndex (n : Z) (i : Z) : Op unit
(* links *)
| LoadLink (l : LinkAddr) : Op Z
| StoreLink (l : LinkAddr) (v : Z) : Op unit
| CasLink (l : LinkAddr) (val old : Z) : Op bool
(* node payload *)
| LoadData (n : Z) : Op Z
| StoreData (n : Z) (v : Z) : Op unit
(* ThreadData; [td] is the [ThreadData&] returned by threadData() *)
| ThreadDataGet : Op (option nat)      (* None: too many threads *)
| HazardFreeBack (td : nat) : Op (option Z)   (* None: the vector is empty *)
| HazardFreePop (td : nat) : Op unit
| HazardFreePush (td : nat) (i : Z) : Op unit
| StoreHazard (td : nat) (i : Z) (p : Z) : Op unit
| LoadHazard (td : nat) (i : nat) : Op Z
| ThreadDataCount : Op nat
| ThreadDataAt (ti : nat) : Op nat
| DelFreeBack (td : nat) : Op (option nat)
| DelFreePop (td : nat) : Op unit
| DelFreePush (td : nat) (e : nat) : Op unit
| LoadEntryNode (td : nat) (e : nat) : Op Z
| StoreEntryNode (td : nat) (e : nat) (p : Z) : Op unit
| LoadEntryDone (td : nat) (e : nat) : Op bool
| StoreEntryDone (td : nat) (e : nat) (b : bool) : Op unit
| LoadEntryClaim (td : nat) (e : nat) : Op Z
| AddEntryClaim (td : nat) (e : nat) (d : Z) : Op unit
| LoadDelHead (td : nat) : Op (list nat)
| StoreDelHead (td : nat) (l : list nat) : Op unit
| LoadDelCount (td : nat) : Op Z
| StoreDelCount (td : nat) (c : Z) : Op unit
| DelHazardsInsert (td : nat) (p : Z) : Op unit
| DelHazardsCount (td : nat) (p : Z) : Op bool
| DelHazardsClear (td : nat) : Op unit
(* FreeList<Node> *)
| Construct : Op Z
| Destruct (n : Z) : Op unit
(* List *)
| LoadSize : Op Z
| AddSize (d : Z) : Op unit
| WriteOut (r : nat) (v : Z) : Op unit
| Backoff : Op unit
| Log (c : Call) : Op unit.

Section Exec.
Context `{Config}.
Variable threadMax : Z.

(** [ThreadData(HazardMem& mem)] *)
Definition ThreadData_new : ThreadData :=
  mkThreadData
    (replicate (Z.to_nat hazardMax) nil)
    (Z.of_nat <$> seq 0 (Z.to_nat hazardMax))
    (replicate (Z.to_nat (threshClean threadMax)) DelNode0)
    (seq 0 (Z.to_nat (threshClean threadMax)))
    ∅ [] 0.

(** Modelled from the spec: [FreeList<Node>] of FreeList.h, a "per-type pool
    that constructs nodes from a lazily-growing slab and recycles freed nodes.
    Each freed node is returned to the pool of the thread that originally
    allocated it (the [threadId] field on the node)."  [construct] takes a
    recycled node of the calling thread's pool or, when there is none, the
    next slot of the slab, and runs the constructor of [Node]
    ([HazardMemNode() : ref(0), trace(false), del(false)], [Link()] for both
    links). *)
Definition Node_new (tid : nat) : Node := mkNode tid 0 false false ∅ 0 0 0.

Definition construct (tid : nat) (m : Mem) : Mem * Z :=
  match pools m !! tid with
  | Some (p :: rest) =>
      (set_nodes <[p := Node_new tid]> (set_pools <[tid := rest]> m), p)
  | _ =>
      let p := slab m in
      (set_nodes <[p := Node_new tid]> (set_slab (λ a, a + 2) m), p)
  end.

(** Modelled from the spec: [FreeList::destruct] destroys the node and
    returns it to the pool of the thread in its [threadId]. *)
Definition destruct_ (n : Z) (m : Mem) : Mem :=
  let t := n_threadId (node_at m n) in
  set_pools <[t := n :: default [] (pools m !! t)]> m.

(** [threadData()], with [initThreadData] on the thread's first call *)
Definition initThreadData (tid : nat) (m : Mem) : Mem * option nat :=
  match threads m !! tid with
  | Some _ => (m, Some tid)
  | None =>
      if bool_decide (Z.of_nat (length (threadDataList m)) < threadMax)
      then (set_threadDataList (λ l, l ++ [tid])
              (set_threads <[tid := ThreadData_new]> m), Some tid)
      else (m, None)
  end.

(** [Atomic::cas(val, old)] *)
Definition cas_link (l : LinkAddr) (val old : Z) (m : Mem) : Mem * bool :=
  if bool_decide (load_link m l = old) then (store_link l val m, true)
  else (m, false).

Definition exec (B : Type) (tid : nat) (o : Op B) (m : Mem) : Mem * B :=
  match o in Op B return Mem * B with
  | LoadRef n => (m, n_ref (node_at m n))
  | AddRef n d => (upd_node n (with_ref (λ r, int32 (r + d))) m, ())
  | LoadTrace n => (m, n_trace (node_at m n))
  | StoreTrace n b => (upd_node n (with_trace b) m, ())
  | StoreDel n b => (upd_node n (with_del b) m, ())
  | HazardRefInc n =>
      (upd_hazard tid n (λ h, mkHazard (h_index h) (int8 (h_ref h + 1))) m,
       h_ref (hazard_at m tid n))
  | HazardRefDec n =>
      (upd_hazard tid n (λ h, mkHazard (h_index h) (int8 (h_ref h - 1))) m,
       int8 (h_ref (hazard_at m tid n) - 1))
  | LoadHazardIndex n => (m, h_index (hazard_at m tid n))
  | StoreHazardIndex n i =>
      (upd_hazard tid n (λ h, mkHazard i (h_ref h)) m, ())
  | LoadLink l => (m, load_link m l)
  | StoreLink l v => (store_link l v m, ())
  | CasLink l val old => cas_link l val old m
  | LoadData n => (m, n_data (node_at m n))
  | StoreData n v => (upd_node n (with_data v) m, ())
  | ThreadDataGet => initThreadData tid m
  | HazardFreeBack td => (m, last (td_hazardFreeList (td_at m td)))
  | HazardFreePop td => (upd_td td (with_hazardFreeList (removelast (A:=Z))) m, ())
  | HazardFreePush td i => (upd_td td (with_hazardFreeList (λ l, l ++ [i])) m, ())
  | StoreHazard td i p =>
      (if 0 <=? i then upd_td td (with_hazards <[Z.to_nat i := p]>) m else m, ())
  | LoadHazard td i => (m, default nil (td_hazards (td_at m td) !! i))
  | ThreadDataCount => (m, length (threadDataList m))
  | ThreadDataAt ti => (m, default 0%nat (threadDataList m !! ti))
  | DelFreeBack td => (m, last (td_delNodeFreeList (td_at m td)))
  | DelFreePop td => (upd_td td (with_delNodeFreeList (removelast (A:=nat))) m, ())
  | DelFreePush td e => (upd_td td (with_delNodeFreeList (λ l, l ++ [e])) m, ())
  | LoadEntryNode td e => (m, dn_node (entry_at m td e))
  | StoreEntryNode td e p => (upd_entry td e (with_node p) m, ())
  | LoadEntryDone td e => (m, dn_done (entry_at m td e))
  | StoreEntryDone td e b => (upd_entry td e (with_done b) m, ())
  | LoadEntryClaim td e => (m, dn_claim (entry_at m td e))
  | AddEntryClaim td e d => (upd_entry td e (with_claim (λ c, int32 (c + d))) m, ())
  | LoadDelHead td => (m, td_delHead (td_at m td))
  | StoreDelHead td l => (upd_td td (with_delHead (λ _, l)) m, ())
  | LoadDelCount td => (m, td_delCount (td_at m td))
  | StoreDelCount td c => (upd_td td (with_delCount (λ _, c)) m, ())
  | DelHazardsInsert td p => (upd_td td (with_delHazards (λ s, {[p]} ∪ s)) m, ())
  | DelHazardsCount td p => (m, bool_decide (p ∈ td_delHazards (td_at m td)))
  | DelHazardsClear td => (upd_td td (with_delHazards (λ _, ∅)) m, ())
  | Construct => construct tid m
  | Destruct n => (destruct_ n m, ())
  | LoadSize => (m, l_size m)
  | AddSize d => (set_l_size (λ s, intptr (s + d)) m, ())
  | WriteOut r v => (set_vars <[r := v]> m, ())
  | Backoff => (m, ())
  | Log c => (set_calls (λ l, l ++ [c]) m, ())
  end.

End Exec.

End Atomic.

(** ** HazardMem.h *)

Module HazardMem.
Import Heap Atomic.

Abbreviation M := (Prog Op).

(** [for (x : l) body] *)
Fixpoint for_each {A} (l : list A) (body : A → M unit) : M unit :=
  match l with
  | [] => Ret ()
  | x :: l => body x ;; for_each l body
  end.

Section HazardMem.
Context `{Config}.
Variable threadMax : Z.
(** The callbacks of the configuration. *)
Variable cleanUpNode : Z → M unit.
Variable terminateNode : Z → bool → M unit.

(** [threadData()]; the assertion of [initThreadData] aborts. *)
Definition threadData : M nat :=
  r ← call ThreadDataGet;
  match r with Some td => Ret td | None => Abort end.

Fixpoint deRefLink_loop (fuel : nat) (td : nat) (link : LinkAddr) (index : Z) : M Z :=
  match fuel with
  | O => Spin
  | S fuel =>
      data ← call (LoadLink link);
      let node := link_ptr data in
      (* Set up hazard *)
      call (StoreHazard td index node);;
      (* Ensure that link is protected *)
      data' ← call (LoadLink link);
      if bool_decide (link_ptr data' = node) then Ret node
      else deRefLink_loop fuel td link index
  end.

(** Dereference a link, protects with hazard pointer. May return null. *)
Definition deRefLink (fuel : nat) (link : LinkAddr) : M Z :=
  td ← threadData;
  (* Get free hazard index *)
  back ← call (HazardFreeBack td);
  match back with
  | None => Abort
  | Some index =>
      node ← deRefLink_loop fuel td link index;
      (* Only add hazard if pointer is valid *)
      if bool_decide (node ≠ nil) then
        old ← call (HazardRefInc node);
        if 0 <? old then
          call (StoreHazard td index nil);; Ret node
        else
          call (StoreHazardIndex node index);;
          call (HazardFreePop td);;
          Ret node
      else Ret node
  end.

(** Add reference to node, sets up hazard pointer *)
Definition ref (node : Z) : M unit :=
  old ← call (HazardRefInc node);
  if 0 <? old then Ret () else
  td ← threadData;
  back ← call (HazardFreeBack td);
  match back with
  | None => Abort
  | Some index =>
      call (HazardFreePop td);;
      call (StoreHazardIndex node index);;
      call (StoreHazard td index node)
  end.

(** Release a reference to a node, clears hazard pointer *)
Definition releaseRef (node : Z) : M unit :=
  new ← call (HazardRefDec node);
  if 0 <? new then Ret () else
  if negb (new =? 0) then Abort else
  td ← threadData;
  index ← call (LoadHazardIndex node);
  call (StoreHazard td index nil);;
  call (HazardFreePush td index).

(** Compare and swap link. *)
Definition casRef (link : LinkAddr) (val old : Z) : M bool :=
  ok ← call (CasLink link val old);
  if ok : bool then
    (if bool_decide (link_ptr val ≠ nil) then
       call (AddRef (link_ptr val) 1);;
       call (StoreTrace (link_ptr val) false)
     else Ret ());;
    (if bool_decide (link_ptr old ≠ nil) then call (AddRef (link_ptr old) (-1))
     else Ret ());;
    Ret true
  else Ret false.

(** Set link in a single-threaded environment *)
Definition storeRef (link : LinkAddr) (val : Z) : M unit :=
  old ← call (LoadLink link);
  call (StoreLink link val);;
  (if bool_decide (link_ptr val ≠ nil) then
     call (AddRef (link_ptr val) 1);;
     call (StoreTrace (link_ptr val) false)
   else Ret ());;
  (if bool_decide (link_ptr old ≠ nil) then call (AddRef (link_ptr old) (-1))
   else Ret ()).

Definition createNode : M Z :=
  node ← call Construct;
  ref node;;
  Ret node.

(** Update nodes deleted by this thread *)
Definition cleanUpLocal : M unit :=
  td ← threadData;
  chain ← call (LoadDelHead td);
  for_each chain (λ delNode,
    node ← call (LoadEntryNode td delNode);
    call (Log (CCleanUp node));;
    cleanUpNode node).

(** Update nodes deleted by all threads *)
Definition cleanUpAll : M unit :=
  count ← call ThreadDataCount;
  for_each (seq 0 count) (λ ti,
    td ← call (ThreadDataAt ti);
    for_each (seq 0 (Z.to_nat (threshClean threadMax))) (λ i,
      node ← call (LoadEntryNode td i);
      if bool_decide (node ≠ nil) then
        done ← call (LoadEntryDone td i);
        if done : bool then Ret () else
          call (AddEntryClaim td i 1);;
          node' ← call (LoadEntryNode td i);
          (if bool_decide (node = node') then
             call (Log (CCleanUp node));; cleanUpNode node
           else Ret ());;
          call (AddEntryClaim td i (-1))
      else Ret ())).

(** [scan], first loop: set trace to make sure ref == 0 is consistent
    across the hazard check. *)
Definition scan_trace (td : nat) (delNode : nat) : M unit :=
  node ← call (LoadEntryNode td delNode);
  r ← call (LoadRef node);
  if r =? 0 then
    call (StoreTrace node true);;
    r' ← call (LoadRef node);
    if negb (r' =? 0) then call (StoreTrace node false) else Ret ()
  else Ret ().

(** [scan], second loop: flag all del nodes that have a hazard. *)
Definition scan_hazards (td : nat) : M unit :=
  count ← call ThreadDataCount;
  for_each (seq 0 count) (λ ti,
    tdata ← call (ThreadDataAt ti);
    for_each (seq 0 (Z.to_nat hazardMax)) (λ i,
      node ← call (LoadHazard tdata i);
      if bool_decide (node ≠ nil) then call (DelHazardsInsert td node)
      else Ret ())).

(** [node.ref == 0 && node.trace && !td.delHazards.count(&node)] *)
Definition scan_reclaimable (td : nat) (node : Z) : M bool :=
  r ← call (LoadRef node);
  if r =? 0 then
    t ← call (LoadTrace node);
    if t : bool then
      h ← call (DelHazardsCount td node);
      Ret (negb h)
    else Ret false
  else Ret false.

(** [scan], one iteration of the third loop on the entry [delNode] taken
    from the chain; the result is the new head of [newDelHead]: [Some] when
    the entry is queued again, [None] when it was freed ([continue]). *)
Definition scan_visit (td : nat) (delNode : nat) : M (option nat) :=
  node ← call (LoadEntryNode td delNode);
  ok ← scan_reclaimable td node;
  if ok : bool then
    call (StoreEntryNode td delNode nil);;
    claim ← call (LoadEntryClaim td delNode);
    if claim =? 0 then
      call (Log (CTerminate node false));;
      terminateNode node false;;
      (* Free the node *)
      call (DelFreePush td delNode);;
      call (Log (CDestruct node));;
      call (Destruct node);;
      Ret None
    else
      call (Log (CTerminate node true));;
      terminateNode node true;;
      call (StoreEntryDone td delNode true);;
      call (StoreEntryNode td delNode node);;
      Ret (Some delNode)
  else Ret (Some delNode).

(** [while (td.delHead)] of [scan]; the chain shrinks by one entry in
    every iteration. *)
Fixpoint scan_walk (td : nat) (chain : list nat) (newDelHead : list nat)
    (newDelCount : Z) : M (list nat * Z) :=
  match chain with
  | [] => Ret (newDelHead, newDelCount)
  | delNode :: rest =>
      call (StoreDelHead td rest);;
      r ← scan_visit td delNode;
      match r with
      | Some e => scan_walk td rest (e :: newDelHead) (newDelCount + 1)
      | None => scan_walk td rest newDelHead newDelCount
      end
  end.

(** Searches through deleted nodes and attempts to reclaim them. *)
Definition scan : M unit :=
  td ← threadData;
  chain ← call (LoadDelHead td);
  for_each chain (scan_trace td);;
  scan_hazards td;;
  chain ← call (LoadDelHead td);
  '(newDelHead, newDelCount) ← scan_walk td chain [] 0;
  call (DelHazardsClear td);;
  call (StoreDelHead td newDelHead);;
  call (StoreDelCount td newDelCount).

Fixpoint deleteNode_loop (fuel : nat) (td : nat) : M unit :=
  match fuel with
  | O => Spin
  | S fuel =>
      c ← call (LoadDelCount td);
      (if c =? threshClean threadMax then cleanUpLocal else Ret ());;
      c ← call (LoadDelCount td);
      (if threshScan threadMax <=? c then scan else Ret ());;
      c ← call (LoadDelCount td);
      if c =? threshClean threadMax then cleanUpAll;; deleteNode_loop fuel td
      else Ret ()
  end.

Definition deleteNode (fuel : nat) (node : Z) : M unit :=
  td ← threadData;
  call (StoreDel node true);;
  call (StoreTrace node false);;
  (* Get free del node *)
  back ← call (DelFreeBack td);
  match back with
  | None => Abort
  | Some delNode =>
      call (DelFreePop td);;
      call (StoreEntryDone td delNode false);;
      call (StoreEntryNode td delNode node);;
      chain ← call (LoadDelHead td);
      call (StoreDelHead td (delNode :: chain));;
      c ← call (LoadDelCount td);
      call (StoreDelCount td (c + 1));;
      deleteNode_loop fuel td
  end.

End HazardMem.
End HazardMem.

(** ** List.h *)

Module LockFreeList.
Import Heap Atomic HazardMem.

Section List.
(** [iterMax]: max number of iterator instances per thread;
    [threadMax]: the constructor's argument. *)
Variable iterMax : Z.
Variable threadMax : Z.
(** Iteration bound of the [while (true)] loops. *)
Variable N : nat.

#[local] Instance cfg : Config := ListConfig iterMax.

(** [Link(Node* ptr)], the conversion of a node pointer to an unmarked link *)
Definition link_of (ptr : Z) : Z := Link ptr false.

(** [_head.ptr()], [_tail.ptr()] *)
Definition head_ptr : M Z := data ← call (LoadLink LHead); Ret (Link_ptr data).
Definition tail_ptr : M Z := data ← call (LoadLink LTail); Ret (Link_ptr data).

(** Set delete mark *)
Fixpoint setMark_loop (fuel : nat) (link : LinkAddr) : M unit :=
  match fuel with
  | O => Spin
  | S fuel =>
      old ← call (LoadLink link);
      if Link_d old then Ret () else
      ok ← call (CasLink link (Link (Link_ptr old) true) old);
      if ok : bool then Ret () else setMark_loop fuel link
  end.

Definition setMark (link : LinkAddr) : M unit := setMark_loop N link.

Fixpoint cleanUpNode_prev (fuel : nat) (node : Z) : M unit :=
  match fuel with
  | O => Spin
  | S fuel =>
      prev ← deRefLink N (LPrev node);
      if bool_decide (prev = nil) then Ret () else
      pp ← call (LoadLink (LPrev prev));
      if negb (Link_d pp) then releaseRef prev
      else
        prev2 ← deRefLink N (LPrev prev);
        casRef (LPrev node) (Link prev2 true) (Link prev true);;
        releaseRef prev2;;
        releaseRef prev;;
        cleanUpNode_prev fuel node
  end.

Fixpoint cleanUpNode_next (fuel : nat) (node : Z) : M unit :=
  match fuel with
  | O => Spin
  | S fuel =>
      next ← deRefLink N (LNext node);
      if bool_decide (next = nil) then Ret () else
      nn ← call (LoadLink (LNext next));
      if negb (Link_d nn) then releaseRef next
      else
        next2 ← deRefLink N (LNext next);
        casRef (LNext node) (Link next2 true) (Link next true);;
        releaseRef next2;;
        releaseRef next;;
        cleanUpNode_next fuel node
  end.

(** Override from HazardMemConfig *)
Definition cleanUpNode (node : Z) : M unit :=
  cleanUpNode_prev N node;;
  cleanUpNode_next N node.

(** Override from HazardMemConfig *)
Definition terminateNode (node : Z) (concurrent : bool) : M unit :=
  if negb concurrent then
    storeRef (LPrev node) (Link nil true);;
    storeRef (LNext node) (Link nil true)
  else
    old ← call (LoadLink (LPrev node));
    casRef (LPrev node) (Link nil true) old;;
    old ← call (LoadLink (LNext node));
    casRef (LNext node) (Link nil true) old;;
    Ret ().

(** [_mem.deleteNode] and [_mem.scan] of [HazardMem<List>] *)
Definition deleteNode : Z → M unit :=
  HazardMem.deleteNode threadMax cleanUpNode terminateNode N.
Definition scan : M unit :=
  HazardMem.scan terminateNode.

Definition createNode (data : Z) : M Z :=
  node ← HazardMem.createNode;
  if negb (Z.land node (Z.lnot ptr_mask) =? 0) then Abort else
  call (StoreLink (LPrev node) 0);;
  call (StoreLink (LNext node) 0);;
  call (StoreData node data);;
  Ret node.

(** [List(int threadMax)]; [T()] is [0]. *)
Definition List_new : M unit :=
  h ← createNode 0;
  storeRef LHead (link_of h);;
  t ← createNode 0;
  storeRef LTail (link_of t);;
  h ← head_ptr;
  tl ← call (LoadLink LTail);
  storeRef (LNext h) tl;;
  t ← tail_ptr;
  hd ← call (LoadLink LHead);
  storeRef (LPrev t) hd;;
  h ← head_ptr;
  releaseRef h;;
  t ← tail_ptr;
  releaseRef t.

(** The loop of [correctPrev]; the result is [(prev, lastLink)] at its exit. *)
Fixpoint correctPrev_loop (fuel : nat) (prev lastLink node : Z) : M (Z * Z) :=
  match fuel with
  | O => Spin
  | S fuel =>
      link ← call (LoadLink (LPrev node));
      if Link_d link then
        (* node was deleted while correcting: undo the last step *)
        if bool_decide (lastLink ≠ nil) then
          releaseRef prev;; Ret (lastLink, nil)
        else Ret (prev, lastLink)
      else
      pn ← call (LoadLink (LNext prev));
      let prev2_d := Link_d pn in
      prev2 ← deRefLink N (LNext prev);
      if prev2_d then
        if bool_decide (lastLink ≠ nil) then
          setMark (LPrev prev);;
          casRef (LNext lastLink) (link_of prev2) (link_of prev);;
          releaseRef prev2;;
          releaseRef prev;;
          correctPrev_loop fuel lastLink nil node
        else
          releaseRef prev2;;
          prev2 ← deRefLink N (LPrev prev);
          releaseRef prev;;
          correctPrev_loop fuel prev2 lastLink node
      else if bool_decide (prev2 ≠ node) then
        (if bool_decide (lastLink ≠ nil) then releaseRef lastLink else Ret ());;
        correctPrev_loop fuel prev2 prev node
      else
        releaseRef prev2;;
        ok ← casRef (LPrev node) (link_of prev) link;
        if ok : bool then
          pp ← call (LoadLink (LPrev prev));
          if Link_d pp then correctPrev_loop fuel prev lastLink node
          else Ret (prev, lastLink)
        else
          call Backoff;;
          correctPrev_loop fuel prev lastLink node
  end.

(** Update the prev pointer of [node] using [prev] as a suggestion. *)
Definition correctPrev (prev node : Z) : M Z :=
  '(prev, lastLink) ← correctPrev_loop N prev nil node;
  (if bool_decide (lastLink ≠ nil) then releaseRef lastLink else Ret ());;
  Ret prev.

Fixpoint pushEnd_loop (fuel : nat) (node next : Z) : M Z :=
  match fuel with
  | O => Spin
  | S fuel =>
      link ← call (LoadLink (LPrev next));
      if Link_d link then Ret node else
      nn ← call (LoadLink (LNext node));
      if negb (nn =? link_of next) then Ret node else
      ok ← casRef (LPrev next) (link_of node) link;
      if ok : bool then
        np ← call (LoadLink (LPrev node));
        if Link_d np then correctPrev node next else Ret node
      else
        call Backoff;;
        pushEnd_loop fuel node next
  end.

(** End of push method *)
Definition pushEnd (node next : Z) : M unit :=
  pNode ← pushEnd_loop N node next;
  releaseRef next;;
  releaseRef pNode.

Fixpoint push_front_loop (fuel : nat) (node prev next : Z) : M Z :=
  match fuel with
  | O => Spin
  | S fuel =>
      storeRef (LPrev node) (link_of prev);;
      storeRef (LNext node) (link_of next);;
      ok ← casRef (LNext prev) (link_of node) (link_of next);
      if ok : bool then Ret next else
      releaseRef next;;
      next ← deRefLink N (LNext prev);
      call Backoff;;
      push_front_loop fuel node prev next
  end.

(** Insert new element at beginning of list *)
Definition push_front (data : Z) : M unit :=
  node ← createNode data;
  prev ← deRefLink N LHead;
  next ← deRefLink N (LNext prev);
  next ← push_front_loop N node prev next;
  call (AddSize 1);;
  releaseRef prev;;
  pushEnd node next.

Fixpoint push_back_loop (fuel : nat) (node prev next : Z) : M Z :=
  match fuel with
  | O => Spin
  | S fuel =>
      storeRef (LPrev node) (link_of prev);;
      storeRef (LNext node) (link_of next);;
      ok ← casRef (LNext prev) (link_of node) (link_of next);
      if ok : bool then Ret prev else
      prev ← correctPrev prev next;
      call Backoff;;
      push_back_loop fuel node prev next
  end.

(** Add new element onto end of list *)
Definition push_back (data : Z) : M unit :=
  node ← createNode data;
  next ← deRefLink N LTail;
  prev ← deRefLink N (LPrev next);
  prev ← push_back_loop N node prev next;
  call (AddSize 1);;
  releaseRef prev;;
  pushEnd node next.

(** [if (data) data = move(node->data)] *)
Definition move_out (data : option nat) (node : Z) : M unit :=
  match data with
  | Some r => v ← call (LoadData node); call (WriteOut r v)
  | None => Ret ()
  end.

(** The body of the loop of [pop_front], after it has read [node] from
    [prev->next] and compared it with [_tail.ptr()]: [Some b] is
    [return b], [None] is the next iteration. *)
Definition pop_front_act (data : option nat) (prev node tail : Z) : M (option bool) :=
  if bool_decide (node = tail) then
    releaseRef node;;
    releaseRef prev;;
    Ret (Some false)
  else
  nn ← call (LoadLink (LNext node));
  let next_d := Link_d nn in
  next ← deRefLink N (LNext node);
  if next_d then
    setMark (LPrev node);;
    casRef (LNext prev) (link_of next) (link_of node);;
    releaseRef next;;
    releaseRef node;;
    Ret None
  else
  ok ← casRef (LNext node) (Link next true) (link_of next);
  if ok : bool then
    call (AddSize (-1));;
    prev ← correctPrev prev next;
    releaseRef prev;;
    releaseRef next;;
    move_out data node;;
    releaseRef node;;
    deleteNode node;;
    Ret (Some true)
  else
    releaseRef next;;
    releaseRef node;;
    call Backoff;;
    Ret None.

(** What an iteration of the loop of [pop_front] first reads:
    [node = deRefLink(prev->next)] and [_tail.ptr()]. *)
Definition pop_front_observe (prev : Z) : M (Z * Z) :=
  node ← deRefLink N (LNext prev);
  tail ← tail_ptr;
  Ret (node, tail).

(** One iteration of the loop of [pop_front]. *)
Definition pop_front_step (data : option nat) (prev : Z) : M (option bool) :=
  '(node, tail) ← pop_front_observe prev;
  pop_front_act data prev node tail.

Fixpoint pop_front_loop (fuel : nat) (data : option nat) (prev : Z) : M bool :=
  match fuel with
  | O => Spin
  | S fuel =>
      r ← pop_front_step data prev;
      match r with
      | Some b => Ret b
      | None => pop_front_loop fuel data prev
      end
  end.

(** Pop element from beginning of list, stores in [data]. *)
Definition pop_front (data : option nat) : M bool :=
  prev ← deRefLink N LHead;
  pop_front_loop N data prev.

Fixpoint pop_back_loop (fuel : nat) (data : option nat) (node next : Z) : M bool :=
  match fuel with
  | O => Spin
  | S fuel =>
      nn ← call (LoadLink (LNext node));
      if negb (nn =? link_of next) then
        node ← correctPrev node next;
        pop_back_loop fuel data node next
      else
      head ← head_ptr;
      if bool_decide (node = head) then
        releaseRef node;;
        releaseRef next;;
        Ret false
      else
      ok ← casRef (LNext node) (Link next true) (link_of next);
      if ok : bool then
        call (AddSize (-1));;
        prev ← deRefLink N (LPrev node);
        prev ← correctPrev prev next;
        releaseRef prev;;
        releaseRef next;;
        move_out data node;;
        releaseRef node;;
        deleteNode node;;
        Ret true
      else
        call Backoff;;
        pop_back_loop fuel data node next
  end.

(** Pop element from end of list, stores in [data]. *)
Definition pop_back (data : option nat) : M bool :=
  next ← deRefLink N LTail;
  node ← deRefLink N (LPrev next);
  pop_back_loop N data node next.

(** An iterator belongs to the thread that uses it ("an iterator instance
    is not thread-safe"): it is its cursor [_cur], and a function that
    takes an [Iter&] takes the cursor and returns the new one. *)

(** [Iter_(const List& list, bool end)] *)
Definition Iter_new (end_ : bool) : M Z :=
  cur ← (if end_ then tail_ptr else head_ptr);
  ref cur;;
  Ret cur.

Fixpoint Iter_inc_loop (fuel : nat) (cur : Z) : M Z :=
  match fuel with
  | O => Spin
  | S fuel =>
      tail ← tail_ptr;
      if bool_decide (cur = tail) then Ret cur else
      next ← deRefLink N (LNext cur);
      nn ← call (LoadLink (LNext next));
      let d := Link_d nn in
      stale ← (if d then cn ← call (LoadLink (LNext cur));
                         Ret (negb (cn =? Link next true))
               else Ret false);
      if stale : bool then
        setMark (LPrev next);;
        nn ← call (LoadLink (LNext next));
        casRef (LNext cur) (link_of (Link_ptr nn)) (link_of next);;
        releaseRef next;;
        Iter_inc_loop fuel cur
      else
        releaseRef cur;;
        if d then Iter_inc_loop fuel next else Ret next
  end.

(** [Iter_::operator++] *)
Definition Iter_inc (cur : Z) : M Z :=
  call (Log (CIterInc cur));;
  Iter_inc_loop N cur.

(** [begin()] *)
Definition begin : M Z :=
  it ← Iter_new false;
  Iter_inc it.

(** [end()] *)
Definition end_ : M Z := Iter_new true.

(** The inner loop of [erase] that marks [node->prev]. *)
Fixpoint erase_prev_loop (fuel : nat) (node : Z) : M Z :=
  match fuel with
  | O => Spin
  | S fuel =>
      np ← call (LoadLink (LPrev node));
      let bPrev := Link_d np in
      prev ← deRefLink N (LPrev node);
      ok ← (if bPrev then Ret true
            else call (CasLink (LPrev node) (Link prev true) (link_of prev)));
      if ok : bool then Ret prev else
      releaseRef prev;;
      erase_prev_loop fuel node
  end.

(** The loop of [erase]; [node] is [it._cur], which stays put until the
    [++it] after the loop.  The result is [erased]. *)
Fixpoint erase_loop (fuel : nat) (data : option nat) (node : Z) : M bool :=
  match fuel with
  | O => Spin
  | S fuel =>
      cn ← call (LoadLink (LNext node));
      let next_d := Link_d cn in
      next ← deRefLink N (LNext node);
      if next_d then
        releaseRef next;;
        Ret false
      else
      ok ← call (CasLink (LNext node) (Link next true) (link_of next));
      if ok : bool then
        call (AddSize (-1));;
        prev ← erase_prev_loop N node;
        prev ← correctPrev prev next;
        releaseRef prev;;
        releaseRef next;;
        move_out data node;;
        deleteNode node;;
        Ret true
      else
        releaseRef next;;
        erase_loop fuel data node
  end.

(** Erase element at iterator position, store erased element in [data],
    and advance iterator.  Returns [erased] and the iterator. *)
Definition erase (it : Z) (data : option nat) : M (bool * Z) :=
  let node := it in
  head ← head_ptr;
  tail ← tail_ptr;
  if bool_decide (node = head) || bool_decide (node = tail) then Abort else
  erased ← erase_loop N data node;
  it ← Iter_inc it;
  Ret (erased, it).

(** Number of elements in list *)
Definition size_of (_size : Z) : Z := if 0 <? _size then _size else 0.

Definition size : M Z :=
  _size ← call LoadSize;
  Ret (size_of _size).

End List.
End LockFreeList.

(** ** Queue.h *)

Module Queue.

(** Modelled from the spec: [FreeList<T>::TaggedHandle] of FreeList.h, a
    "node handle (pool index or pointer) plus a monotonic tag"; "nil handles
    still carry a tag".  A handle is the index of a pool slot, [None] is
    the nil handle. *)
Record TaggedHandle := mkTaggedHandle {
  handle : option nat;
  tag : Z
}.

Global Instance TaggedHandle_eq_dec : EqDecision TaggedHandle.
Proof. solve_decision. Defined.

(** [nextTag()] *)
Definition nextTag (h : TaggedHandle) : Z := tag h + 1.

(** [Queue::Node] *)
Record Node := mkNode {
  val : Z;
  next : TaggedHandle
}.

Record Mem := mkMem {
  slots : gmap nat Node;        (* the slots of _freeList, by handle *)
  free : list nat;              (* _freeList: the recycled slots *)
  fresh : nat;                  (* _freeList: the next slot of the slab *)
  _head : TaggedHandle;
  _tail : TaggedHandle;
  _size : Z;
  vars : gmap nat Z             (* the caller's output variables *)
}.

(** A slot never constructed holds a nil link of tag 0. *)
Definition Node0 : Node := mkNode 0 (mkTaggedHandle None 0).
Definition slot_at (m : Mem) (h : nat) : Node := default Node0 (slots m !! h).

(** [_freeList.deref(h)]; the nil handle is taken to slot 0, the code
    never dereferences it. *)
Definition deref (h : TaggedHandle) : nat := default 0%nat (handle h).

Inductive Op : Type → Type :=
| LoadHead : Op TaggedHandle
| LoadTail : Op TaggedHandle
| CasHead (val old : TaggedHandle) : Op bool
| CasTail (val old : TaggedHandle) : Op bool
| LoadNext (n : nat) : Op TaggedHandle
| CasNext (n : nat) (val old : TaggedHandle) : Op bool
| LoadVal (n : nat) : Op Z
| Construct (v : Z) : Op nat
| Destroy (n : nat) : Op unit
| LoadSize : Op Z
| AddSize (d : Z) : Op unit
| WriteOut (r : nat) (v : Z) : Op unit.

Definition set_slots (f : gmap nat Node → gmap nat Node) (m : Mem) : Mem :=
  mkMem (f (slots m)) (free m) (fresh m) (_head m) (_tail m) (_size m) (vars m).
Definition set_head (h : TaggedHandle) (m : Mem) : Mem :=
  mkMem (slots m) (free m) (fresh m) h (_tail m) (_size m) (vars m).
Definition set_tail (h : TaggedHandle) (m : Mem) : Mem :=
  mkMem (slots m) (free m) (fresh m) (_head m) h (_size m) (vars m).
Definition set_size (f : Z → Z) (m : Mem) : Mem :=
  mkMem (slots m) (free m) (fresh m) (_head m) (_tail m) (f (_size m)) (vars m).
Definition set_vars (f : gmap nat Z → gmap nat Z) (m : Mem) : Mem :=
  mkMem (slots m) (free m) (fresh m) (_head m) (_tail m) (_size m) (f (vars m)).

(** Modelled from the spec: [FreeList::construct] takes a recycled slot or
    the next slot of the slab ("free-list grows on demand") and runs the
    constructor of [Node], which keeps the tag the slot had ("pool slots
    carry a monotonically-increasing tag"):
    [next.store(TaggedHandle(nullptr, next.load().nextTag()))]. *)
Definition construct (v : Z) (m : Mem) : Mem * nat :=
  let '(n, fr, fh) :=
    match free m with
    | n :: rest => (n, rest, fresh m)
    | [] => (fresh m, [], S (fresh m))
    end in
  let nd := mkNode v (mkTaggedHandle None (nextTag (next (slot_at m n)))) in
  (mkMem (<[n := nd]> (slots m)) fr fh (_head m) (_tail m) (_size m) (vars m), n).

(** Modelled from the spec: [FreeList::destroy] recycles the slot; its
    memory stays readable. *)
Definition destroy (n : nat) (m : Mem) : Mem :=
  mkMem (slots m) (n :: free m) (fresh m) (_head m) (_tail m) (_size m) (vars m).

Definition exec (B : Type) (tid : nat) (o : Op B) (m : Mem) : Mem * B :=
  match o in Op B return Mem * B with
  | LoadHead => (m, _head m)
  | LoadTail => (m, _tail m)
  | CasHead v old =>
      if bool_decide (_head m = old) then (set_head v m, true) else (m, false)
  | CasTail v old =>
      if bool_decide (_tail m = old) then (set_tail v m, true) else (m, false)
  | LoadNext n => (m, next (slot_at m n))
  | CasNext n v old =>
      if bool_decide (next (slot_at m n) = old)
      then (set_slots <[n := mkNode (val (slot_at m n)) v]> m, true)
      else (m, false)
  | LoadVal n => (m, val (slot_at m n))
  | Construct v => construct v m
  | Destroy n => (destroy n m, ())
  | LoadSize => (m, _size m)
  | AddSize d => (set_size (λ s, (s + d) `mod` 2 ^ 64) m, ())
  | WriteOut r v => (set_vars <[r := v]> m, ())
  end.

Abbreviation M := (Prog Op).

(** [TaggedHandle(h, tag)] from the handle of [h] *)
Definition retag (h : TaggedHandle) (t : Z) : TaggedHandle :=
  mkTaggedHandle (handle h) t.

(** [if (val) val = _freeList.deref(h)->val] *)
Definition assign (out : option nat) (n : nat) : M unit :=
  match out with
  | Some r => v ← call (LoadVal n); call (WriteOut r v)
  | None => Ret ()
  end.

(** [Queue(szt capacity)]: a dummy head node, [T()] is [0]. *)
Definition Queue_new : Mem :=
  let '(m, n) := construct 0 (mkMem ∅ [] 0 (mkTaggedHandle None 0)
                                (mkTaggedHandle None 0) 0 ∅) in
  set_tail (mkTaggedHandle (Some n) 0) (set_head (mkTaggedHandle (Some n) 0) m).

Fixpoint push_loop (fuel : nat) (node : nat) : M TaggedHandle :=
  match fuel with
  | O => Spin
  | S fuel =>
      tail ← call LoadTail;
      next ← call (LoadNext (deref tail));
      (* ensure that tail and next are consistent *)
      tail' ← call LoadTail;
      if bool_decide (tail ≠ tail') then push_loop fuel node else
      (* check if tail isn't last *)
      if bool_decide (handle next ≠ None) then
        call (CasTail (retag next (nextTag tail)) tail);;
        push_loop fuel node
      else
      (* try to add the element onto the end of the list *)
      ok ← call (CasNext (deref tail)
                   (mkTaggedHandle (Some node) (nextTag next)) next);
      if ok : bool then Ret tail else push_loop fuel node
  end.

(** Add new element constructed with [val] onto the end of the queue *)
Definition push (fuel : nat) (v : Z) : M unit :=
  node ← call (Construct v);
  tail ← push_loop fuel node;
  (* try to relocate tail to the inserted element *)
  call (CasTail (mkTaggedHandle (Some node) (nextTag tail)) tail);;
  call (AddSize 1).

Fixpoint pop_loop (fuel : nat) (out : option nat) : M (option TaggedHandle) :=
  match fuel with
  | O => Spin
  | S fuel =>
      head ← call LoadHead;
      tail ← call LoadTail;
      next ← call (LoadNext (deref head));
      (* ensure that head, tail and next are consistent *)
      head' ← call LoadHead;
      if bool_decide (head ≠ head') then pop_loop fuel out else
      (* check if queue is empty or tail isn't last *)
      if bool_decide (handle head = handle tail) then
        if bool_decide (handle next = None) then Ret None (* queue is empty *)
        else
          call (CasTail (retag next (nextTag tail)) tail);;
          pop_loop fuel out
      else
      if bool_decide (handle next = None) then pop_loop fuel out else
      (* read the value before cas, otherwise another pop can destroy next *)
      assign out (deref next);;
      (* try to move head forward *)
      ok ← call (CasHead (retag next (nextTag head)) head);
      if ok : bool then Ret (Some head) else pop_loop fuel out
  end.

(** Remove oldest element from the queue and copy it into [val]. *)
Definition pop (fuel : nat) (out : option nat) : M bool :=
  r ← pop_loop fuel out;
  match r with
  | None => Ret false
  | Some head =>
      call (AddSize (-1));;
      call (Destroy (deref head));;
      Ret true
  end.

(** Get a copy of the next element that will be popped. *)
Fixpoint front (fuel : nat) (out : nat) : M bool :=
  match fuel with
  | O => Spin
  | S fuel =>
      head ← call LoadHead;
      tail ← call LoadTail;
      next ← call (LoadNext (deref head));
      head' ← call LoadHead;
      if bool_decide (head ≠ head') then front fuel out else
      (* check if queue is empty *)
      if bool_decide (handle head = handle tail) && bool_decide (handle next = None)
      then Ret false else
      if bool_decide (handle next = None) then front fuel out else
      v ← call (LoadVal (deref next));
      call (WriteOut out v);;
      head' ← call LoadHead;
      if bool_decide (head = head') then Ret true else front fuel out
  end.

(** Get a copy of the last element. *)
Fixpoint back (fuel : nat) (out : nat) : M bool :=
  match fuel with
  | O => Spin
  | S fuel =>
      head ← call LoadHead;
      tail ← call LoadTail;
      next ← call (LoadNext (deref tail));
      tail' ← call LoadTail;
      if bool_decide (tail ≠ tail') then back fuel out else
      if bool_decide (handle next ≠ None) then
        call (CasTail (retag next (nextTag tail)) tail);;
        back fuel out
      else
      (* check if queue is empty *)
      if bool_decide (handle head = handle tail) then Ret false else
      v ← call (LoadVal (deref tail));
      call (WriteOut out v);;
      head' ← call LoadHead;
      if bool_decide (head = head') then
        tail' ← call LoadTail;
        if bool_decide (tail = tail') then Ret true else back fuel out
      else back fuel out
  end.

End Queue.

(** The rest of Queue.h. *)

Module QueueOps.
Import Queue.

(** [clear()]: [while (pop());]; [n] bounds the loop of each [pop]. *)
Fixpoint clear (fuel : nat) (n : nat) : M unit :=
  match fuel with
  | O => Spin
  | S fuel => b ← pop n None; if b : bool then clear fuel n else Ret ()
  end.

(** [empty()]: [!_size] *)
Definition empty : M bool := s ← call LoadSize; Ret (s =? 0).

(** [size()] *)
Definition size : M Z := call LoadSize.

(** [~Queue()]: [clear(); _freeList.destroy(_freeList.deref(_head))] *)
Definition Queue_delete (fuel : nat) (n : nat) : M unit :=
  clear fuel n;;
  head ← call LoadHead;
  call (Destroy (deref head)).

End QueueOps.

(** ** SpscDeque.h *)

Module SpscDeque.

(** [szt] and [sdt] arithmetic *)
Definition szt (z : Z) : Z := z `mod` 2 ^ 64.
Definition sdt (z : Z) : Z := wrap 64 z.

(** The deque; a slot of [_data] holds an element or is raw memory.
    [allocs] counts the calls of [_alloc.allocate]. *)
Record SpscDeque := mkDeque {
  _data : list (option Z);
  _capacity : Z;
  _size : Z;
  _head : Z;
  _tail : Z;
  allocs : nat
}.

Definition ringIndex (d : SpscDeque) (index : Z) : Z := index `mod` _capacity d.
Definition ringInc (d : SpscDeque) (index : Z) : Z :=
  if szt (_capacity d - 1) <=? index then 0 else szt (index + 1).
Definition ringDec (d : SpscDeque) (index : Z) : Z :=
  if index =? 0 then szt (_capacity d - 1) else szt (index - 1).

(** [_alloc.construct(_data + i, v)] and [_alloc.destroy(_data + i)] *)
Definition construct_at (i : Z) (v : Z) (data : list (option Z)) : list (option Z) :=
  <[Z.to_nat i := Some v]> data.
Definition destroy_at (i : Z) (data : list (option Z)) : list (option Z) :=
  <[Z.to_nat i := None]> data.

(** [std::copy(src + first, src + last, dst + out)] *)
Fixpoint copy_n (n : nat) (src : list (option Z)) (first : nat)
    (dst : list (option Z)) (out : nat) : list (option Z) :=
  match n with
  | O => dst
  | S n => copy_n n src (S first) (<[out := default None (src !! first)]> dst) (S out)
  end.
Definition copy (src : list (option Z)) (first last : Z)
    (dst : list (option Z)) (out : Z) : list (option Z) :=
  copy_n (Z.to_nat (last - first)) src (Z.to_nat first) dst (Z.to_nat out).

(** [for (sdt i = 0; i < dif; ++i) body(i)] on the array *)
Fixpoint for_i (n : nat) (i : Z) (body : Z → list (option Z) → list (option Z))
    (data : list (option Z)) : list (option Z) :=
  match n with
  | O => data
  | S n => for_i n (i + 1) body (body i data)
  end.

Definition setCapacity (capacity : Z) (d : SpscDeque) : SpscDeque :=
  if capacity =? _capacity d then d else
  (* Get size (active element count) of new array, may be smaller than old *)
  let size := if capacity <? _size d then capacity else _size d in
  (* Alloc new array *)
  let data :=
    if 0 <? capacity then
      let data := replicate (Z.to_nat capacity) None in
      (* Copy active elements to new array (new head is at 0) *)
      if 0 <? _size d then
        let copyTail := ringIndex d (szt (_head d + size)) in
        if _head d <? copyTail then
          (* Contiguous region *)
          copy (_data d) (_head d) copyTail data 0
        else
          (* Split region, loops around end *)
          copy (_data d) 0 copyTail
            (copy (_data d) (_head d) (_capacity d) data 0)
            (szt (_capacity d - _head d))
      else data
    else [] in
  mkDeque data capacity size 0 size
    (if 0 <? capacity then S (allocs d) else allocs d).

(** Ensure that enough storage is allocated for a number of elements *)
Definition reserve (capacity : Z) (d : SpscDeque) : SpscDeque :=
  if _capacity d <? capacity then setCapacity capacity d else d.

(** [SpscDeque(szt capacity)] *)
Definition SpscDeque_new (capacity : Z) : SpscDeque :=
  reserve capacity (mkDeque [] 0 0 0 0 0).

(** Resize the deque to contain a number of elements *)
Definition resize (size : Z) (initVal : Z) (d : SpscDeque) : SpscDeque :=
  let d := setCapacity size d in
  (* Init new data *)
  let dif := sdt (_capacity d - _size d) in
  let data :=
    for_i (Z.to_nat dif) 0
      (λ i, construct_at (ringIndex d (szt (szt (_head d + _size d) + i))) initVal)
      (_data d) in
  mkDeque data (_capacity d) size (_head d) (_head d) (allocs d).

(** Expand 50% *)
Definition expand (d : SpscDeque) : SpscDeque :=
  setCapacity (szt (szt (_capacity d + _capacity d / 2) + 1)) d.

(** Insert new element constructed with [val] at the beginning of the list *)
Definition push_front (v : Z) (d : SpscDeque) : SpscDeque :=
  let d := if _size d =? _capacity d then expand d else d in
  let h := ringDec d (_head d) in
  mkDeque (construct_at h v (_data d)) (_capacity d) (szt (_size d + 1)) h
    (_tail d) (allocs d).

(** Add new element constructed with [val] onto the end of the list *)
Definition push_back (v : Z) (d : SpscDeque) : SpscDeque :=
  let d := if _size d =? _capacity d then expand d else d in
  mkDeque (construct_at (_tail d) v (_data d)) (_capacity d) (szt (_size d + 1))
    (_head d) (ringInc d (_tail d)) (allocs d).

(** Pop element from the beginning of the list and move it into [val];
    the second component is the value moved out. *)
Definition pop_front (d : SpscDeque) : bool * option Z * SpscDeque :=
  if _size d =? 0 then (false, None, d) else
  (true, default None (_data d !! Z.to_nat (_head d)),
   mkDeque (destroy_at (_head d) (_data d)) (_capacity d) (szt (_size d - 1))
     (ringInc d (_head d)) (_tail d) (allocs d)).

(** Pop element from the end of the list and move it into [val]. *)
Definition pop_back (d : SpscDeque) : bool * option Z * SpscDeque :=
  if _size d =? 0 then (false, None, d) else
  let t := ringDec d (_tail d) in
  (true, default None (_data d !! Z.to_nat t),
   mkDeque (destroy_at t (_data d)) (_capacity d) (szt (_size d - 1))
     (_head d) t (allocs d)).

(** The elements from head to tail. *)
Definition elements (d : SpscDeque) : list (option Z) :=
  (λ i, default None (_data d !! Z.to_nat (ringIndex d (_head d + Z.of_nat i))))
    <$> seq 0 (Z.to_nat (_size d)).

End SpscDeque.

(** * Conditions, events and scenarios of the properties *)

(** ** Events of a path and marks of the list *)

Module Events.
Import Heap Atomic HazardMem.

(** A node address: the low bit is free for the delete mark. *)
Definition aligned (p : Z) : Prop := Z.land p d_mask = 0.

(** The events the properties below count. *)

(** A write that could clear the delete mark of a [next] link: a store of
    an unmarked link, a CAS from a marked to an unmarked link, or the
    construction of a node in the slot. *)
Definition clears_mark (e : Event Op) : bool :=
  match e with
  | Ev o _ =>
      match o with
      | Construct => true
      | StoreLink (LNext _) v => negb (Link_d v)
      | CasLink (LNext _) val old => Link_d old && negb (Link_d val)
      | _ => false
      end
  end.

(** A write of a caller's output variable. *)
Definition is_write (e : Event Op) : bool :=
  match e with
  | Ev o _ => match o with WriteOut _ _ => true | _ => false end
  end.

(** A decrement of [_size]. *)
Definition is_dec (e : Event Op) : bool :=
  match e with
  | Ev o _ => match o with AddSize d => d =? -1 | _ => false end
  end.

(** A call of [operator++]. *)
Definition is_inc (e : Event Op) : bool :=
  match e with
  | Ev o _ => match o with Log (CIterInc _) => true | _ => false end
  end.

(** The call of [operator++] on an iterator at [cur]. *)
Definition incs (cur : Z) (e : Event Op) : bool :=
  match e with
  | Ev o _ => match o with Log (CIterInc c) => bool_decide (c = cur) | _ => false end
  end.

(** The CAS that marks the [next] link of [node], when it succeeds. *)
Definition win (node : Z) (e : Event Op) : bool :=
  match e with
  | Ev o b =>
      match o in Op B return B → bool with
      | CasLink (LNext x) val old =>
          λ ok, ok && bool_decide (x = node) && Link_d val && negb (Link_d old)
      | _ => λ _, false
      end b
  end.

(** A read of the [next] link of [node] that finds it marked. *)
Definition saw_marked (node : Z) (e : Event Op) : bool :=
  match e with
  | Ev o b =>
      match o in Op B return B → bool with
      | LoadLink (LNext x) => λ data, bool_decide (x = node) && Link_d data
      | _ => λ _, false
      end b
  end.

(** A write of the output variable [x]. *)
Definition wrote (x : nat) (e : Event Op) : bool :=
  match e with
  | Ev o _ => match o with WriteOut r _ => bool_decide (r = x) | _ => false end
  end.

Definition notable (e : Event Op) : bool :=
  clears_mark e || is_write e || is_dec e || is_inc e.

(** The CAS of [casRef] and the store of [storeRef] do not clear the
    delete mark of a [next] link. *)
Definition keeps_mark (link : LinkAddr) (val old : Z) : Prop :=
  match link with
  | LNext _ => Link_d old && negb (Link_d val) = false
  | _ => True
  end.

(** The [next] link of [node] carries the delete mark. *)
Definition marked (m : Mem) (node : Z) : Prop :=
  Link_d (load_link m (LNext node)) = true.

(** The number of winning CASes on [node] in the logs of a pool. *)
Definition wins (node : Z) (logs : list (list (Event Op))) : nat :=
  sum_list (cnt (win node) <$> logs).

(** At most one CAS wins [node], and once it is won it stays marked. *)
Definition won_once (node : Z) (m : Mem) (logs : list (list (Event Op))) : Prop :=
  (wins node logs ≤ 1)%nat ∧ ((1 ≤ wins node logs)%nat → marked m node).

(** The operations on links and on the counts of the nodes they point to. *)
Definition on_links {B} (o : Op B) : bool :=
  match o with
  | LoadLink _ | StoreLink _ _ | CasLink _ _ _ | AddRef _ _ | StoreTrace _ _ => true
  | _ => false
  end.

(** A program of such operations that returns on every path. *)
Fixpoint links_only {A} (p : M A) : Prop :=
  match p with
  | Ret _ => True
  | Abort | Spin => False
  | Vis o k => on_links o = true ∧ ∀ b, links_only (k b)
  end.

End Events.

(** ** Conditions of the reclamation scan *)

Module Reclaim.
Import Heap Atomic HazardMem.

Section Reclaim.
Context `{Config}.
Variable threadMax : Z.

(** The condition of the third loop of [scan] on the node of an entry. *)
Definition reclaimable (m : Mem) (td : nat) (node : Z) : Prop :=
  n_ref (node_at m node) = 0 ∧ n_trace (node_at m node) = true ∧
  node ∉ td_delHazards (td_at m td).

(** What [scan] needs of the [terminateNode] callback of the container:
    it returns, and it works on the links and reference counts of nodes
    only. *)
Definition terminate_frame (terminateNode : Z → bool → M unit) : Prop :=
  ∀ tid node concurrent m,
    ∃ m', run (exec threadMax) tid (terminateNode node concurrent) m = (m', Done ()) ∧
          threads m' = threads m ∧ pools m' = pools m ∧ calls m' = calls m ∧
          ∀ p, n_threadId (node_at m' p) = n_threadId (node_at m p).

End Reclaim.

End Reclaim.

(** ** Calls of the list that run together *)

Module ListCalls.
Import Heap Atomic HazardMem LockFreeList.

(** A call of a client of the list: the calls that take an element out. *)
Inductive ListCall : Type :=
| call_erase (it : Z) (data : option nat)
| call_pop_front (data : option nat)
| call_pop_back (data : option nat).

Section Calls.
Variable iterMax : Z.
Variable threadMax : Z.
Variable N : nat.

(** The call as a program; its result is the [bool] the call returns. *)
Definition prog (c : ListCall) : M bool :=
  match c with
  | call_erase it data => r ← erase iterMax threadMax N it data; Ret r.1
  | call_pop_front data => pop_front iterMax threadMax N data
  | call_pop_back data => pop_back iterMax threadMax N data
  end.

(** The pool of the calls [calls], thread [i] making the [i]-th call,
    under the schedule [sched] from the memory [m]. *)
Definition pool (calls : list ListCall) (sched : list nat) (m : Mem) :
    Mem * list (M bool) * list (list (Event Op)) :=
  interleave (exec (H := cfg iterMax) threadMax) sched (prog <$> calls)
    (start (prog <$> calls)) m.

End Calls.

End ListCalls.

(** ** Concrete memories and schedules *)

Module Runs.
Import Heap Atomic HazardMem LockFreeList ListCalls.

(** A list of one element, with the defaults [iterMax = 2] and
    [threadMax = 8]: thread 0 constructs it and pushes 5. *)
Definition ex := exec (H := ListConfig 2) 8.
Definition empty_list : Mem := (run ex 0 (List_new 2) Mem_new).1.
Definition one_element : Mem := (run ex 0 (push_back 2 10 5) empty_list).1.
(** Thread 0 has popped the element, node 6. *)
Definition popped : Mem := (run ex 0 (pop_front 2 8 10 None) one_element).1.

(** An iterator at the element, then [pop_front], then [erase]:
    thread 0 takes an iterator at the element, node 6, and pops the
    element. *)
Definition iterator_taken : Mem := (run ex 0 (begin 2 10) one_element).1.
Definition element_popped : Mem :=
  (run ex 0 (pop_front 2 8 10 None) iterator_taken).1.

(** Two calls of [erase] on the element: thread 1 takes an iterator at
    the element too; the two threads then call [erase], taking their
    steps in turn. *)
Definition two_iterators : Mem := (run ex 1 (begin 2 10) iterator_taken).1.
Definition two_erases : Mem * list (M bool) * list (list (Event Op)) :=
  pool 2 8 10 [call_erase 6 (Some 0%nat); call_erase 6 (Some 1%nat)]
    (concat (replicate 120 [0%nat; 1%nat])) two_iterators.

(** Two calls of [pop_front] on the list of one element: thread 1 runs
    up to its CAS that marks node 6, thread 0 then runs its call, thread 1
    finishes. *)
Definition two_pops : Mem * list (M bool) * list (list (Event Op)) :=
  pool 2 8 10 [call_pop_front (Some 0%nat); call_pop_front None]
    (replicate 27 1%nat ++ replicate 61 0%nat ++ replicate 48 1%nat) one_element.

(** The first iteration of the loop of [pop_front] up to its comparison of
    [node] with the tail. *)
Definition first_observation : M (Z * Z) :=
  prev ← deRefLink (H := ListConfig 2) 10 LHead; pop_front_observe 2 10 prev.

End Runs.

Module QueueRuns.
Import Queue.

(** A queue that holds 7, and two calls of [pop]: thread 0 copies the
    value into its output and stops before its CAS, thread 1 pops the
    element, thread 0 goes on. *)
Definition holds_7 : Mem := (run exec 0 (push 5 7) Queue_new).1.
Definition two_pops : Mem * list (M bool) * list (list (Event Op)) :=
  interleave exec (replicate 6 0%nat ++ replicate 7 1%nat ++ replicate 6 0%nat)
    [pop 5 (Some 0%nat); pop 5 None] (start [pop 5 (Some 0%nat); pop 5 None]) holds_7.

End QueueRuns.

Module DequeRuns.
Import SpscDeque.

(** A deque of capacity 3 that holds the one element 2 at index 1. *)
Definition shifted : SpscDeque :=
  (pop_front (push_back 2 (push_back 1 (SpscDeque_new 3)))).2.

End DequeRuns.

(** ** States, events and schedules of the deque, the queue and the
    memory manager *)

Module DequeInv.
Import SpscDeque.

(** The state of a deque between calls: the array has [_capacity] slots,
    the [_size] elements start at [_head] and go round the ring, [_tail]
    is the slot after the last one. *)
Record wf (d : SpscDeque) : Prop := mkWf {
  wf_cap : 0 ≤ _capacity d < 2 ^ 63;
  wf_len : length (_data d) = Z.to_nat (_capacity d);
  wf_size : 0 ≤ _size d ≤ _capacity d;
  wf_head : 0 ≤ _head d ∧ (_head d < _capacity d ∨ _capacity d = 0 ∧ _head d = 0);
  wf_tail : _tail d = if _capacity d =? 0 then 0 else (_head d + _size d) `mod` _capacity d
}.

(** The capacity [expand] asks for fits a [szt]. *)
Definition can_grow (d : SpscDeque) : Prop :=
  _capacity d + _capacity d / 2 + 1 < 2 ^ 63.

(** The deque a push works on, after the expansion of a full deque. *)
Definition room (d : SpscDeque) : SpscDeque :=
  if _size d =? _capacity d then expand d else d.

(** A deque of capacity 3 that holds 1 and 2. *)
Definition holds_1_2 : SpscDeque := push_back 2 (push_back 1 (SpscDeque_new 3)).

End DequeInv.

Module QueueInv.
Import Queue.

(** The nodes [ns] follow the node [h] through the [next] handles and hold
    the values [vs]; the last one has a nil [next]. *)
Fixpoint chain (m : Mem) (h : nat) (ns : list nat) (vs : list Z) : Prop :=
  match ns, vs with
  | [], [] => handle (next (slot_at m h)) = None
  | n :: ns, v :: vs =>
      handle (next (slot_at m h)) = Some n ∧ val (slot_at m n) = v ∧ chain m n ns vs
  | _, _ => False
  end.

(** A queue at rest: [_head] is at the dummy node [h], the nodes [ns] after
    it hold the values [vs], [_tail] is at the last node; the nodes of the
    queue and the recycled slots of the free list are distinct and are the
    slots handed out so far, and [_size] is the number of values, as a
    [szt]. *)
Definition queue_is (m : Mem) (h : nat) (ns : list nat) (vs : list Z) : Prop :=
  handle (_head m) = Some h ∧
  handle (_tail m) = last (h :: ns) ∧
  chain m h ns vs ∧
  NoDup ((h :: ns) ++ free m) ∧
  (∀ x, x ∈ (h :: ns) ++ free m ↔ (x < fresh m)%nat) ∧
  _size m = Z.of_nat (length vs) `mod` 2 ^ 64.

End QueueInv.

Module QueueEvents.
Import Queue.

(** The events of the queue the properties below count. *)

(** An allocation of a node. *)
Definition constructs (e : Event Op) : bool :=
  match e with
  | Ev o _ => match o with Construct _ => true | _ => false end
  end.

(** A node given back to the free list. *)
Definition destroys (e : Event Op) : bool :=
  match e with
  | Ev o _ => match o with Destroy _ => true | _ => false end
  end.

(** A CAS on the [next] of a node that succeeds: a node is linked. *)
Definition links (e : Event Op) : bool :=
  match e with
  | Ev o b =>
      match o in Op B return B → bool with
      | CasNext _ _ _ => λ ok, ok
      | _ => λ _, false
      end b
  end.

(** A CAS on [_head] that succeeds: an element is taken. *)
Definition moves_head (e : Event Op) : bool :=
  match e with
  | Ev o b =>
      match o in Op B return B → bool with
      | CasHead _ _ => λ ok, ok
      | _ => λ _, false
      end b
  end.

(** A change of [_size], and a change by [d]. *)
Definition resizes (e : Event Op) : bool :=
  match e with
  | Ev o _ => match o with AddSize _ => true | _ => false end
  end.

Definition adds (d : Z) (e : Event Op) : bool :=
  match e with
  | Ev o _ => match o with AddSize d' => d' =? d | _ => false end
  end.

(** A write of a caller's output variable. *)
Definition writes (e : Event Op) : bool :=
  match e with
  | Ev o _ => match o with WriteOut _ _ => true | _ => false end
  end.

(** A CAS, whatever its answer, on [_head], on the [next] of a node, on
    [_tail]. *)
Definition cas_head (e : Event Op) : bool :=
  match e with
  | Ev o _ => match o with CasHead _ _ => true | _ => false end
  end.

Definition cas_next (e : Event Op) : bool :=
  match e with
  | Ev o _ => match o with CasNext _ _ _ => true | _ => false end
  end.

Definition cas_tail (e : Event Op) : bool :=
  match e with
  | Ev o _ => match o with CasTail _ _ => true | _ => false end
  end.

(** An operation that changes the elements of the queue, their number or
    the free list. *)
Definition modifies (e : Event Op) : bool :=
  constructs e || destroys e || resizes e || cas_head e || cas_next e.

(** A CAS whose new value does not carry the tag after the tag of the
    value it expects. *)
Definition stale_tag (e : Event Op) : bool :=
  match e with
  | Ev o _ =>
      match o with
      | CasHead val old | CasTail val old | CasNext _ val old =>
          negb (tag val =? nextTag old)
      | _ => false
      end
  end.

(** What the loop of [push], the loop of [pop] and [front] never do. *)
Definition push_loop_never (e : Event Op) : bool :=
  constructs e || destroys e || resizes e || cas_head e || writes e.

Definition pop_loop_never (e : Event Op) : bool :=
  constructs e || destroys e || resizes e || cas_next e.

Definition front_never (e : Event Op) : bool := modifies e || cas_tail e.

(** The sum of the changes of [_size] in a trace. *)
Fixpoint net (tr : list (Event Op)) : Z :=
  match tr with
  | [] => 0
  | Ev o _ :: tr => match o with AddSize d => d | _ => 0 end + net tr
  end.

(** The sum of the changes of [_size] in the logs of a pool. *)
Definition total (logs : list (list (Event Op))) : Z := foldr Z.add 0 (net <$> logs).

(** One event for a call that has returned true, none for false. *)
Definition once (b : bool) : nat := if b then 1%nat else 0%nat.

End QueueEvents.

Module QueueCalls.
Import Queue QueueEvents.

(** A call of a client of the queue. *)
Inductive QueueCall : Type :=
| call_push (v : Z)
| call_pop (out : option nat)
| call_front (out : nat)
| call_back (out : nat).

(** The call as a program; [push] returns nothing, which counts as
    [true]. *)
Definition prog (fuel : nat) (c : QueueCall) : M bool :=
  match c with
  | call_push v => push fuel v;; Ret true
  | call_pop out => pop fuel out
  | call_front out => front fuel out
  | call_back out => back fuel out
  end.

(** What a call that has returned [b] has added to the number of
    elements. *)
Definition delta (c : QueueCall) (b : bool) : Z :=
  match c with
  | call_push _ => 1
  | call_pop _ => if b then -1 else 0
  | _ => 0
  end.

(** What the calls [calls] that have returned [bs] have added. *)
Definition deltas (calls : list QueueCall) (bs : list bool) : Z :=
  foldr Z.add 0 (zip_with delta calls bs).

(** The pool of the calls [calls], thread [i] making the [i]-th call,
    under the schedule [sched] from the memory [m]. *)
Definition pool (fuel : nat) (calls : list QueueCall) (sched : list nat) (m : Mem) :
    Mem * list (M bool) * list (list (Event Op)) :=
  interleave exec sched (prog fuel <$> calls) (start (prog fuel <$> calls)) m.

End QueueCalls.

Module QueueSchedules.
Import Queue QueueCalls.

(** Two calls of [push] and a call of [pop] on a new queue whose steps
    are mixed, until all three have returned. *)
Definition three_calls : list QueueCall := [call_push 7; call_pop None; call_push 8].
Definition mixed : list nat :=
  [0; 0; 0; 2; 2; 2; 0; 2; 1; 0; 1; 2; 0; 1; 2; 0; 1; 2; 1; 2; 1; 2; 1; 2]%nat
  ++ replicate 13 1%nat ++ replicate 5 2%nat ++ replicate 3 0%nat.

End QueueSchedules.

Module HazardRuns.
Import Heap Atomic HazardMem Runs.

(** Thread 0 of the empty list has taken a reference to seven nodes: its
    seven hazard indices are in use. *)
Definition exhausted : Mem :=
  (run ex 0 (for_each [10; 12; 14; 16; 18; 20; 22] ref) empty_list).1.

End HazardRuns.

Module Registry.
Import Heap.

(** The registered threads: each is listed once in [_threadDataList] and
    has its [ThreadData], and there are at most [threadMax] of them. *)
Definition registered (threadMax : Z) (m : Mem) : Prop :=
  NoDup (threadDataList m) ∧
  (∀ t, t ∈ threadDataList m → is_Some (threads m !! t)) ∧
  Z.of_nat (length (threadDataList m)) ≤ threadMax.

End Registry.

(** ** The data of the calling thread *)

Module Threads.
Import Heap Atomic.

Section Data.
Context `{Config}.
Variable threadMax : Z.

(** The [ThreadData] that [threadData()] gives the thread [tid] in the
    memory [m]: its own, or a new one when the call registers the thread;
    none when the assertion of [initThreadData] fails. *)
Definition threadData_of (tid : nat) (m : Mem) : option ThreadData :=
  match initThreadData threadMax tid m with
  | (m', Some td) => Some (td_at m' td)
  | (_, None) => None
  end.

End Data.
End Threads.

Module ThreadRuns.
Import Heap Atomic HazardMem Runs.

(** The empty list after the threads 1 to 7 have called into the memory
    manager: with thread 0, which built the list, the [threadMax = 8]
    threads are registered. *)
Definition crowded : Mem :=
  foldl (λ m t, (run ex t threadData m).1) empty_list (seq 1 7).

End ThreadRuns.

(** ** The phases of the reclamation scan *)

Module ScanPhases.
Import Heap Atomic HazardMem Reclaim.

Section Phases.
Context `{Config}.

(** The nodes of the entries of a chain of deleted nodes. *)
Definition chain_nodes (m : Mem) (td : nat) (chain : list nat) : list Z :=
  (λ e, dn_node (entry_at m td e)) <$> chain.

(** A pointer that some registered thread holds in one of its hazard
    slots. *)
Definition published (m : Mem) (p : Z) : Prop :=
  p ≠ nil ∧ ∃ t i, t ∈ threadDataList m ∧ (i < Z.to_nat hazardMax)%nat ∧
                   td_hazards (td_at m t) !! i = Some p.

(** What the second loop writes: the set of hazards of the scanning
    thread, and nothing else. *)
Definition flagged (td : nat) (m m' : Mem) : Prop :=
  m' = m ∨ ∃ D, m' = upd_td td (with_delHazards (λ _, D)) m.

(** What the third loop of [scan] does with the entry [e] of the thread
    [td], from the memory [m] to the memory [m']; [r] is the entry when it
    is queued again.  In the words of the specification: the node of the
    entry is reclaimed (terminated, the entry freed, the node returned to
    the pool of its origin thread) when it is [reclaimable] and the claim
    of the entry is 0; it is terminated as concurrent, the entry marked
    done and queued again, when it is reclaimable and the claim is not 0;
    the entry is queued again unchanged otherwise.  The set of hazards, the
    chain and the other entries are left as they are. *)
Definition visited (td e : nat) (m m' : Mem) (r : option nat) : Prop :=
  let node := dn_node (entry_at m td e) in
  let claim := dn_claim (entry_at m td e) in
  let origin := n_threadId (node_at m node) in
  (reclaimable m td node ∧ claim = 0 →
     r = None ∧
     calls m' = calls m ++ [CTerminate node false; CDestruct node] ∧
     td_delNodeFreeList (td_at m' td) = td_delNodeFreeList (td_at m td) ++ [e] ∧
     pools m' !! origin = Some (node :: default [] (pools m !! origin)) ∧
     dn_node (entry_at m' td e) = nil) ∧
  (reclaimable m td node ∧ claim ≠ 0 →
     r = Some e ∧
     calls m' = calls m ++ [CTerminate node true] ∧
     entry_at m' td e = mkDelNode node claim true ∧
     td_delNodeFreeList (td_at m' td) = td_delNodeFreeList (td_at m td) ∧
     pools m' = pools m) ∧
  (¬ reclaimable m td node → r = Some e ∧ m' = m) ∧
  td_delHazards (td_at m' td) = td_delHazards (td_at m td) ∧
  td_delHead (td_at m' td) = td_delHead (td_at m td) ∧
  (∀ e', e' ≠ e → entry_at m' td e' = entry_at m td e').

(** The third loop of [scan] on a chain: every entry is taken off the chain
    and visited once, in the order of the chain, each in the memory that
    the visits before it have left; the entries queued again are put, one
    on top of the other, on [keep]. *)
Inductive walk (td : nat) : list nat → Mem → list nat → Mem → list nat → Prop :=
| walk_end m keep : walk td [] m keep m keep
| walk_visit e rest m m1 r keep m' keep' :
    visited td e (upd_td td (with_delHead (λ _, rest)) m) m1 r →
    walk td rest m1 (match r with Some e' => e' :: keep | None => keep end) m' keep' →
    walk td (e :: rest) m keep m' keep'.

End Phases.
End ScanPhases.

(** * Properties *)

(** ** Machine integers *)

Lemma wrap_id bits z :
  0 < bits → - 2 ^ (bits - 1) ≤ z < 2 ^ (bits - 1) → wrap bits z = z.
Proof.
  intros Hb Hz. unfold wrap.
  assert (2 ^ bits = 2 * 2 ^ (bits - 1)) as ->.
  { rewrite <- Z.pow_succ_r by lia. f_equal. lia. }
  rewrite Z.mod_small by lia. lia.
Qed.

Lemma int32_id z : int_min ≤ z ≤ int_max → int32 z = z.
Proof. unfold int_min, int_max. intros. apply wrap_id; simpl; lia. Qed.

Lemma int8_id z : -128 ≤ z ≤ 127 → int8 z = z.
Proof. intros. apply wrap_id; simpl; lia. Qed.

(** ** Paths and runs of programs *)

Section ProgFacts.
Context {Op : Type → Type}.

(** The paths of [bind p f]: a path of [p] that returns, followed by a path
    of the continuation, or a path of [p] that does not return. *)
Lemma Path_bind {A B} (p : Prog Op A) (f : A → Prog Op B) tr r :
  Path (bind p f) tr r ↔
  (∃ tr1 a tr2, Path p tr1 (Done a) ∧ Path (f a) tr2 r ∧ tr = tr1 ++ tr2) ∨
  (Path p tr Aborted ∧ r = Aborted) ∨
  (Path p tr Spinning ∧ r = Spinning).
Proof.
  revert tr. induction p as [a| | |B' o k IH]; intros tr; simpl.
  - split.
    + intros Hp. left. by exists [], a, tr.
    + intros [(tr1 & a' & tr2 & [-> [= ->]] & Hf & ->)|[[[_ [=]] _]|[[_ [=]] _]]]. done.
  - split.
    + intros [-> ->]. right. by left.
    + intros [(tr1 & a' & tr2 & [_ [=]] & _)|[[[-> _] ->]|[[_ [=]] _]]]. done.
  - split.
    + intros [-> ->]. right. by right.
    + intros [(tr1 & a' & tr2 & [_ [=]] & _)|[[[_ [=]] _]|[[-> _] ->]]]. done.
  - split.
    + intros (b & tr' & -> & Hp). apply IH in Hp.
      destruct Hp as [(tr1 & a & tr2 & H1 & H2 & ->)|[[H1 ->]|[H1 ->]]].
      * left. exists (Ev o b :: tr1), a, tr2. split; [|done]. by exists b, tr1.
      * right. left. split; [|done]. by exists b, tr'.
      * right. right. split; [|done]. by exists b, tr'.
    + intros [(tr1 & a & tr2 & (b & tr' & -> & H1) & H2 & ->)
             |[[(b & tr' & -> & H1) ->]|[(b & tr' & -> & H1) ->]]];
        exists b; eexists; (split; [reflexivity|]); apply IH.
      * left. by exists tr', a, tr2.
      * right. by left.
      * right. by right.
Qed.

End ProgFacts.

Section SemFacts.
Context {Op : Type → Type} {St : Type}.
Variable exec : ∀ B, nat → Op B → St → St * B.

Lemma run_bind {A B} tid (p : Prog Op A) (f : A → Prog Op B) s :
  run exec tid (bind p f) s =
  match run exec tid p s with
  | (s', Done a) => run exec tid (f a) s'
  | (s', Aborted) => (s', Aborted)
  | (s', Spinning) => (s', Spinning)
  end.
Proof.
  revert s. induction p as [a| | |B' o k IH]; intros s; simpl; try done.
  destruct (exec B' tid o s) as [s' b]. apply IH.
Qed.

Lemma trace_bind {A B} tid (p : Prog Op A) (f : A → Prog Op B) s :
  trace exec tid (bind p f) s =
  trace exec tid p s ++
  match run exec tid p s with
  | (s', Done a) => trace exec tid (f a) s'
  | _ => []
  end.
Proof.
  revert s. induction p as [a| | |B' o k IH]; intros s; simpl; try done.
  destruct (exec B' tid o s) as [s' b]. simpl. f_equal. apply IH.
Qed.

(** A run is one of the paths. *)
Lemma run_Path {A} tid (p : Prog Op A) s :
  Path p (trace exec tid p s) (snd (run exec tid p s)).
Proof.
  revert s. induction p as [a| | |B' o k IH]; intros s; simpl; try done.
  destruct (exec B' tid o s) as [s' b] eqn:He. exists b. eexists. split; [done|]. apply IH.
Qed.

End SemFacts.

(** ** The operations on the paths of a program *)

Section QuietFacts.
Context {Op : Type → Type}.
Implicit Types f : Event Op → bool.

Lemma cnt_app f tr1 tr2 : cnt f (tr1 ++ tr2) = (cnt f tr1 + cnt f tr2)%nat.
Proof. induction tr1 as [|e tr1 IH]; simpl; [done|]. rewrite IH. lia. Qed.

Lemma cnt_le f g tr :
  (∀ e, g e = true → f e = true) → (cnt g tr ≤ cnt f tr)%nat.
Proof.
  intros Hfg. induction tr as [|e tr IH]; simpl; [done|].
  destruct (g e) eqn:Hg; [rewrite (Hfg e Hg)|destruct (f e)]; lia.
Qed.

Lemma quiet_ret {A} f (Q : A → Prop) a : Q a → quiet f Q (Ret a).
Proof. done. Qed.

Lemma quiet_abort {A} f (Q : A → Prop) : quiet f Q Abort.
Proof. done. Qed.

Lemma quiet_spin {A} f (Q : A → Prop) : quiet f Q Spin.
Proof. done. Qed.

Lemma quiet_vis {A B} f (Q : A → Prop) (o : Op B) (k : B → Prog Op A) :
  (∀ b, f (Ev o b) = false) → (∀ b, quiet f Q (k b)) → quiet f Q (Vis o k).
Proof. intros Hf Hk b. split; [apply Hf|apply Hk]. Qed.

Lemma quiet_bind {A B} f (Q : A → Prop) (R : B → Prop) (p : Prog Op A) (k : A → Prog Op B) :
  quiet f Q p → (∀ a, Q a → quiet f R (k a)) → quiet f R (bind p k).
Proof.
  intros Hp Hk. induction p as [a| | |B' o k' IH]; simpl in *; try done.
  - by apply Hk.
  - intros b. destruct (Hp b) as [Hf Hq]. split; [done|]. by apply IH.
Qed.

Lemma quiet_weaken {A} f g (Q R : A → Prop) (p : Prog Op A) :
  (∀ e, g e = true → f e = true) → (∀ a, Q a → R a) →
  quiet f Q p → quiet g R p.
Proof.
  intros Hfg HQR. induction p as [a| | |B' o k IH]; simpl; try done.
  - apply HQR.
  - intros Hp b. destruct (Hp b) as [Hf Hq]. split; [|by apply IH].
    destruct (g (Ev o b)) eqn:Hg; [|done]. by rewrite (Hfg _ Hg) in Hf.
Qed.

(** On the paths of a quiet program. *)
Lemma quiet_Path {A} f (Q : A → Prop) (p : Prog Op A) tr r :
  quiet f Q p → Path p tr r → cnt f tr = 0%nat ∧ ∀ a, r = Done a → Q a.
Proof.
  revert tr. induction p as [a| | |B' o k IH]; simpl; intros tr Hq.
  - intros [-> ->]. split; [done|]. by intros ? [= <-].
  - by intros [-> ->].
  - by intros [-> ->].
  - intros (b & tr' & -> & Hp). destruct (Hq b) as [Hf Hk]. simpl. rewrite Hf.
    by apply (IH b).
Qed.

Lemma post_ret {A} f (R : A → nat → Prop) a : R a 0%nat → post f R (Ret a).
Proof. intros HR tr a' [-> [= <-]]. done. Qed.

Lemma post_abort {A} f (R : A → nat → Prop) : post f R Abort.
Proof. by intros tr a [_ [=]]. Qed.

Lemma post_spin {A} f (R : A → nat → Prop) : post f R Spin.
Proof. by intros tr a [_ [=]]. Qed.

Lemma post_vis {A B} f (R : A → nat → Prop) (o : Op B) (k : B → Prog Op A) :
  (∀ b, post f (λ a n, R a ((if f (Ev o b) then 1 else 0) + n)%nat) (k b)) →
  post f R (Vis o k).
Proof. intros Hk tr a (b & tr' & -> & Hp). simpl. by apply Hk in Hp. Qed.

Lemma post_bind {A B} f (R1 : A → nat → Prop) (R : B → nat → Prop)
    (p : Prog Op A) (k : A → Prog Op B) :
  post f R1 p →
  (∀ a n1, R1 a n1 → post f (λ b n2, R b (n1 + n2)%nat) (k a)) →
  post f R (bind p k).
Proof.
  intros Hp Hk tr b [(tr1 & a & tr2 & H1 & H2 & ->)|[[_ [=]]|[_ [=]]]]%Path_bind.
  rewrite cnt_app. apply (Hk a _ (Hp _ _ H1)), H2.
Qed.

Lemma post_quiet {A} f (Q : A → Prop) (p : Prog Op A) :
  quiet f Q p → post f (λ a n, n = 0%nat ∧ Q a) p.
Proof.
  intros Hq tr a Hp. destruct (quiet_Path _ _ _ _ _ Hq Hp) as [Hc HQ]. auto.
Qed.

Lemma post_any {A} f (p : Prog Op A) : post f (λ _ _, True) p.
Proof. by intros tr a _. Qed.

Lemma post_weaken {A} f (R R' : A → nat → Prop) (p : Prog Op A) :
  (∀ a n, R a n → R' a n) → post f R p → post f R' p.
Proof. intros HR Hp tr a Hpath. apply HR, Hp, Hpath. Qed.

(** The results of a quiet program, whatever is counted. *)
Lemma post_result {A} f g (Q : A → Prop) (p : Prog Op A) :
  quiet g Q p → post f (λ a _, Q a) p.
Proof.
  intros Hq tr a Hp. destruct (quiet_Path _ _ _ _ _ Hq Hp) as [_ HQ]. auto.
Qed.

End QuietFacts.

(** ** The logs of a pool *)

Section PoolFacts.
Context {Op : Type → Type} {St A : Type}.
Variable exec : ∀ B, nat → Op B → St → St * B.
Implicit Types (p : Prog Op A) (ps : list (Prog Op A)) (logs : list (list (Event Op))).

Lemma logged_start ps : logged ps ps (start ps).
Proof.
  intros i p Hi. exists p, []. split; [done|]. split.
  - unfold start. apply lookup_replicate_2. by eapply lookup_lt_Some.
  - by intros tr r.
Qed.

Lemma interleave_logged sched ps0 ps logs s :
  logged ps0 ps logs →
  logged ps0 (interleave exec sched ps logs s).1.2 (interleave exec sched ps logs s).2.
Proof.
  revert ps logs s. induction sched as [|t sched IH]; intros ps logs s Hl; [done|].
  cbn [interleave]. destruct (ps !! t) as [[a| | |B o k]|] eqn:Ht; try by apply IH.
  destruct (exec B t o s) as [s' b] eqn:He. apply IH.
  intros i p Hi. destruct (decide (i = t)) as [->|Hne].
  - rewrite list_lookup_insert_eq in Hi by (by eapply lookup_lt_Some).
    injection Hi as <-.
    destruct (Hl t _ Ht) as (p0 & log & H0 & Hlog & Hres).
    exists p0, (log ++ [Ev o b]). split; [done|]. split.
    + rewrite list_lookup_alter_eq, Hlog. done.
    + intros tr r Hp. rewrite <- app_assoc. apply Hres. simpl. by exists b, tr.
  - rewrite list_lookup_insert_ne in Hi by done.
    destruct (Hl i _ Hi) as (p0 & log & H0 & Hlog & Hres).
    exists p0, log. split; [done|]. split; [|done].
    by rewrite list_lookup_alter_ne.
Qed.

Lemma interleave_length sched ps logs s :
  length (interleave exec sched ps logs s).1.2 = length ps.
Proof.
  revert ps logs s. induction sched as [|t sched IH]; intros ps logs s; [done|].
  cbn [interleave]. destruct (ps !! t) as [[a| | |B o k]|] eqn:Ht; try by apply IH.
  destruct (exec B t o s) as [s' b]. by rewrite IH, length_insert.
Qed.

(** The log of a thread that has returned is a path of its program. *)
Lemma interleave_returned sched ps s i a :
  (interleave exec sched ps (start ps) s).1.2 !! i = Some (Ret a) →
  ∃ p0 log, ps !! i = Some p0 ∧
    (interleave exec sched ps (start ps) s).2 !! i = Some log ∧
    Path p0 log (Done a).
Proof.
  intros Hi.
  destruct (interleave_logged sched ps ps (start ps) s (logged_start ps) i _ Hi)
    as (p0 & log & H0 & Hlog & Hres).
  exists p0, log. split; [done|]. split; [done|].
  rewrite <- (app_nil_r log). by apply Hres.
Qed.

End PoolFacts.

(** ** The thresholds of the memory manager *)

Module Thresholds.

(** C4.  The thresholds fixed by the constructor of [HazardMem]: for a
    configuration of non-negative constants whose products fit an [int],
    [threshClean = threadMax * (hazardMax + linkMax + linkDelMax + 1)] and
    [threshScan = min(hazardMax * 2, threshClean)]. *)
Theorem thresholds_at_construction `{Config} (threadMax : Z) :
  0 ≤ hazardMax ≤ 127 → 0 ≤ linkMax → 0 ≤ linkDelMax →
  hazardMax + linkMax + linkDelMax + 1 ≤ int_max →
  int_min ≤ threadMax * (hazardMax + linkMax + linkDelMax + 1) ≤ int_max →
  threshClean threadMax = threadMax * (hazardMax + linkMax + linkDelMax + 1) ∧
  threshScan threadMax = Z.min (hazardMax * 2) (threshClean threadMax).
Proof.
  intros Hh Hl Hd Hsum Hprod.
  assert (Hclean : threshClean threadMax
                   = threadMax * (hazardMax + linkMax + linkDelMax + 1)).
  { unfold threshClean.
    rewrite (int32_id (hazardMax + linkMax)) by (unfold int_min, int_max in *; lia).
    rewrite (int32_id (hazardMax + linkMax + linkDelMax))
      by (unfold int_min, int_max in *; lia).
    rewrite (int32_id (hazardMax + linkMax + linkDelMax + 1))
      by (unfold int_min, int_max in *; lia).
    by rewrite int32_id. }
  split; [done|].
  unfold threshScan.
  rewrite (int32_id (hazardMax * 2)) by (unfold int_min, int_max; lia).
  destruct (Z.ltb_spec (hazardMax * 2) (threshClean threadMax)); lia.
Qed.

(** The thresholds of a [List<T>] with the default [iterMax = 2] and
    [threadMax = 8]. *)
Lemma thresholds_of_List :
  threshClean (H := ListConfig 2) 8 = 96 ∧ threshScan (H := ListConfig 2) 8 = 14.
Proof.
  pose proof (thresholds_at_construction (H := ListConfig 2) 8) as Hthm.
  cbn in Hthm.
  destruct Hthm as [-> ->]; unfold int_min, int_max; try (vm_compute; done); lia.
Defined.

End Thresholds.

(** ** Reads after writes *)

Module HeapFacts.
Import Heap.

Lemma node_at_upd_node n f m p :
  node_at (upd_node n f m) p = if decide (p = n) then f (node_at m n) else node_at m p.
Proof.
  unfold node_at, upd_node; simpl.
  destruct (decide (p = n)) as [->|Hne].
  - by rewrite lookup_insert_eq.
  - by rewrite lookup_insert_ne.
Qed.

Lemma node_at_store_link l v m p :
  node_at (store_link l v m) p =
  match l with
  | LNext n => if decide (p = n) then with_next (λ _, v) (node_at m n) else node_at m p
  | LPrev n => if decide (p = n) then with_prev (λ _, v) (node_at m n) else node_at m p
  | _ => node_at m p
  end.
Proof. destruct l; simpl; try done; apply node_at_upd_node. Qed.

Lemma load_link_store_link l v m l' :
  load_link (store_link l v m) l' = if decide (l' = l) then v else load_link m l'.
Proof.
  destruct l, l'; simpl; try done; rewrite node_at_upd_node;
    repeat case_decide; simplify_eq; done.
Qed.

(** A write to a link leaves the headers of the nodes alone. *)
Lemma header_store_link l v m p :
  n_ref (node_at (store_link l v m) p) = n_ref (node_at m p) ∧
  n_trace (node_at (store_link l v m) p) = n_trace (node_at m p) ∧
  n_del (node_at (store_link l v m) p) = n_del (node_at m p) ∧
  n_threadId (node_at (store_link l v m) p) = n_threadId (node_at m p) ∧
  n_hazard (node_at (store_link l v m) p) = n_hazard (node_at m p).
Proof.
  rewrite node_at_store_link. destruct l; try done; case_decide; by subst.
Qed.

Lemma n_ref_store_link l v m p :
  n_ref (node_at (store_link l v m) p) = n_ref (node_at m p).
Proof. apply header_store_link. Qed.

Lemma n_trace_store_link l v m p :
  n_trace (node_at (store_link l v m) p) = n_trace (node_at m p).
Proof. apply header_store_link. Qed.

(** A write to the header of a node leaves the links alone. *)
Lemma load_link_upd_node n f m l :
  (∀ nd, n_next (f nd) = n_next nd ∧ n_prev (f nd) = n_prev nd) →
  load_link (upd_node n f m) l = load_link m l.
Proof.
  intros Hf. destruct l; simpl; try done; rewrite node_at_upd_node;
    case_decide; subst; try done; apply Hf.
Qed.

Lemma load_link_upd_td t f m l : load_link (upd_td t f m) l = load_link m l.
Proof. by destruct l. Qed.

Lemma node_at_upd_td t f m p : node_at (upd_td t f m) p = node_at m p.
Proof. done. Qed.

Lemma td_at_upd_node n f m t : td_at (upd_node n f m) t = td_at m t.
Proof. done. Qed.

Lemma td_at_upd_td t f m t' :
  td_at (upd_td t f m) t' = if decide (t' = t) then f (td_at m t) else td_at m t'.
Proof.
  unfold td_at, upd_td; simpl.
  destruct (decide (t' = t)) as [->|Hne].
  - by rewrite lookup_insert_eq.
  - by rewrite lookup_insert_ne.
Qed.

Lemma td_at_upd_hazard t n f m t' : td_at (upd_hazard t n f m) t' = td_at m t'.
Proof. done. Qed.

Lemma hazard_at_upd_td t f m t' n : hazard_at (upd_td t f m) t' n = hazard_at m t' n.
Proof. done. Qed.

Lemma hazard_at_upd_hazard t n f m t' n' :
  hazard_at (upd_hazard t n f m) t' n' =
  if decide (t' = t ∧ n' = n) then f (hazard_at m t n) else hazard_at m t' n'.
Proof.
  unfold hazard_at, upd_hazard. rewrite node_at_upd_node.
  destruct (decide (n' = n)) as [->|Hn]; simpl.
  - destruct (decide (t' = t)) as [->|Ht].
    + rewrite lookup_insert_eq, decide_True by done. done.
    + rewrite lookup_insert_ne by done. rewrite decide_False by tauto. done.
  - rewrite decide_False by tauto. done.
Qed.

(** A write to a hazard record leaves the rest of the header alone. *)
Lemma header_upd_hazard t n f m p :
  n_ref (node_at (upd_hazard t n f m) p) = n_ref (node_at m p) ∧
  n_trace (node_at (upd_hazard t n f m) p) = n_trace (node_at m p) ∧
  n_del (node_at (upd_hazard t n f m) p) = n_del (node_at m p) ∧
  n_threadId (node_at (upd_hazard t n f m) p) = n_threadId (node_at m p) ∧
  n_next (node_at (upd_hazard t n f m) p) = n_next (node_at m p) ∧
  n_prev (node_at (upd_hazard t n f m) p) = n_prev (node_at m p).
Proof.
  unfold upd_hazard. rewrite node_at_upd_node. case_decide; by subst.
Qed.

Lemma n_ref_upd_hazard t n f m p :
  n_ref (node_at (upd_hazard t n f m) p) = n_ref (node_at m p).
Proof. apply header_upd_hazard. Qed.
Lemma n_trace_upd_hazard t n f m p :
  n_trace (node_at (upd_hazard t n f m) p) = n_trace (node_at m p).
Proof. apply header_upd_hazard. Qed.
Lemma n_del_upd_hazard t n f m p :
  n_del (node_at (upd_hazard t n f m) p) = n_del (node_at m p).
Proof. apply header_upd_hazard. Qed.
Lemma n_threadId_upd_hazard t n f m p :
  n_threadId (node_at (upd_hazard t n f m) p) = n_threadId (node_at m p).
Proof. apply header_upd_hazard. Qed.

Lemma load_link_upd_hazard t n f m l :
  load_link (upd_hazard t n f m) l = load_link m l.
Proof. destruct l; simpl; try done; apply header_upd_hazard. Qed.

Lemma td_at_set_calls f m t : td_at (set_calls f m) t = td_at m t.
Proof. done. Qed.
Lemma td_at_set_pools f m t : td_at (set_pools f m) t = td_at m t.
Proof. done. Qed.
Lemma node_at_set_calls f m p : node_at (set_calls f m) p = node_at m p.
Proof. done. Qed.
Lemma node_at_set_pools f m p : node_at (set_pools f m) p = node_at m p.
Proof. done. Qed.

Create Rewrite HintDb heap.
#[export] Hint Rewrite td_at_set_calls td_at_set_pools node_at_set_calls
  node_at_set_pools : heap.
#[export] Hint Rewrite node_at_upd_td td_at_upd_node td_at_upd_hazard
  hazard_at_upd_td hazard_at_upd_hazard n_ref_upd_hazard n_trace_upd_hazard
  n_del_upd_hazard n_threadId_upd_hazard load_link_upd_hazard load_link_upd_td
  td_at_upd_td node_at_upd_node load_link_store_link n_ref_store_link
  n_trace_store_link : heap.

End HeapFacts.

(** ** The memory manager *)

Module HazardMemFacts.
Import Heap Atomic HazardMem HeapFacts Reclaim.

Section Facts.
Context `{Config}.
Variable threadMax : Z.

(** C2.  [casRef(link, val, old)].  When the CAS on the link succeeds the
    call returns true; the operations that follow the CAS are, in this
    order, the increment of the reference count of [val]'s node and the
    reset of its trace flag (when [val.ptr()] is not nil), then the
    decrement of the reference count of [old]'s node (when [old.ptr()] is
    not nil).  When the CAS fails the call returns false and the memory is
    as it was. *)
Theorem casRef_publish_before_unpublish (tid : nat) (link : LinkAddr) (val old : Z) (m : Mem) :
  let new_ := link_ptr val in
  let old_ := link_ptr old in
  let m' := fst (run (exec threadMax) tid (casRef link val old) m) in
  let r := snd (run (exec threadMax) tid (casRef link val old) m) in
  let ops := trace (exec threadMax) tid (casRef link val old) m in
  (load_link m link = old →
     r = Done true ∧
     ops = Ev (CasLink link val old) true ::
           (if bool_decide (new_ ≠ nil)
            then [Ev (AddRef new_ 1) (); Ev (StoreTrace new_ false) ()] else []) ++
           (if bool_decide (old_ ≠ nil) then [Ev (AddRef old_ (-1)) ()] else []) ∧
     (∀ l, load_link m' l = if decide (l = link) then val else load_link m l) ∧
     (∀ p, n_ref (node_at m' p) =
           (if decide (p = old_ ∧ old_ ≠ nil) then λ r, int32 (r - 1) else id)
             ((if decide (p = new_ ∧ new_ ≠ nil) then λ r, int32 (r + 1) else id)
                (n_ref (node_at m p)))) ∧
     (∀ p, n_trace (node_at m' p) =
           if decide (p = new_ ∧ new_ ≠ nil) then false else n_trace (node_at m p))) ∧
  (load_link m link ≠ old →
     r = Done false ∧ m' = m ∧ ops = [Ev (CasLink link val old) false]).
Proof.
  intros new_ old_ m' r ops. subst m' r ops.
  unfold casRef. simpl. unfold cas_link.
  split; intros Hlink.
  - rewrite bool_decide_eq_true_2 by done. simpl.
    fold new_ old_.
    destruct (bool_decide_reflect (new_ ≠ nil)) as [Hn|Hn];
      destruct (bool_decide_reflect (old_ ≠ nil)) as [Ho|Ho]; simpl;
      (split; [done|]); (split; [done|]);
      (split; [intros l|split; intros p]);
      repeat first [ rewrite load_link_upd_node by done
                   | rewrite load_link_store_link
                   | rewrite node_at_upd_node
                   | rewrite n_ref_store_link
                   | rewrite n_trace_store_link ];
      repeat case_decide; destruct_and?; simplify_eq/=;
      rewrite ?n_ref_store_link, ?n_trace_store_link; try done;
      try (exfalso; naive_solver); try (f_equal; lia).
    match goal with E : link_ptr _ = link_ptr val |- _ => rewrite E end.
    f_equal; lia.
  - rewrite bool_decide_eq_false_2 by done. done.
Qed.

(** [ref] on a node the thread does not hold yet takes the hazard index
    at the back of the free list. *)
Lemma run_ref_first (tid : nat) (node : Z) (m : Mem) (td : ThreadData) (index : Z) :
  threads m !! tid = Some td →
  last (td_hazardFreeList td) = Some index →
  0 ≤ index →
  h_ref (hazard_at m tid node) ≤ 0 →
  run (exec threadMax) tid (ref node) m =
  (upd_td tid (with_hazards <[Z.to_nat index := node]>)
     (upd_hazard tid node (λ h, mkHazard index (h_ref h))
        (upd_td tid (with_hazardFreeList (removelast (A:=Z)))
           (upd_hazard tid node (λ h, mkHazard (h_index h) (int8 (h_ref h + 1))) m))),
   Done ()).
Proof.
  intros Htd Hback Hi Href.
  unfold ref, threadData. simpl.
  destruct (Z.ltb_spec 0 (h_ref (hazard_at m tid node))); [lia|]. simpl.
  unfold initThreadData. simpl. rewrite Htd. simpl.
  unfold td_at at 1. simpl. rewrite Htd. simpl. rewrite Hback. simpl.
  destruct (Z.leb_spec 0 index); [|lia]. done.
Qed.

(** Writing back what a thread record, or the memory, already holds. *)
Lemma upd_td_id t f m td :
  threads m !! t = Some td → f td = td → upd_td t f m = m.
Proof.
  intros Ht Hf. unfold upd_td, td_at. rewrite Ht; simpl. rewrite Hf.
  destruct m; unfold set_threads; simpl in *. f_equal. by apply insert_id.
Qed.

(** *** scan *)

#[local] Instance reclaimable_dec m td node : Decision (reclaimable m td node).
Proof. unfold reclaimable. apply _. Defined.

Lemma run_scan_reclaimable tid td node m :
  run (exec threadMax) tid (scan_reclaimable td node) m =
  (m, Done (bool_decide (reclaimable m td node))).
Proof.
  unfold scan_reclaimable. simpl.
  destruct (bool_decide_reflect (reclaimable m td node)) as [Hrec|Hrec].
  - destruct Hrec as (Hr & Ht & Hh). rewrite Hr. simpl. rewrite Ht. simpl.
    by rewrite bool_decide_eq_false_2.
  - destruct (Z.eqb_spec (n_ref (node_at m node)) 0) as [Hr|Hr]; simpl; [|done].
    destruct (n_trace (node_at m node)) eqn:Ht; simpl; [|done].
    destruct (bool_decide_reflect (node ∈ td_delHazards (td_at m td))); simpl; [done|].
    exfalso. by apply Hrec.
Qed.

Lemma entry_at_upd_entry t e f m :
  (e < length (td_delNodes (td_at m t)))%nat →
  entry_at (upd_entry t e f m) t e = f (entry_at m t e).
Proof.
  intros He. unfold entry_at, upd_entry. rewrite td_at_upd_td, decide_True by done.
  simpl. rewrite list_lookup_alter.
  destruct (lookup_lt_is_Some_2 _ _ He) as [x ->]. by rewrite decide_True.
Qed.

Lemma length_delNodes_upd_entry t e f m :
  length (td_delNodes (td_at (upd_entry t e f m) t)) = length (td_delNodes (td_at m t)).
Proof.
  unfold upd_entry. rewrite td_at_upd_td, decide_True by done. simpl.
  by rewrite length_alter.
Qed.

End Facts.
End HazardMemFacts.

(** ** The operations on the paths of the list *)

Module ListPaths.
Import Heap Atomic HazardMem LockFreeList Events.

#[local] Arguments threadData : simpl never.
#[local] Arguments deRefLink : simpl never.
#[local] Arguments ref : simpl never.
#[local] Arguments releaseRef : simpl never.
#[local] Arguments casRef : simpl never.
#[local] Arguments storeRef : simpl never.
#[local] Arguments cleanUpLocal : simpl never.
#[local] Arguments cleanUpAll : simpl never.
#[local] Arguments scan_reclaimable : simpl never.
#[local] Arguments scan_visit : simpl never.
#[local] Arguments HazardMem.scan : simpl never.
#[local] Arguments HazardMem.deleteNode : simpl never.
#[local] Arguments head_ptr : simpl never.
#[local] Arguments tail_ptr : simpl never.
#[local] Arguments setMark : simpl never.
#[local] Arguments cleanUpNode : simpl never.
#[local] Arguments terminateNode : simpl never.
#[local] Arguments deleteNode : simpl never.
#[local] Arguments correctPrev : simpl never.
#[local] Arguments move_out : simpl never.
#[local] Arguments Iter_inc : simpl never.
#[local] Arguments pop_front_step : simpl never.
#[local] Arguments pop_front_observe : simpl never.
#[local] Arguments pop_front_act : simpl never.

Lemma Link_ptr_aligned d : aligned (Link_ptr d).
Proof.
  unfold aligned, Link_ptr, ptr_mask, d_mask. rewrite <- Z.land_assoc.
  change (Z.land (Z.lnot 1) 1) with 0. apply Z.land_0_r.
Qed.

Lemma aligned_nil : aligned nil.
Proof. done. Qed.

Lemma Link_d_marked p : Link_d (Link p true) = true.
Proof.
  unfold Link_d, Link, d_mask. simpl.
  rewrite Z.land_lor_distr_l. change (Z.land 1 1) with 1.
  destruct (Z.eqb_spec (Z.lor (Z.land p 1) 1) 0) as [E|]; [|done].
  apply Z.lor_eq_0_iff in E as [_ ?]. done.
Qed.

Lemma Link_d_unmarked p : aligned p → Link_d (Link p false) = false.
Proof.
  unfold aligned, Link_d, Link, d_mask. simpl. intros Hp.
  rewrite Z.lor_0_r, Hp. done.
Qed.

Lemma clears_mark_notable e : clears_mark e = true → notable e = true.
Proof. unfold notable. by intros ->. Qed.
Lemma is_write_notable e : is_write e = true → notable e = true.
Proof. unfold notable. intros ->. by rewrite orb_true_r. Qed.
Lemma is_dec_notable e : is_dec e = true → notable e = true.
Proof. unfold notable. intros ->. by rewrite !orb_true_r. Qed.
Lemma is_inc_notable e : is_inc e = true → notable e = true.
Proof. unfold notable. intros ->. by rewrite !orb_true_r. Qed.

Lemma wrote_is_write x e : wrote x e = true → is_write e = true.
Proof. destruct e as [B o b]. destruct o; simpl; done. Qed.
Lemma incs_is_inc cur e : incs cur e = true → is_inc e = true.
Proof.
  destruct e as [B o b]. destruct o; simpl; try done.
  match goal with c : Call |- _ => by destruct c end.
Qed.
Lemma wrote_notable x e : wrote x e = true → notable e = true.
Proof. intros Hw. eapply is_write_notable, wrote_is_write, Hw. Qed.

Create HintDb quiet.
Create HintDb post.
#[export] Hint Resolve clears_mark_notable is_write_notable is_dec_notable
  is_inc_notable : quiet.

Lemma for_each_quiet {A} f (l : list A) (body : A → M unit) :
  (∀ x, quiet f (λ _, True) (body x)) → quiet f (λ _, True) (for_each l body).
Proof.
  intros Hb. induction l as [|x l IH]; cbn [for_each].
  - by apply quiet_ret.
  - apply (quiet_bind _ (λ _, True)); [apply Hb|]. intros _ _. apply IH.
Qed.

Ltac quiet_step :=
  lazymatch goal with
  | |- quiet _ _ (Ret _) => apply quiet_ret
  | |- quiet _ _ Abort => apply quiet_abort
  | |- quiet _ _ Spin => apply quiet_spin
  | |- quiet _ _ (Vis _ _) =>
      apply quiet_vis;
      [ intros ?; unfold notable; simpl; rewrite ?orb_false_r; try done | intros ? ]
  | |- quiet _ _ (bind _ _) =>
      first [ eapply quiet_bind; [ solve [eauto with quiet] | intros ? ? ]
            | eapply quiet_bind;
              [ eapply quiet_weaken; [ | | solve [eauto with quiet] ];
                [ solve [auto with quiet] | intros ? HQ; exact HQ ]
              | intros ? ? ]
            | apply (quiet_bind _ (λ _, True)); [ | intros ? _ ] ]
  | |- quiet _ _ (if ?c then _ else _) => destruct c eqn:?
  | |- quiet _ _ (match ?x with _ => _ end) => destruct x eqn:?
  | |- quiet _ _ (for_each _ _) => apply for_each_quiet; intros ?
  | |- quiet _ _ _ =>
      first [ solve [eauto with quiet]
            | eapply quiet_weaken; [ | | solve [eauto with quiet] ];
              [ solve [auto with quiet | intros ? E; exact E] | done ] ]
  end.

Ltac quiet_norm := unfold mbind, Prog_bind, call; cbn [bind].
Ltac quiet_tac := quiet_norm; repeat (quiet_step; quiet_norm); auto.

Ltac quiet_solve :=
  first [ solve [eauto with quiet]
        | eapply quiet_weaken; [ | | solve [eauto with quiet] ];
          [ solve [eauto with quiet] | intros ? HQ; exact HQ ] ].

Ltac post_norm := unfold mbind, Prog_bind, call; cbn [bind]; cbn beta.
Ltac post_step :=
  lazymatch goal with
  | |- post _ _ (Ret _) => apply post_ret
  | |- post _ _ Abort => apply post_abort
  | |- post _ _ Spin => apply post_spin
  | |- post _ _ (Vis _ _) =>
      apply post_vis; intros ?;
      cbn [is_write is_dec is_inc incs win saw_marked wrote clears_mark]
  | |- post _ _ (bind _ _) =>
      first [ eapply post_bind; [ apply post_quiet; quiet_solve | cbn beta; intros ? ? [-> ?] ]
            | eapply post_bind; [ solve [eauto with post] | cbn beta; intros ? ? ? ]
            | eapply post_bind;
              [ eapply post_result; solve [eauto with quiet] | cbn beta; intros ? ? ? ]
            | eapply post_bind; [ apply post_any | cbn beta; intros ? ? _ ] ]
  | |- post _ _ (if ?c then _ else _) => destruct c eqn:?
  | |- post _ _ (match ?x with _ => _ end) => destruct x eqn:?
  | |- post _ _ _ =>
      eapply post_weaken; [ | apply post_quiet; quiet_solve ];
      cbn beta; intros ? ? [-> ?]; first [ done | lia ]
  end.
Ltac post_tac := post_norm; repeat (post_step; post_norm).
Ltac post_done := try (intros; simplify_eq/=; first [ done | lia ]).
Ltac post_fin :=
  simpl; intros; simplify_eq/=;
  repeat match goal with H : ?x = ?x → _ |- _ => specialize (H eq_refl) end;
  first [ done | lia ].

Section HazardMem.
Context `{Config}.
Hypothesis Hptr : ∀ d, aligned (link_ptr d).
Variable threadMax : Z.

Abbreviation any := (λ _, True).

Lemma threadData_quiet : quiet notable any threadData.
Proof. unfold threadData. quiet_tac. Qed.
#[local] Hint Resolve threadData_quiet : quiet.

Lemma deRefLink_loop_quiet fuel td link index :
  quiet notable aligned (deRefLink_loop fuel td link index).
Proof. induction fuel as [|fuel IH]; cbn [deRefLink_loop]; quiet_tac. Qed.
#[local] Hint Resolve deRefLink_loop_quiet : quiet.

Lemma deRefLink_quiet fuel link : quiet notable aligned (deRefLink fuel link).
Proof. unfold deRefLink. quiet_tac. Qed.

Lemma ref_quiet node : quiet notable any (ref node).
Proof. unfold ref. quiet_tac. Qed.

Lemma releaseRef_quiet node : quiet notable any (releaseRef node).
Proof. unfold releaseRef. quiet_tac. Qed.

Lemma casRef_quiet link val old :
  keeps_mark link val old → quiet notable any (casRef link val old).
Proof. intros Hk. unfold casRef. quiet_tac. all: destruct link; simpl in *; done. Qed.

Lemma storeRef_quiet link val :
  keeps_mark link val (Link nil true) → quiet notable any (storeRef link val).
Proof.
  intros Hk. unfold storeRef. quiet_tac.
  destruct link; simpl in *; done.
Qed.

Section Callbacks.
Variable cleanUpNode : Z → M unit.
Variable terminateNode : Z → bool → M unit.
Hypothesis cleanUpNode_quiet : ∀ node, quiet notable any (cleanUpNode node).
Hypothesis terminateNode_quiet : ∀ node c, quiet notable any (terminateNode node c).
#[local] Hint Resolve cleanUpNode_quiet terminateNode_quiet : quiet.

Lemma cleanUpLocal_quiet : quiet notable any (cleanUpLocal cleanUpNode).
Proof.
  unfold cleanUpLocal. quiet_tac.
Qed.

Lemma cleanUpAll_quiet : quiet notable any (cleanUpAll threadMax cleanUpNode).
Proof.
  unfold cleanUpAll. quiet_tac.
Qed.

Lemma scan_trace_quiet td e : quiet notable any (scan_trace td e).
Proof. unfold scan_trace. quiet_tac. Qed.

Lemma scan_hazards_quiet td : quiet notable any (scan_hazards td).
Proof.
  unfold scan_hazards. quiet_tac.
Qed.

Lemma scan_reclaimable_quiet td node : quiet notable any (scan_reclaimable td node).
Proof. unfold scan_reclaimable. quiet_tac. Qed.
#[local] Hint Resolve scan_reclaimable_quiet : quiet.

Lemma scan_visit_quiet td e : quiet notable any (scan_visit terminateNode td e).
Proof. unfold scan_visit. quiet_tac. Qed.
#[local] Hint Resolve scan_visit_quiet : quiet.

Lemma scan_walk_quiet td chain newDelHead newDelCount :
  quiet notable any (scan_walk terminateNode td chain newDelHead newDelCount).
Proof.
  revert newDelHead newDelCount.
  induction chain as [|e chain IH]; intros newDelHead newDelCount; cbn [scan_walk]; quiet_tac.
Qed.

Lemma scan_quiet : quiet notable any (HazardMem.scan terminateNode).
Proof.
  unfold HazardMem.scan. quiet_tac; auto using scan_trace_quiet, scan_hazards_quiet, scan_walk_quiet.
Qed.
#[local] Hint Resolve scan_quiet cleanUpLocal_quiet cleanUpAll_quiet : quiet.

Lemma deleteNode_loop_quiet fuel td :
  quiet notable any (deleteNode_loop threadMax cleanUpNode terminateNode fuel td).
Proof. induction fuel as [|fuel IH]; cbn [deleteNode_loop]; quiet_tac. Qed.
#[local] Hint Resolve deleteNode_loop_quiet : quiet.

Lemma deleteNode_quiet fuel node :
  quiet notable any (HazardMem.deleteNode threadMax cleanUpNode terminateNode fuel node).
Proof. unfold HazardMem.deleteNode. quiet_tac. Qed.

End Callbacks.
End HazardMem.

Section List.
Variable iterMax : Z.
Variable threadMax : Z.
Variable N : nat.

Abbreviation any := (λ _, True).
#[local] Existing Instance cfg.

Lemma cfg_ptr_aligned d : aligned (link_ptr (Config := cfg iterMax) d).
Proof. apply Link_ptr_aligned. Qed.

#[local] Hint Resolve threadData_quiet ref_quiet releaseRef_quiet : quiet.
#[local] Hint Resolve Link_ptr_aligned aligned_nil : quiet.

Lemma deRefLink_aligned link :
  quiet notable aligned (deRefLink (H := cfg iterMax) N link).
Proof. apply deRefLink_quiet, cfg_ptr_aligned. Qed.
#[local] Hint Resolve deRefLink_aligned : quiet.

Lemma head_ptr_quiet : quiet notable aligned head_ptr.
Proof. unfold head_ptr. quiet_tac. apply Link_ptr_aligned. Qed.
Lemma tail_ptr_quiet : quiet notable aligned tail_ptr.
Proof. unfold tail_ptr. quiet_tac. apply Link_ptr_aligned. Qed.
#[local] Hint Resolve head_ptr_quiet tail_ptr_quiet : quiet.

Lemma setMark_loop_quiet fuel link :
  (∀ n, link ≠ LNext n) → quiet notable any (setMark_loop fuel link).
Proof.
  intros Hl. induction fuel as [|fuel IH]; cbn [setMark_loop]; quiet_tac.
  destruct link; try done. by destruct (Hl n).
Qed.

Lemma setMark_quiet n : quiet notable any (setMark N (LPrev n)).
Proof. by apply setMark_loop_quiet. Qed.
#[local] Hint Resolve setMark_quiet : quiet.

Lemma casRef_marked link p q :
  quiet notable any (casRef (H := cfg iterMax) link (Link p true) q).
Proof.
  apply casRef_quiet. destruct link; simpl; try done.
  rewrite Link_d_marked. by destruct (Link_d q).
Qed.

Lemma casRef_unmarked link v p :
  aligned p → quiet notable any (casRef (H := cfg iterMax) link v (link_of p)).
Proof.
  intros Hp. apply casRef_quiet. destruct link; simpl; try done.
  unfold link_of. by rewrite Link_d_unmarked.
Qed.

Lemma storeRef_marked link p :
  quiet notable any (storeRef (H := cfg iterMax) link (Link p true)).
Proof.
  apply storeRef_quiet. destruct link; simpl; try done.
  by rewrite Link_d_marked.
Qed.
Lemma casRef_prev n v o :
  quiet notable any (casRef (H := cfg iterMax) (LPrev n) v o).
Proof. by apply casRef_quiet. Qed.
#[local] Hint Resolve casRef_marked casRef_unmarked storeRef_marked casRef_prev : quiet.

Lemma cleanUpNode_prev_quiet fuel node :
  quiet notable any (cleanUpNode_prev iterMax N fuel node).
Proof. induction fuel as [|fuel IH]; cbn [cleanUpNode_prev]; quiet_tac. Qed.

Lemma cleanUpNode_next_quiet fuel node :
  quiet notable any (cleanUpNode_next iterMax N fuel node).
Proof. induction fuel as [|fuel IH]; cbn [cleanUpNode_next]; quiet_tac. Qed.
#[local] Hint Resolve cleanUpNode_prev_quiet cleanUpNode_next_quiet : quiet.

Lemma cleanUpNode_quiet node : quiet notable any (cleanUpNode iterMax N node).
Proof. unfold cleanUpNode. quiet_tac. Qed.

Lemma terminateNode_quiet node c : quiet notable any (terminateNode iterMax node c).
Proof. unfold terminateNode. quiet_tac. Qed.

Lemma List_deleteNode_quiet node :
  quiet notable any (deleteNode iterMax threadMax N node).
Proof.
  unfold deleteNode. apply deleteNode_quiet;
    first [apply cfg_ptr_aligned | apply cleanUpNode_quiet | apply terminateNode_quiet].
Qed.
#[local] Hint Resolve List_deleteNode_quiet : quiet.

(** [correctPrev] takes and returns node addresses. *)
Lemma correctPrev_loop_quiet fuel prev lastLink node :
  aligned prev → aligned lastLink →
  quiet notable (λ r, aligned r.1 ∧ aligned r.2)
    (correctPrev_loop iterMax N fuel prev lastLink node).
Proof.
  revert prev lastLink.
  induction fuel as [|fuel IH]; intros prev lastLink Hp Hl; cbn [correctPrev_loop];
    quiet_tac; auto using aligned_nil.
Qed.

Lemma correctPrev_quiet prev node :
  aligned prev → quiet notable aligned (correctPrev iterMax N prev node).
Proof.
  intros Hp. unfold correctPrev. quiet_norm.
  eapply quiet_bind; [apply correctPrev_loop_quiet; auto using aligned_nil|].
  intros [p l] [Hp' Hl']. quiet_tac.
Qed.
#[local] Hint Resolve correctPrev_quiet : quiet.

Lemma Iter_inc_loop_quiet fuel cur :
  quiet notable any (Iter_inc_loop iterMax N fuel cur).
Proof.
  revert cur. induction fuel as [|fuel IH]; intros cur; cbn [Iter_inc_loop]; quiet_tac.
Qed.

Lemma erase_prev_loop_quiet fuel node :
  quiet notable aligned (erase_prev_loop iterMax N fuel node).
Proof. induction fuel as [|fuel IH]; cbn [erase_prev_loop]; quiet_tac. Qed.
#[local] Hint Resolve Iter_inc_loop_quiet erase_prev_loop_quiet : quiet.
#[local] Arguments erase_prev_loop : simpl never.

(** *** Writes that clear a mark: none in [erase], [pop_front], [pop_back] *)

Lemma move_out_no_clear data node : quiet clears_mark any (move_out data node).
Proof. unfold move_out. quiet_tac. Qed.
Lemma move_out_no_size data node : quiet is_dec any (move_out data node).
Proof. unfold move_out. quiet_tac. Qed.
Lemma move_out_no_inc data node : quiet is_inc any (move_out data node).
Proof. unfold move_out. quiet_tac. Qed.
#[local] Hint Resolve move_out_no_clear move_out_no_size move_out_no_inc : quiet.

Lemma Iter_inc_no_clear cur : quiet clears_mark any (Iter_inc iterMax N cur).
Proof. unfold Iter_inc. quiet_tac. Qed.
Lemma Iter_inc_no_write cur : quiet is_write any (Iter_inc iterMax N cur).
Proof. unfold Iter_inc. quiet_tac. Qed.
Lemma Iter_inc_no_size cur : quiet is_dec any (Iter_inc iterMax N cur).
Proof. unfold Iter_inc. quiet_tac. Qed.
#[local] Hint Resolve Iter_inc_no_clear Iter_inc_no_write Iter_inc_no_size : quiet.

Lemma erase_loop_no_clear fuel data node :
  quiet clears_mark any (erase_loop iterMax threadMax N fuel data node).
Proof.
  induction fuel as [|fuel IH]; cbn [erase_loop]; quiet_tac.
  by rewrite Link_d_marked, andb_false_r.
Qed.
#[local] Hint Resolve erase_loop_no_clear : quiet.

Lemma erase_no_clear it data :
  quiet clears_mark any (erase iterMax threadMax N it data).
Proof. unfold erase. quiet_tac. Qed.

Lemma pop_front_act_no_clear data prev node tail :
  aligned prev → aligned node →
  quiet clears_mark any (pop_front_act iterMax threadMax N data prev node tail).
Proof. intros Hp Hn. unfold pop_front_act. quiet_tac. Qed.

Lemma pop_front_observe_quiet prev :
  quiet notable (λ r, aligned r.1 ∧ aligned r.2) (pop_front_observe iterMax N prev).
Proof. unfold pop_front_observe. quiet_tac. Qed.
#[local] Hint Resolve pop_front_observe_quiet : quiet.

Lemma pop_front_step_no_clear data prev :
  aligned prev →
  quiet clears_mark any (pop_front_step iterMax threadMax N data prev).
Proof.
  intros Hp. unfold pop_front_step. quiet_tac.
  match goal with H : _ ∧ _ |- _ => destruct H end; simplify_eq/=.
  by apply pop_front_act_no_clear.
Qed.

Lemma pop_front_loop_no_clear fuel data prev :
  aligned prev →
  quiet clears_mark any (pop_front_loop iterMax threadMax N fuel data prev).
Proof.
  intros Hp. induction fuel as [|fuel IH]; cbn [pop_front_loop]; quiet_tac.
  by apply pop_front_step_no_clear.
Qed.

Lemma pop_front_no_clear data :
  quiet clears_mark any (pop_front iterMax threadMax N data).
Proof. unfold pop_front. quiet_tac. by apply pop_front_loop_no_clear. Qed.

(** *** What a call has done when it returns *)

#[local] Hint Resolve wrote_notable : quiet.

Lemma move_out_wrote x node :
  post (wrote x) (λ _ n, n = 1%nat) (move_out (Some x) node).
Proof. unfold move_out. post_tac. by rewrite bool_decide_eq_true_2. Qed.

Lemma Iter_inc_once cur : post is_inc (λ _ n, n = 1%nat) (Iter_inc iterMax N cur).
Proof. unfold Iter_inc. post_tac. Qed.

Lemma Iter_inc_incs cur :
  post (incs cur) (λ _ n, (1 ≤ n)%nat) (Iter_inc iterMax N cur).
Proof.
  unfold Iter_inc. post_norm. apply post_vis. intros []. cbn [incs].
  rewrite bool_decide_eq_true_2 by done.
  eapply post_weaken; [|apply post_any]. simpl. intros; lia.
Qed.
#[local] Hint Resolve move_out_wrote Iter_inc_once Iter_inc_incs : post.

Lemma Iter_inc_no_wrote x cur : quiet (wrote x) any (Iter_inc iterMax N cur).
Proof.
  eapply quiet_weaken; [apply wrote_is_write| |apply Iter_inc_no_write]. done.
Qed.

(** *** erase *)

Lemma erase_loop_no_write_unless_erased fuel data node :
  post is_write (λ b n, b = false → n = 0%nat)
    (erase_loop iterMax threadMax N fuel data node).
Proof. induction fuel as [|fuel IH]; cbn [erase_loop]; post_tac; done. Qed.

Lemma erase_loop_size fuel data node :
  post is_dec (λ b n, n = if b : bool then 1%nat else 0%nat)
    (erase_loop iterMax threadMax N fuel data node).
Proof. induction fuel as [|fuel IH]; cbn [erase_loop]; post_tac; done. Qed.

Lemma erase_loop_no_inc fuel data node :
  quiet is_inc any (erase_loop iterMax threadMax N fuel data node).
Proof. induction fuel as [|fuel IH]; cbn [erase_loop]; quiet_tac. Qed.

Lemma erase_loop_wins fuel data node :
  post (win node) (λ b n, b = true → (1 ≤ n)%nat)
    (erase_loop iterMax threadMax N fuel data node).
Proof.
  induction fuel as [|fuel IH]; cbn [erase_loop]; post_tac; try done.
  - intros _. rewrite bool_decide_eq_true_2 by done.
    rewrite Link_d_marked. unfold link_of.
    rewrite Link_d_unmarked by done. simpl. lia.
  - eapply post_weaken; [|apply IH]. simpl. intros ? ? Hn ?. specialize (Hn ltac:(done)). lia.
Qed.

Lemma erase_loop_wrote fuel x node :
  post (wrote x) (λ b n, b = true → n = 1%nat)
    (erase_loop iterMax threadMax N fuel (Some x) node).
Proof. induction fuel as [|fuel IH]; cbn [erase_loop]; post_tac; post_done. Qed.

Lemma erase_loop_saw_marked fuel data node :
  post (saw_marked node) (λ b n, b = false → (1 ≤ n)%nat)
    (erase_loop iterMax threadMax N fuel data node).
Proof.
  induction fuel as [|fuel IH]; cbn [erase_loop]; post_tac; post_done.
  - intros _. rewrite bool_decide_eq_true_2 by done. simpl. lia.
  - eapply post_weaken; [|apply IH]. simpl. intros ? ? Hn ?.
    specialize (Hn ltac:(done)). lia.
Qed.

#[local] Hint Resolve erase_loop_no_inc : quiet.
#[local] Hint Resolve erase_loop_size erase_loop_wins erase_loop_wrote
  erase_loop_no_write_unless_erased erase_loop_saw_marked : post.

(** What a call of [erase] that returns has done. *)
Lemma erase_paths it data tr erased it' :
  Path (erase iterMax threadMax N it data) tr (Done (erased, it')) →
  cnt is_inc tr = 1%nat ∧ cnt (incs it) tr = 1%nat ∧
  cnt is_dec tr = (if erased then 1%nat else 0%nat) ∧
  (erased = true →
     (1 ≤ cnt (win it) tr)%nat ∧ ∀ x, data = Some x → cnt (wrote x) tr = 1%nat) ∧
  (erased = false → cnt is_write tr = 0%nat ∧ (1 ≤ cnt (saw_marked it) tr)%nat).
Proof.
  intros Hp.
  assert (Hinc : post is_inc (λ (r : bool * Z) n, n = 1%nat) (erase iterMax threadMax N it data)).
  { unfold erase. post_tac; post_fin. }
  assert (Hincs : post (incs it) (λ (r : bool * Z) n, (1 ≤ n)%nat)
                    (erase iterMax threadMax N it data)).
  { unfold erase. post_tac; post_fin. }
  assert (Hsize : post is_dec (λ (r : bool * Z) n, n = if r.1 then 1%nat else 0%nat)
                    (erase iterMax threadMax N it data)).
  { unfold erase. post_tac; post_fin. }
  assert (Hwin : post (win it) (λ (r : bool * Z) n, r.1 = true → (1 ≤ n)%nat)
                   (erase iterMax threadMax N it data)).
  { unfold erase. post_tac; post_fin. }
  assert (Hwrote : ∀ x, data = Some x →
            post (wrote x) (λ (r : bool * Z) n, r.1 = true → n = 1%nat)
              (erase iterMax threadMax N it data)).
  { intros x ->. pose proof (Iter_inc_no_wrote x) as Hq.
    unfold erase. post_tac; post_fin. }
  assert (Hwrite : post is_write (λ (r : bool * Z) n, r.1 = false → n = 0%nat)
                     (erase iterMax threadMax N it data)).
  { unfold erase. post_tac; post_fin. }
  assert (Hsaw : post (saw_marked it) (λ (r : bool * Z) n, r.1 = false → (1 ≤ n)%nat)
                   (erase iterMax threadMax N it data)).
  { unfold erase. post_tac; post_fin. }
  split; [apply (Hinc _ _ Hp)|].
  split.
  { pose proof (Hinc _ _ Hp) as H1. pose proof (Hincs _ _ Hp) as H2.
    pose proof (cnt_le is_inc (incs it) tr (incs_is_inc it)) as H3.
    cbn beta in H1, H2. lia. }
  split; [apply (Hsize _ _ Hp)|].
  split.
  - intros ->. split; [by apply (Hwin _ _ Hp)|].
    intros x Hx. by apply (Hwrote x Hx _ _ Hp).
  - intros ->. split; [by apply (Hwrite _ _ Hp)|by apply (Hsaw _ _ Hp)].
Qed.

(** *** pop_front *)

Lemma pop_front_act_size data prev node tail :
  aligned prev → aligned node →
  post is_dec
    (λ r n, match r with
            | Some true => node ≠ tail ∧ n = 1%nat
            | Some false => node = tail ∧ n = 0%nat
            | None => node ≠ tail ∧ n = 0%nat
            end)
    (pop_front_act iterMax threadMax N data prev node tail).
Proof.
  intros Hp Hn. unfold pop_front_act. post_tac; post_done.
  all: try (apply bool_decide_eq_true in Heqb || apply bool_decide_eq_false in Heqb).
  all: done.
Qed.

Lemma pop_front_act_write data prev node tail :
  aligned prev → aligned node →
  post is_write (λ r n, r ≠ Some true → n = 0%nat)
    (pop_front_act iterMax threadMax N data prev node tail).
Proof. intros Hp Hn. unfold pop_front_act. post_tac; post_done. Qed.

Lemma pop_front_act_wrote x prev node tail :
  aligned prev → aligned node →
  post (wrote x) (λ r n, r = Some true → n = 1%nat)
    (pop_front_act iterMax threadMax N (Some x) prev node tail).
Proof. intros Hp Hn. unfold pop_front_act. post_tac; post_done. Qed.

Lemma casRef_wins node next :
  aligned next →
  post (win node) (λ ok n, ok = true → (1 ≤ n)%nat)
    (casRef (H := cfg iterMax) (LNext node) (Link next true) (link_of next)).
Proof.
  intros Hn. unfold casRef. post_tac; post_done.
  intros _. rewrite bool_decide_eq_true_2 by done.
  rewrite Link_d_marked. unfold link_of. rewrite Link_d_unmarked by done. simpl. lia.
Qed.
#[local] Hint Resolve casRef_wins : post.

Lemma pop_front_act_wins data prev node tail :
  aligned prev → aligned node →
  post (win node) (λ r n, r = Some true → (1 ≤ n)%nat)
    (pop_front_act iterMax threadMax N data prev node tail).
Proof.
  intros Hp Hn. unfold pop_front_act. post_tac; post_done.
Qed.

Lemma pop_front_step_size data prev :
  aligned prev →
  post is_dec (λ r n, n = if r is Some true then 1%nat else 0%nat)
    (pop_front_step iterMax threadMax N data prev).
Proof.
  intros Hp. unfold pop_front_step. post_tac.
  match goal with H : _ ∧ _ |- _ => destruct H end; simplify_eq/=.
  eapply post_weaken; [|by apply pop_front_act_size].
  simpl. by intros [[]|] n [_ ?].
Qed.

Lemma pop_front_step_write data prev :
  aligned prev →
  post is_write (λ r n, r ≠ Some true → n = 0%nat)
    (pop_front_step iterMax threadMax N data prev).
Proof.
  intros Hp. unfold pop_front_step. post_tac.
  match goal with H : _ ∧ _ |- _ => destruct H end; simplify_eq/=.
  eapply post_weaken; [|by apply pop_front_act_write]. done.
Qed.

(** The paths of the loop of [pop_front]: iterations that go round again,
    then the iteration that returns. *)
Lemma pop_front_loop_paths fuel data prev tr b :
  Path (pop_front_loop iterMax threadMax N fuel data prev) tr (Done b) →
  ∃ retries tr_last,
    Forall (λ t, Path (pop_front_step iterMax threadMax N data prev) t (Done None)) retries ∧
    Path (pop_front_step iterMax threadMax N data prev) tr_last (Done (Some b)) ∧
    tr = concat retries ++ tr_last.
Proof.
  revert tr. induction fuel as [|fuel IH]; intros tr; cbn [pop_front_loop].
  { by intros [_ [=]]. }
  unfold mbind, Prog_bind.
  intros [(tr1 & r & tr2 & H1 & H2 & ->)|[[_ [=]]|[_ [=]]]]%Path_bind.
  destruct r as [b'|].
  - destruct H2 as [-> [= ->]]. exists [], tr1. by rewrite app_nil_r.
  - apply IH in H2 as (retries & tr_last & Hr & Hl & ->).
    exists (tr1 :: retries), tr_last. split; [by constructor|].
    split; [done|]. simpl. by rewrite app_assoc.
Qed.

Lemma cnt_concat (f : Event Op → bool) (l : list (list (Event Op))) :
  Forall (λ t, cnt f t = 0%nat) l → cnt f (concat l) = 0%nat.
Proof.
  induction 1 as [|t l Ht _ IH]; simpl; [done|]. rewrite cnt_app. lia.
Qed.

Lemma quiet_cnt {A} (f : Event Op → bool) (Q : A → Prop) (p : M A) tr r :
  (∀ e, f e = true → notable e = true) →
  quiet notable Q p → Path p tr r → cnt f tr = 0%nat.
Proof.
  intros Hf Hq Hp.
  pose proof (cnt_le notable f tr Hf).
  destruct (quiet_Path _ _ _ _ _ Hq Hp) as [? _]. lia.
Qed.

(** What a call of [pop_front] that returns has done. *)
Lemma pop_front_paths data tr b :
  Path (pop_front iterMax threadMax N data) tr (Done b) →
  ∃ prev tr0 retries tr_obs node tail tr_act,
    tr = tr0 ++ concat retries ++ tr_obs ++ tr_act ∧
    Path (deRefLink (H := cfg iterMax) N LHead) tr0 (Done prev) ∧
    Forall (λ t, Path (pop_front_step iterMax threadMax N data prev) t (Done None))
      retries ∧
    Path (pop_front_observe iterMax N prev) tr_obs (Done (node, tail)) ∧
    Path (pop_front_act iterMax threadMax N data prev node tail) tr_act (Done (Some b)) ∧
    (b = false ↔ node = tail) ∧
    cnt is_dec tr = (if b then 1%nat else 0%nat) ∧
    (b = true →
       (1 ≤ cnt (win node) tr_act)%nat ∧
       ∀ x, data = Some x → cnt (wrote x) tr = 1%nat) ∧
    (b = false → cnt is_write tr = 0%nat).
Proof.
  unfold pop_front, mbind, Prog_bind.
  intros [(tr0 & prev & tr' & H0 & Hl & ->)|[[_ [=]]|[_ [=]]]]%Path_bind.
  assert (Hprev : aligned prev).
  { by apply (quiet_Path _ _ _ _ _ (deRefLink_aligned LHead) H0). }
  apply pop_front_loop_paths in Hl as (retries & tr_last & Hr & Hlast & ->).
  pose proof Hlast as Hlast'.
  unfold pop_front_step, mbind, Prog_bind in Hlast.
  apply Path_bind in Hlast
    as [(tr_obs & [node tail] & tr_act & Hobs & Hact & ->)|[[_ [=]]|[_ [=]]]].
  destruct (quiet_Path _ _ _ _ _ (pop_front_observe_quiet prev) Hobs)
    as [_ Hal]. destruct (Hal _ eq_refl) as [Hnode Htail]. simpl in Hnode, Htail.
  exists prev, tr0, retries, tr_obs, node, tail, tr_act.
  split; [done|]. split; [done|]. split; [done|]. split; [done|]. split; [done|].
  assert (H0f : ∀ f, (∀ e, f e = true → notable e = true) → cnt f tr0 = 0%nat).
  { intros f Hf. eapply quiet_cnt; [done|apply (deRefLink_aligned LHead)|done]. }
  assert (Hrs : cnt is_dec (concat retries) = 0%nat).
  { apply cnt_concat. eapply Forall_impl; [exact Hr|]. intros t Ht. simpl.
    apply (pop_front_step_size data prev Hprev _ _ Ht). }
  assert (Hrw : cnt is_write (concat retries) = 0%nat).
  { apply cnt_concat. eapply Forall_impl; [exact Hr|]. intros t Ht. simpl.
    by apply (pop_front_step_write data prev Hprev _ _ Ht). }
  pose proof (pop_front_act_size data prev node tail Hprev Hnode _ _ Hact) as Hsz.
  pose proof (pop_front_step_size data prev Hprev _ _ Hlast') as Hsz'.
  split; [|split; [|split]].
  - destruct b; simpl in Hsz; destruct Hsz as [Hnt _]; split; intros ?; done.
  - rewrite !cnt_app, (H0f _ is_dec_notable), Hrs. rewrite cnt_app in Hsz'.
    destruct b; lia.
  - intros ->. split.
    + by apply (pop_front_act_wins data prev node tail Hprev Hnode _ _ Hact).
    + intros x ->.
      pose proof (pop_front_act_wrote x prev node tail Hprev Hnode _ _ Hact eq_refl).
      pose proof (cnt_le is_write (wrote x) (concat retries) (wrote_is_write x)).
      rewrite !cnt_app, (H0f _ (wrote_notable x)).
      rewrite (quiet_cnt (wrote x) _ _ _ _ (wrote_notable x)
                 (pop_front_observe_quiet prev) Hobs). lia.
  - intros ->.
    pose proof (pop_front_step_write data prev Hprev _ _ Hlast') as Hw.
    rewrite cnt_app in Hw.
    rewrite !cnt_app, (H0f _ is_write_notable), Hrw. rewrite Hw; [lia|done].
Qed.
(** *** pop_back *)

Lemma pop_back_loop_no_clear fuel data node next :
  aligned node → aligned next →
  quiet clears_mark any (pop_back_loop iterMax threadMax N fuel data node next).
Proof.
  revert node. induction fuel as [|fuel IH]; intros node Hn Hx; cbn [pop_back_loop];
    quiet_tac.
Qed.

Lemma pop_back_no_clear data :
  quiet clears_mark any (pop_back iterMax threadMax N data).
Proof. unfold pop_back. quiet_tac. by apply pop_back_loop_no_clear. Qed.

Lemma pop_back_loop_write fuel data node next :
  aligned node → aligned next →
  post is_write (λ b n, b = false → n = 0%nat)
    (pop_back_loop iterMax threadMax N fuel data node next).
Proof.
  revert node. induction fuel as [|fuel IH]; intros node Hn Hx; cbn [pop_back_loop];
    post_tac; post_done.
  all: eapply post_weaken; [|by apply IH]; simpl; intros ? ? Hb ?; by rewrite Hb.
Qed.

Lemma pop_back_write data :
  post is_write (λ b n, b = false → n = 0%nat) (pop_back iterMax threadMax N data).
Proof. unfold pop_back. post_tac. by apply pop_back_loop_write. Qed.

End List.
End ListPaths.


(** ** Calls of the list that run together *)

Module ListPool.
Import Heap Atomic HazardMem LockFreeList HeapFacts Events ListCalls ListPaths.

Section Marks.
Context `{Config}.
Variable threadMax : Z.

(** An operation that is no [clears_mark] leaves the mark of a link. *)
Lemma exec_keeps_mark tid B (o : Op B) m node :
  marked m node →
  clears_mark (Ev o (exec threadMax B tid o m).2) = false →
  marked (exec threadMax B tid o m).1 node.
Proof.
  unfold marked. intros Hm Hc.
  destruct o; cbn [exec fst];
    rewrite ?load_link_upd_hazard, ?load_link_upd_td; try done;
    try (rewrite load_link_upd_node; by try done).
  - (* StoreLink *)
    rewrite load_link_store_link. case_decide as Hl; [|done]. subst l.
    simpl in Hc. by apply negb_false_iff in Hc.
  - (* CasLink *)
    unfold cas_link. case_bool_decide as Hold; cbn [fst]; [|done].
    rewrite load_link_store_link. case_decide as Hl; [|done]. subst l.
    simpl in Hc. rewrite <- Hold, Hm in Hc. simpl in Hc. by apply negb_false_iff in Hc.
  - (* ThreadDataGet *)
    unfold initThreadData. destruct (threads m !! tid); [done|].
    case_bool_decide; done.
  - (* StoreHazard *)
    destruct (0 <=? i); [|done]. by rewrite load_link_upd_td.
Qed.

(** The CAS that wins [node] finds its link unmarked and leaves it marked. *)
Lemma exec_win tid B (o : Op B) m node :
  win node (Ev o (exec threadMax B tid o m).2) = true →
  ¬ marked m node ∧ marked (exec threadMax B tid o m).1 node.
Proof.
  unfold marked. destruct o; try done. destruct l; try done.
  cbn [exec win fst snd]. unfold cas_link.
  case_bool_decide as Hold; cbn [fst snd]; [|done].
  rewrite !andb_true_iff, negb_true_iff, bool_decide_eq_true.
  intros [[[_ ->] Hval] Hd]. rewrite Hold, load_link_store_link, decide_True by done.
  split; [by rewrite Hd|done].
Qed.

Lemma wins_alter node e t logs :
  (wins node (alter (λ l, l ++ [e]) t logs) ≤
   wins node logs + (if win node e then 1 else 0))%nat.
Proof.
  unfold wins. revert t. induction logs as [|l logs IH]; intros [|t]; simpl; try lia.
  - rewrite cnt_app. simpl. destruct (win node e); lia.
  - specialize (IH t). unfold fmap, alter in *. destruct (win node e); lia.
Qed.

Lemma wins_replicate node n : wins node (replicate n []) = 0%nat.
Proof. unfold wins. induction n as [|n IH]; [done|]. exact IH. Qed.

Lemma wins_lookup node logs i l :
  logs !! i = Some l → (cnt (win node) l ≤ wins node logs)%nat.
Proof.
  unfold wins. revert i. induction logs as [|l' logs IH]; intros [|i]; simpl; try done.
  - intros [= ->]. lia.
  - intros Hi. specialize (IH _ Hi). unfold fmap in IH. lia.
Qed.

Lemma wins_lookup2 node logs i j li lj :
  i ≠ j → logs !! i = Some li → logs !! j = Some lj →
  (cnt (win node) li + cnt (win node) lj ≤ wins node logs)%nat.
Proof.
  revert i j. induction logs as [|l logs IH]; intros [|i] [|j] Hij; simpl; try done.
  - intros [= ->] Hj. pose proof (wins_lookup node _ _ _ Hj).
    unfold wins, fmap in *. simpl. lia.
  - intros Hi [= ->]. pose proof (wins_lookup node _ _ _ Hi).
    unfold wins, fmap in *. simpl. lia.
  - intros Hi Hj. assert (i ≠ j) as Hne by congruence.
    pose proof (IH _ _ Hne Hi Hj). unfold wins, fmap in *. simpl. lia.
Qed.

Lemma interleave_won_once {A} node sched (ps : list (M A)) logs m :
  Forall (quiet clears_mark (λ _, True)) ps →
  won_once node m logs →
  won_once node (interleave (exec threadMax) sched ps logs m).1.1
    (interleave (exec threadMax) sched ps logs m).2.
Proof.
  revert ps logs m. induction sched as [|t sched IH]; intros ps logs m Hq Hinv; [done|].
  cbn [interleave]. destruct (ps !! t) as [[a| | |B o k]|] eqn:Ht; try by apply IH.
  destruct (exec threadMax B t o m) as [m' b] eqn:He.
  pose proof (Forall_lookup_1 _ _ _ _ Hq Ht) as Hv. cbn [quiet] in Hv.
  destruct (Hv b) as [Hc Hk].
  apply IH; [by apply Forall_insert|].
  pose proof (wins_alter node (Ev o b) t logs) as Hle.
  destruct Hinv as [H1 Hm].
  pose proof (exec_keeps_mark t B o m node) as Hkeep.
  pose proof (exec_win t B o m node) as Hwin.
  rewrite He in Hkeep, Hwin. cbn [fst snd] in Hkeep, Hwin.
  destruct (win node (Ev o b)) eqn:Hw.
  - destruct (Hwin eq_refl) as [Hnm Hm'].
    assert (wins node logs = 0%nat) as H0.
    { destruct (wins node logs); [done|]. exfalso. apply Hnm, Hm. lia. }
    split; [lia|done].
  - split; [lia|]. intros ?. apply Hkeep; [apply Hm; lia|done].
Qed.

End Marks.

Section Calls.
Variable iterMax : Z.
Variable threadMax : Z.
Variable N : nat.

Lemma prog_no_clear c : quiet clears_mark (λ _, True) (prog iterMax threadMax N c).
Proof.
  destruct c; cbn [prog].
  - unfold mbind, Prog_bind. eapply quiet_bind; [apply erase_no_clear|]. by intros [? ?] _.
  - apply pop_front_no_clear.
  - apply pop_back_no_clear.
Qed.

Lemma prog_erase_Path it data tr b :
  Path (prog iterMax threadMax N (call_erase it data)) tr (Done b) →
  ∃ it', Path (erase iterMax threadMax N it data) tr (Done (b, it')).
Proof.
  cbn [prog]. unfold mbind, Prog_bind.
  intros [(tr1 & [e it'] & tr2 & H1 & [-> [= <-]] & ->)|[[_ [=]]|[_ [=]]]]%Path_bind.
  exists it'. by rewrite app_nil_r.
Qed.

Lemma pool_returned calls sched m i c b :
  calls !! i = Some c → (pool iterMax threadMax N calls sched m).1.2 !! i = Some (Ret b) →
  ∃ log, (pool iterMax threadMax N calls sched m).2 !! i = Some log ∧ Path (prog iterMax threadMax N c) log (Done b).
Proof.
  intros Hc Hi. apply interleave_returned in Hi as (p0 & log & H0 & Hlog & Hp).
  rewrite list_lookup_fmap, Hc in H0. injection H0 as <-. by exists log.
Qed.

Lemma pool_won_once calls sched m node :
  (wins node (pool iterMax threadMax N calls sched m).2 ≤ 1)%nat.
Proof.
  apply (interleave_won_once (H := cfg iterMax)).
  - apply Forall_fmap, Forall_forall. intros c _. apply prog_no_clear.
  - unfold won_once, start. rewrite wins_replicate. split; lia.
Qed.



(** A call of the list that returns false has written no output. *)
Lemma pool_false_no_write calls sched m i :
  (pool iterMax threadMax N calls sched m).1.2 !! i = Some (Ret false) →
  ∃ log, (pool iterMax threadMax N calls sched m).2 !! i = Some log ∧ cnt is_write log = 0%nat.
Proof.
  intros Hi.
  assert (is_Some (calls !! i)) as [c Hc].
  { apply lookup_lt_is_Some. apply lookup_lt_Some in Hi.
    unfold pool in Hi. rewrite interleave_length in Hi. by rewrite length_fmap in Hi. }
  destruct (pool_returned calls sched m i c false Hc Hi) as (log & Hlog & Hp).
  exists log. split; [done|]. destruct c as [it data|data|data].
  - apply prog_erase_Path in Hp as [it' Hp].
    apply erase_paths in Hp as (_ & _ & _ & _ & Hf). by apply Hf.
  - cbn [prog] in Hp. apply pop_front_paths in Hp
      as (prev & tr0 & retries & tr_obs & node & tail & tr_act & -> & Hp).
    by apply Hp.
  - cbn [prog] in Hp. by apply (pop_back_write iterMax threadMax N data _ _ Hp).
Qed.

End Calls.
End ListPool.

(** ** The list *)

Module ListFacts.
Import Heap Atomic HazardMem LockFreeList HeapFacts.

(** C8.  [size()] returns the signed counter [_size] clamped to zero: the
    result is never negative and is 0 whenever the counter is at most 0;
    the call changes nothing. *)
Theorem size_clamps_to_zero `{Config} (threadMax : Z) (tid : nat) (m : Mem) :
  run (exec threadMax) tid size m = (m, Done (Z.max 0 (l_size m))) ∧
  0 ≤ size_of (l_size m) ∧
  (l_size m ≤ 0 → size_of (l_size m) = 0) ∧
  (0 < l_size m → size_of (l_size m) = l_size m).
Proof.
  unfold size, size_of. simpl.
  destruct (Z.ltb_spec 0 (l_size m)); repeat split; try lia; do 2 f_equal; lia.
Qed.

End ListFacts.

(** ** The queue *)

Module QueueFacts.
Import Queue.

(** The runs of a call that no other thread interferes with. *)
Abbreviation alone := (run exec).

Lemma pop_loop_alone fuel out tid m :
  (alone tid (pop_loop fuel out) m).2 = Done None →
  vars (alone tid (pop_loop fuel out) m).1 = vars m.
Proof.
  revert m. induction fuel as [|fuel IH]; intros m; [done|].
  simpl. rewrite bool_decide_eq_false_2 by naive_solver.
  repeat case_bool_decide; simpl; try done.
  - rewrite bool_decide_eq_true_2 by done. intros Hr. by rewrite (IH _ Hr).
  - apply IH.
  - destruct out as [r|]; simpl; by rewrite bool_decide_eq_true_2.
Qed.

Lemma pop_alone fuel out tid m :
  (alone tid (pop fuel out) m).2 = Done false →
  vars (alone tid (pop fuel out) m).1 = vars m.
Proof.
  unfold pop, mbind, Prog_bind. rewrite run_bind.
  pose proof (pop_loop_alone fuel out tid m) as Hl.
  destruct (alone tid (pop_loop fuel out) m) as [m' [[h|]| |]]; simpl in *; try done.
  intros _. by apply Hl.
Qed.

Lemma front_alone fuel out tid m :
  (alone tid (front fuel out) m).2 = Done false →
  vars (alone tid (front fuel out) m).1 = vars m.
Proof.
  revert m. induction fuel as [|fuel IH]; intros m; [done|].
  simpl. rewrite bool_decide_eq_false_2 by naive_solver.
  destruct (_ && _); [done|].
  case_bool_decide; simpl; [apply IH|].
  by rewrite bool_decide_eq_true_2.
Qed.

Lemma back_alone fuel out tid m :
  (alone tid (back fuel out) m).2 = Done false →
  vars (alone tid (back fuel out) m).1 = vars m.
Proof.
  revert m. induction fuel as [|fuel IH]; intros m; [done|].
  simpl. rewrite bool_decide_eq_false_2 by naive_solver.
  repeat case_bool_decide; simpl; try done.
  - rewrite bool_decide_eq_true_2 by done. intros Hr. by rewrite (IH _ Hr).
  - rewrite bool_decide_eq_true_2 by done. simpl.
    by rewrite bool_decide_eq_true_2.
Qed.
End QueueFacts.

(** ** Calls that report absence *)

Module OutputFacts.

(** C5, as the code has it.  A call of [pop_front], [pop_back] or [erase] of the list
    that returns false has written no output, under any schedule with
    other such calls.  A call of [pop], [front] or [back] of the queue
    that returns false has left the outputs as they were when no other
    thread takes a step during the call; with interference these three
    copy the value into the output before the CAS or the re-read that
    decides the iteration, and may return false later. *)
Theorem false_leaves_output_untouched :
  (∀ iterMax threadMax N calls sched m i,
     (ListCalls.pool iterMax threadMax N calls sched m).1.2 !! i = Some (Ret false) →
     ∃ log, (ListCalls.pool iterMax threadMax N calls sched m).2 !! i = Some log ∧
            cnt Events.is_write log = 0%nat) ∧
  (∀ fuel out tid m,
     (run Queue.exec tid (Queue.pop fuel out) m).2 = Done false →
     Queue.vars (run Queue.exec tid (Queue.pop fuel out) m).1 = Queue.vars m) ∧
  (∀ fuel out tid m,
     (run Queue.exec tid (Queue.front fuel out) m).2 = Done false →
     Queue.vars (run Queue.exec tid (Queue.front fuel out) m).1 = Queue.vars m) ∧
  (∀ fuel out tid m,
     (run Queue.exec tid (Queue.back fuel out) m).2 = Done false →
     Queue.vars (run Queue.exec tid (Queue.back fuel out) m).1 = Queue.vars m).
Proof.
  split; [|split; [|split]].
  - intros iterMax threadMax N calls sched m i. apply ListPool.pool_false_no_write.
  - apply QueueFacts.pop_alone.
  - apply QueueFacts.front_alone.
  - apply QueueFacts.back_alone.
Qed.

End OutputFacts.

(** ** The deque *)

Module SpscDequeFacts.
Import SpscDeque.

Lemma setCapacity_same d : setCapacity (_capacity d) d = d.
Proof. unfold setCapacity. by rewrite Z.eqb_refl. Qed.

Lemma setCapacity_fields capacity d :
  capacity ≠ _capacity d →
  _capacity (setCapacity capacity d) = capacity ∧
  _size (setCapacity capacity d) = Z.min capacity (_size d) ∧
  _head (setCapacity capacity d) = 0 ∧
  _tail (setCapacity capacity d) = Z.min capacity (_size d) ∧
  allocs (setCapacity capacity d) = (if 0 <? capacity then S (allocs d) else allocs d).
Proof.
  intros Hne. unfold setCapacity.
  destruct (Z.eqb_spec capacity (_capacity d)); [done|]. simpl.
  destruct (Z.ltb_spec capacity (_size d)); repeat split; lia.
Qed.

(** C9, as the code has it.  [resize(size)] leaves the deque with [size]
    elements in a full ring of capacity [size], so [_tail = _head].  The
    backing array is reallocated and the ring reseated at [_head = 0] only
    when [size] differs from the capacity: [setCapacity] returns at once
    when it is asked for the capacity the deque has, and [resize] then
    keeps the array and [_head] and fills the free slots. *)
Theorem resize_reallocates_on_change (size initVal : Z) (d : SpscDeque) :
  let d' := resize size initVal d in
  _size d' = size ∧ _capacity d' = size ∧ _tail d' = _head d' ∧
  (size ≠ _capacity d →
     _head d' = 0 ∧
     allocs d' = (if 0 <? size then S (allocs d) else allocs d)) ∧
  (size = _capacity d →
     _head d' = _head d ∧ allocs d' = allocs d ∧
     length (_data d') = length (_data d)).
Proof.
  intros d'. subst d'. unfold resize. simpl.
  destruct (decide (size = _capacity d)) as [->|Hne].
  - rewrite setCapacity_same.
    do 3 (split; [done|]). split; [done|].
    intros _. do 2 (split; [done|]).
    generalize (_data d) 0.
    induction (Z.to_nat (sdt (_capacity d - _size d))) as [|n IH]; intros l i; simpl; [done|].
    rewrite IH. unfold construct_at. by rewrite length_insert.
  - destruct (setCapacity_fields size d Hne) as (Hc & Hs & Hh & Ht & Ha).
    repeat split; try done.
Qed.

End SpscDequeFacts.

(** ** Runs on concrete memories *)

Module Scenarios.
Import Heap Atomic HazardMem LockFreeList HeapFacts Events Reclaim ListCalls Runs.
Import HazardMemFacts ListPaths ListPool.

Section Frame.
Context `{Config}.
Variable threadMax : Z.

Lemma run_links_only {A} tid (p : M A) m :
  links_only p →
  ∃ m' a, run (exec threadMax) tid p m = (m', Done a) ∧
    threads m' = threads m ∧ pools m' = pools m ∧ calls m' = calls m ∧
    ∀ q, n_threadId (node_at m' q) = n_threadId (node_at m q).
Proof.
  revert m. induction p as [a| | |B o k IH]; intros m; simpl; try done.
  - intros _. by exists m, a.
  - intros [Ho Hk].
    assert (Hex : threads (exec threadMax B tid o m).1 = threads m ∧
                  pools (exec threadMax B tid o m).1 = pools m ∧
                  calls (exec threadMax B tid o m).1 = calls m ∧
                  ∀ q, n_threadId (node_at (exec threadMax B tid o m).1 q)
                       = n_threadId (node_at m q)).
    { destruct o; try done; cbn [exec fst].
      - repeat split; try done. intros q. rewrite node_at_upd_node. by case_decide; subst.
      - repeat split; try done. intros q. rewrite node_at_upd_node. by case_decide; subst.
      - repeat split; try by destruct l. intros q. apply header_store_link.
      - unfold cas_link. case_bool_decide; cbn [fst]; [|done].
        repeat split; try by destruct l. intros q. apply header_store_link. }
    destruct (exec threadMax B tid o m) as [m1 b]. cbn [fst] in Hex.
    destruct (IH b m1 (Hk b)) as (m' & a & Hrun & Ht & Hp & Hc & Hn).
    destruct Hex as (Ht1 & Hp1 & Hc1 & Hn1).
    exists m', a. split; [done|]. rewrite Ht, Hp, Hc.
    repeat split; try done. intros q. by rewrite Hn.
Qed.

End Frame.

(** [terminateNode] of the list writes links and reference counts only. *)
Lemma List_terminate_frame iterMax threadMax :
  terminate_frame (H := ListConfig iterMax) threadMax (terminateNode iterMax).
Proof.
  intros tid node concurrent m.
  destruct (run_links_only (H := ListConfig iterMax) threadMax tid
              (terminateNode iterMax node concurrent) m) as (m' & [] & Hrun & Hm').
  { unfold terminateNode, storeRef, casRef.
    destruct concurrent; simpl;
      repeat first [ split; [done|] | intros ? | case_bool_decide
                   | match goal with b : bool |- _ => destruct b end
                   | progress simpl | done ]. }
  by exists m'.
Qed.

(** C3, counterexample: the node that [createNode] returns has [ref] 0;
    the 1 is the count of the calling thread's hazard record. *)
Lemma createNode_leaves_ref_zero :
  (run ex 0 HazardMem.createNode Mem_new).2 = Done 2 ∧
  n_ref (node_at (run ex 0 HazardMem.createNode Mem_new).1 2) = 0 ∧
  n_ref (node_at (run ex 0 HazardMem.createNode Mem_new).1 2) ≠ 1 ∧
  h_ref (hazard_at (run ex 0 HazardMem.createNode Mem_new).1 0 2) = 1.
Proof. vm_compute. repeat split; done. Qed.


(** One call wins the node, takes the 5 and decrements [_size]; the other
    returns false and leaves its output. *)
Lemma two_erases_one_winner :
  two_erases.1.2 = [Ret true; Ret false] ∧
  wins 6 two_erases.2 = 1%nat ∧
  l_size two_iterators = 1 ∧ l_size two_erases.1.1 = 0 ∧
  vars two_erases.1.1 !! 0%nat = Some 5 ∧ vars two_erases.1.1 !! 1%nat = None.
Proof. vm_compute. repeat split; reflexivity. Qed.


End Scenarios.

Module QueueScenarios.
Import Queue QueueRuns.

(** Alone on the empty queue, [pop] returns false and writes nothing. *)
Lemma pop_of_empty_queue :
  (run exec 0 (pop 5 (Some 0%nat)) Queue_new).2 = Done false ∧
  vars (run exec 0 (pop 5 (Some 0%nat)) Queue_new).1 = vars Queue_new.
Proof. vm_compute. split; reflexivity. Qed.

(** C5, counterexample: the call of thread 0 returns false, its output
    holds the 7 that the other call has popped. *)
Lemma pop_false_after_writing_output :
  vars holds_7 !! 0%nat = None ∧
  two_pops.1.2 = [Ret false; Ret true] ∧
  vars two_pops.1.1 !! 0%nat = Some 7.
Proof. vm_compute. repeat split; reflexivity. Qed.

End QueueScenarios.

Module DequeScenarios.
Import SpscDeque DequeRuns.

(** C9, counterexample: [resize(3)] on a deque of capacity 3 allocates
    nothing, and leaves [_head = 1] and [_tail = 1]. *)
Lemma resize_to_capacity_keeps_the_array :
  _capacity shifted = 3 ∧ _head shifted = 1 ∧ allocs shifted = 1%nat ∧
  allocs (resize 3 0 shifted) = 1%nat ∧
  _head (resize 3 0 shifted) = 1 ∧ _tail (resize 3 0 shifted) = 1 ∧
  _size (resize 3 0 shifted) = 3.
Proof. vm_compute. repeat split; reflexivity. Qed.

End DequeScenarios.

(** ** The deque between calls *)

Module DequeFacts.
Import SpscDeque DequeInv.

Lemma szt_id z : 0 ≤ z < 2 ^ 64 → szt z = z.
Proof. intros. unfold szt. by rewrite Z.mod_small. Qed.

Lemma elements_lookup d i :
  elements d !! i =
  if bool_decide (i < Z.to_nat (_size d))%nat
  then Some (default None (_data d !! Z.to_nat ((_head d + Z.of_nat i) `mod` _capacity d)))
  else None.
Proof.
  unfold elements, ringIndex. rewrite list_lookup_fmap.
  case_bool_decide as Hi.
  - by rewrite lookup_seq_lt.
  - rewrite lookup_seq_ge by lia. done.
Qed.

Lemma length_elements d : length (elements d) = Z.to_nat (_size d).
Proof. unfold elements. by rewrite length_fmap, length_seq. Qed.

(** [std::copy]: the slots written and the slots left. *)
Lemma copy_n_lookup n src first dst out i :
  (out + n ≤ length dst)%nat →
  copy_n n src first dst out !! i =
  if bool_decide (out ≤ i < out + n)%nat
  then Some (default None (src !! (first + (i - out))%nat))
  else dst !! i.
Proof.
  revert first dst out. induction n as [|n IH]; intros first dst out Hlen; simpl.
  - case_bool_decide; [lia|done].
  - rewrite IH by (rewrite length_insert; lia).
    destruct (decide (i = out)) as [->|Hne].
    + rewrite bool_decide_eq_false_2 by lia. rewrite bool_decide_eq_true_2 by lia.
      rewrite list_lookup_insert_eq by lia. do 3 f_equal. lia.
    + rewrite list_lookup_insert_ne by done.
      repeat case_bool_decide; try lia; try done. do 3 f_equal. lia.
Qed.

Lemma length_copy_n n src first dst out :
  length (copy_n n src first dst out) = length dst.
Proof.
  revert first dst out. induction n as [|n IH]; intros; simpl; [done|].
  by rewrite IH, length_insert.
Qed.

Lemma mod_wrap a b : 0 < b → b ≤ a < 2 * b → a `mod` b = a - b.
Proof. intros. symmetry. apply (Z.mod_unique a b 1); lia. Qed.

(** The array and the fields after [setCapacity] to another capacity. *)
Lemma setCapacity_data c d i :
  wf d → 0 ≤ c < 2 ^ 63 → c ≠ _capacity d →
  (i < Z.to_nat (Z.min c (_size d)))%nat →
  default None (_data (setCapacity c d) !! i) =
  default None (_data d !! Z.to_nat ((_head d + Z.of_nat i) `mod` _capacity d)).
Proof.
  intros [Hcap Hlen Hsize Hhead Htail] Hc Hne Hi.
  destruct d as [data cap size head tail al]; simpl in *.
  unfold setCapacity; simpl.
  destruct (Z.eqb_spec c cap) as [|_]; [done|]. simpl.
  destruct (Z.ltb_spec 0 c) as [Hc0|]; [|lia].
  destruct (Z.ltb_spec 0 size) as [Hs0|]; [|lia].
  set (size' := if c <? size then c else size).
  assert (Hsize' : size' = Z.min c size) by (unfold size'; destruct (Z.ltb_spec c size); lia).
  assert (Hcap0 : 0 < cap) by lia.
  assert (Hh : head < cap) by lia.
  unfold ringIndex; simpl. rewrite (szt_id (head + size')) by lia.
  destruct (Z.ltb_spec head ((head + size') `mod` cap)) as [Hcont|Hsplit].
  - assert (head + size' < cap) as Hlt.
    { destruct (Z.lt_ge_cases (head + size') cap) as [|Hge]; [done|].
      rewrite mod_wrap in Hcont by lia. lia. }
    rewrite Z.mod_small in Hcont |- * by lia. rewrite Z.mod_small by lia.
    unfold copy. rewrite copy_n_lookup by (rewrite length_replicate; lia).
    rewrite bool_decide_eq_true_2 by lia. simpl. do 2 f_equal. lia.
  - assert (cap ≤ head + size') as Hge.
    { destruct (Z.lt_ge_cases (head + size') cap) as [Hlt|]; [|done].
      rewrite Z.mod_small in Hsplit by lia. lia. }
    rewrite mod_wrap by lia. rewrite (szt_id (cap - head)) by lia.
    unfold copy.
    rewrite copy_n_lookup by (rewrite length_copy_n, length_replicate; lia).
    case_bool_decide as Hi2.
    + simpl. rewrite mod_wrap by lia. do 2 f_equal. lia.
    + rewrite copy_n_lookup by (rewrite length_replicate; lia).
      rewrite bool_decide_eq_true_2 by lia. simpl.
      rewrite Z.mod_small by lia. do 2 f_equal. lia.
Qed.

Lemma length_setCapacity c d :
  0 ≤ c → wf d → length (_data (setCapacity c d)) = Z.to_nat c.
Proof.
  intros Hc [Hcap Hlen Hsize Hhead Htail]. unfold setCapacity.
  destruct (Z.eqb_spec c (_capacity d)) as [->|Hne]; [done|]. simpl.
  destruct (Z.ltb_spec 0 c); [|simpl; lia].
  destruct (Z.ltb_spec 0 (_size d)); [|by rewrite length_replicate].
  unfold copy. destruct (_ <? _); rewrite ?length_copy_n, length_replicate; done.
Qed.

Lemma setCapacity_wf c d :
  wf d → 0 ≤ c < 2 ^ 63 → _size d < c ∨ c = _capacity d → wf (setCapacity c d).
Proof.
  intros Hwf Hc Hgrow. destruct (decide (c = _capacity d)) as [->|Hne].
  { by rewrite SpscDequeFacts.setCapacity_same. }
  destruct (SpscDequeFacts.setCapacity_fields c d Hne) as (Hcap & Hsz & Hh & Ht & _).
  pose proof (length_setCapacity c d ltac:(lia) Hwf) as Hlen.
  destruct Hwf as [Hcap0 Hlen0 Hsize0 Hhead0 Htail0].
  split; rewrite ?Hcap, ?Hsz, ?Hh, ?Ht; try done; try lia.
  destruct (Z.eqb_spec c 0); [lia|]. rewrite Z.mod_small; lia.
Qed.

Lemma setCapacity_elements c d :
  wf d → 0 ≤ c < 2 ^ 63 →
  elements (setCapacity c d) = take (Z.to_nat c) (elements d).
Proof.
  intros Hwf Hc. destruct (decide (c = _capacity d)) as [->|Hne].
  { rewrite SpscDequeFacts.setCapacity_same, take_ge; [done|].
    rewrite length_elements. destruct Hwf. lia. }
  destruct (SpscDequeFacts.setCapacity_fields c d Hne) as (Hcap & Hsz & Hh & Ht & _).
  apply list_eq. intros i. rewrite lookup_take, !elements_lookup, Hsz, Hh, Hcap.
  pose proof (wf_size d Hwf).
  destruct (decide (i < Z.to_nat (Z.min c (_size d)))%nat) as [Hi|Hi].
  - rewrite decide_True by lia. rewrite !bool_decide_eq_true_2 by lia.
    f_equal. rewrite Z.add_0_l, Z.mod_small by lia. rewrite Nat2Z.id.
    by apply setCapacity_data.
  - rewrite bool_decide_eq_false_2 by lia. case_decide; [|done].
    rewrite bool_decide_eq_false_2 by lia. done.
Qed.

(** Steps round the ring. *)
Lemma ringInc_mod d x :
  0 < _capacity d < 2 ^ 63 →
  ringInc d (x `mod` _capacity d) = (x + 1) `mod` _capacity d.
Proof.
  intros Hc. unfold ringInc. rewrite szt_id by lia.
  pose proof (Z.mod_pos_bound x (_capacity d) ltac:(lia)) as Hr.
  rewrite <- (Z.add_mod_idemp_l x) by lia.
  destruct (Z.leb_spec (_capacity d - 1) (x `mod` _capacity d)).
  - replace (x `mod` _capacity d + 1) with (_capacity d) by lia.
    by rewrite Z.mod_same by lia.
  - rewrite szt_id by lia. by rewrite (Z.mod_small (_ + 1)) by lia.
Qed.

Lemma ringDec_mod d x :
  0 < _capacity d < 2 ^ 63 →
  ringDec d (x `mod` _capacity d) = (x - 1) `mod` _capacity d.
Proof.
  intros Hc. unfold ringDec.
  pose proof (Z.mod_pos_bound x (_capacity d) ltac:(lia)) as Hr.
  rewrite <- (Zminus_mod_idemp_l x).
  destruct (Z.eqb_spec (x `mod` _capacity d) 0) as [->|].
  - rewrite szt_id by lia. apply (Z.mod_unique _ _ (-1)); lia.
  - rewrite szt_id by lia. by rewrite (Z.mod_small (_ - 1)) by lia.
Qed.

Lemma ring_inj cap h i j :
  0 < cap → 0 ≤ h < cap → 0 ≤ i < cap → 0 ≤ j < cap →
  (h + i) `mod` cap = (h + j) `mod` cap → i = j.
Proof.
  intros Hc Hh Hi Hj.
  destruct (Z.lt_ge_cases (h + i) cap), (Z.lt_ge_cases (h + j) cap);
    rewrite ?(Z.mod_small (h + i)), ?(Z.mod_small (h + j)),
            ?(mod_wrap (h + i)), ?(mod_wrap (h + j)) by lia; lia.
Qed.

Lemma expand_eq d :
  wf d → can_grow d →
  expand d = setCapacity (_capacity d + _capacity d / 2 + 1) d.
Proof.
  intros [Hcap _ _ _ _] Hg. unfold can_grow in Hg. unfold expand.
  assert (0 ≤ _capacity d / 2) by (apply Z.div_pos; lia).
  rewrite (szt_id (_ + _ / 2)) by lia. by rewrite szt_id by lia.
Qed.

Lemma room_spec d :
  wf d → can_grow d →
  wf (room d) ∧ _size (room d) = _size d ∧ _size (room d) < _capacity (room d) ∧
  elements (room d) = elements d ∧
  (_size d < _capacity d → room d = d) ∧
  (_size d = _capacity d →
     _capacity (room d) = _capacity d + _capacity d / 2 + 1 ∧
     allocs (room d) = S (allocs d)).
Proof.
  intros Hwf Hg. pose proof Hwf as [Hcap Hlen Hsize Hhead Htail].
  unfold room. destruct (Z.eqb_spec (_size d) (_capacity d)) as [Heq|Hne].
  - rewrite expand_eq by done. unfold can_grow in Hg.
    assert (0 ≤ _capacity d / 2) by (apply Z.div_pos; lia).
    set (c := _capacity d + _capacity d / 2 + 1).
    assert (c ≠ _capacity d) as Hc by (unfold c; lia).
    destruct (SpscDequeFacts.setCapacity_fields c d Hc) as (Hcap' & Hsz & Hh & Ht & Ha).
    split; [apply setCapacity_wf; unfold c; (done || lia)|].
    rewrite Hsz, Hcap'. split; [unfold c; lia|]. split; [unfold c; lia|].
    split.
    { rewrite setCapacity_elements by (done || unfold c; lia).
      apply take_ge. rewrite length_elements. unfold c. lia. }
    split; [lia|]. intros _. split; [done|]. rewrite Ha.
    destruct (Z.ltb_spec 0 c); [done|unfold c in *; lia].
  - repeat split; try done; try lia.
Qed.

Lemma head_mod d : wf d → 0 < _capacity d → _head d `mod` _capacity d = _head d.
Proof. intros [_ _ _ Hh _] Hc. apply Z.mod_small. lia. Qed.

Lemma tail_mod d :
  wf d → 0 < _capacity d → _tail d = (_head d + _size d) `mod` _capacity d.
Proof.
  intros [_ _ _ _ Ht] Hc. rewrite Ht. by destruct (Z.eqb_spec (_capacity d) 0); [lia|].
Qed.

(** A push into a deque with room. *)
Lemma push_back_room v d :
  wf d → _size d < _capacity d →
  let d' := mkDeque (construct_at (_tail d) v (_data d)) (_capacity d)
              (szt (_size d + 1)) (_head d) (ringInc d (_tail d)) (allocs d) in
  wf d' ∧ elements d' = elements d ++ [Some v].
Proof.
  intros Hwf Hlt d'. pose proof Hwf as [Hcap Hlen Hsize Hhead Htail].
  assert (0 < _capacity d) as Hc by lia.
  pose proof (tail_mod d Hwf Hc) as Ht.
  pose proof (Z.mod_pos_bound (_head d + _size d) (_capacity d) Hc) as Htb.
  assert (Hsz : szt (_size d + 1) = _size d + 1) by (apply szt_id; lia).
  split.
  - subst d'. split; simpl; rewrite ?Hsz; try lia.
    + unfold construct_at. by rewrite length_insert.
    + destruct (Z.eqb_spec (_capacity d) 0); [lia|].
      rewrite Ht, ringInc_mod by lia. f_equal. lia.
  - apply list_eq. intros i. rewrite elements_lookup. subst d'. simpl. rewrite Hsz.
    destruct (decide (i < Z.to_nat (_size d))%nat) as [Hi|Hi].
    + rewrite lookup_app_l by (rewrite length_elements; lia).
      rewrite elements_lookup, !bool_decide_eq_true_2 by lia.
      unfold construct_at. rewrite list_lookup_insert_ne; [done|].
      rewrite Ht. intros Heq. apply Z2Nat.inj in Heq; try lia.
      * apply ring_inj in Heq; lia.
      * apply Z.mod_pos_bound. lia.
    + rewrite lookup_app_r by (rewrite length_elements; lia).
      rewrite length_elements.
      destruct (decide (i = Z.to_nat (_size d))) as [->|Hne].
      * rewrite bool_decide_eq_true_2 by lia. rewrite Nat.sub_diag. simpl.
        rewrite Z2Nat.id by lia. rewrite <- Ht.
        unfold construct_at. rewrite list_lookup_insert_eq by lia. done.
      * rewrite bool_decide_eq_false_2 by lia.
        by destruct (i - Z.to_nat (_size d))%nat as [|[|k]] eqn:E; [lia| |].
Qed.

Lemma push_front_room v d :
  wf d → _size d < _capacity d →
  let d' := mkDeque (construct_at (ringDec d (_head d)) v (_data d)) (_capacity d)
              (szt (_size d + 1)) (ringDec d (_head d)) (_tail d) (allocs d) in
  wf d' ∧ elements d' = Some v :: elements d.
Proof.
  intros Hwf Hlt d'. pose proof Hwf as [Hcap Hlen Hsize Hhead Htail].
  assert (0 < _capacity d) as Hc by lia.
  pose proof (tail_mod d Hwf Hc) as Ht.
  assert (Hsz : szt (_size d + 1) = _size d + 1) by (apply szt_id; lia).
  assert (Hh' : ringDec d (_head d) = (_head d - 1) `mod` _capacity d).
  { rewrite <- (head_mod d Hwf Hc) at 1. apply ringDec_mod. lia. }
  pose proof (Z.mod_pos_bound (_head d - 1) (_capacity d) Hc) as Hhb.
  assert (Hidx : ∀ i, ((_head d - 1) `mod` _capacity d + (i + 1)) `mod` _capacity d
                      = (_head d + i) `mod` _capacity d).
  { intros i. rewrite Z.add_mod_idemp_l by lia. f_equal. lia. }
  split.
  - subst d'. split; simpl; rewrite ?Hsz, ?Hh'; try lia.
    + unfold construct_at. by rewrite length_insert.
    + destruct (Z.eqb_spec (_capacity d) 0); [lia|]. by rewrite Ht, Hidx.
  - apply list_eq. intros i. rewrite elements_lookup. subst d'. simpl. rewrite Hsz, Hh'.
    destruct i as [|i].
    + rewrite bool_decide_eq_true_2 by lia. simpl. rewrite Z.add_0_r.
      rewrite Z.mod_mod by lia. unfold construct_at.
      rewrite list_lookup_insert_eq by lia. done.
    + simpl. rewrite elements_lookup.
      replace (Z.of_nat (S i)) with (Z.of_nat i + 1) by lia. rewrite Hidx.
      destruct (decide (i < Z.to_nat (_size d))%nat) as [Hi|Hi].
      * rewrite !bool_decide_eq_true_2 by lia.
        unfold construct_at. rewrite list_lookup_insert_ne; [done|].
        intros Heq. apply Z2Nat.inj in Heq; try lia.
        -- rewrite <- (Hidx (Z.of_nat i)) in Heq.
           rewrite <- (Z.add_0_r ((_head d - 1) `mod` _capacity d)) in Heq at 1.
           rewrite <- (Z.mod_small (_ + 0) (_capacity d)) in Heq at 1 by lia.
           apply ring_inj in Heq; lia.
        -- apply Z.mod_pos_bound. lia.
      * rewrite !bool_decide_eq_false_2 by lia. done.
Qed.

(** A pop from a deque that holds an element. *)
Lemma pop_front_some d :
  wf d → 0 < _size d →
  let e := default None (_data d !! Z.to_nat (_head d)) in
  let d' := mkDeque (destroy_at (_head d) (_data d)) (_capacity d) (szt (_size d - 1))
              (ringInc d (_head d)) (_tail d) (allocs d) in
  pop_front d = (true, e, d') ∧ wf d' ∧ elements d = e :: elements d'.
Proof.
  intros Hwf Hpos e d'. pose proof Hwf as [Hcap Hlen Hsize Hhead Htail].
  assert (0 < _capacity d) as Hc by lia.
  pose proof (tail_mod d Hwf Hc) as Ht.
  assert (Hsz : szt (_size d - 1) = _size d - 1) by (apply szt_id; lia).
  assert (Hh' : ringInc d (_head d) = (_head d + 1) `mod` _capacity d).
  { rewrite <- (head_mod d Hwf Hc) at 1. apply ringInc_mod. lia. }
  pose proof (Z.mod_pos_bound (_head d + 1) (_capacity d) Hc) as Hhb.
  assert (Hidx : ∀ i, ((_head d + 1) `mod` _capacity d + i) `mod` _capacity d
                      = (_head d + (i + 1)) `mod` _capacity d).
  { intros i. rewrite Z.add_mod_idemp_l by lia. f_equal. lia. }
  split; [|split].
  - unfold pop_front. by destruct (Z.eqb_spec (_size d) 0); [lia|].
  - subst d'. split; simpl; rewrite ?Hsz, ?Hh'; try lia.
    + unfold destroy_at. by rewrite length_insert.
    + destruct (Z.eqb_spec (_capacity d) 0); [lia|].
      rewrite Ht, Hidx. f_equal. lia.
  - apply list_eq. intros i. rewrite elements_lookup.
    destruct i as [|i].
    + rewrite bool_decide_eq_true_2 by lia. simpl. rewrite Z.add_0_r.
      by rewrite (head_mod d Hwf Hc).
    + simpl. rewrite elements_lookup. subst d'. simpl. rewrite Hsz, Hh', Hidx.
      replace (Z.of_nat (S i)) with (Z.of_nat i + 1) by lia.
      destruct (decide (S i < Z.to_nat (_size d))%nat) as [Hi|Hi].
      * rewrite !bool_decide_eq_true_2 by lia.
        unfold destroy_at. rewrite list_lookup_insert_ne; [done|].
        intros Heq. apply Z2Nat.inj in Heq; try lia.
        -- rewrite <- (head_mod d Hwf Hc) in Heq at 1.
           rewrite <- (Z.add_0_r (_head d)) in Heq at 1.
           apply ring_inj in Heq; lia.
        -- apply Z.mod_pos_bound. lia.
      * rewrite !bool_decide_eq_false_2 by lia. done.
Qed.

Lemma pop_back_some d :
  wf d → 0 < _size d →
  let t := ringDec d (_tail d) in
  let e := default None (_data d !! Z.to_nat t) in
  let d' := mkDeque (destroy_at t (_data d)) (_capacity d) (szt (_size d - 1))
              (_head d) t (allocs d) in
  pop_back d = (true, e, d') ∧ wf d' ∧ elements d = elements d' ++ [e].
Proof.
  intros Hwf Hpos t e d'. pose proof Hwf as [Hcap Hlen Hsize Hhead Htail].
  assert (0 < _capacity d) as Hc by lia.
  pose proof (tail_mod d Hwf Hc) as Ht.
  assert (Hsz : szt (_size d - 1) = _size d - 1) by (apply szt_id; lia).
  assert (Ht' : t = (_head d + (_size d - 1)) `mod` _capacity d).
  { unfold t. rewrite Ht, ringDec_mod by lia. f_equal. lia. }
  pose proof (Z.mod_pos_bound (_head d + (_size d - 1)) (_capacity d) Hc) as Htb.
  split; [|split].
  - unfold pop_back. by destruct (Z.eqb_spec (_size d) 0); [lia|].
  - subst d'. split; simpl; rewrite ?Hsz; try lia.
    + unfold destroy_at. by rewrite length_insert.
    + by destruct (Z.eqb_spec (_capacity d) 0); [lia|].
  - apply list_eq. intros i. rewrite elements_lookup.
    destruct (decide (i < Z.to_nat (_size d - 1))%nat) as [Hi|Hi].
    + rewrite lookup_app_l by (rewrite length_elements; subst d'; simpl; lia).
      rewrite elements_lookup. subst d'. simpl. rewrite Hsz.
      rewrite !bool_decide_eq_true_2 by lia.
      unfold destroy_at. rewrite list_lookup_insert_ne; [done|].
      rewrite Ht'. intros Heq. apply Z2Nat.inj in Heq; try lia.
      * apply ring_inj in Heq; lia.
      * apply Z.mod_pos_bound. lia.
    + rewrite lookup_app_r by (rewrite length_elements; subst d'; simpl; lia).
      rewrite length_elements. subst d'. simpl. rewrite Hsz.
      destruct (decide (i = Z.to_nat (_size d - 1))) as [->|Hne].
      * rewrite bool_decide_eq_true_2 by lia. rewrite Nat.sub_diag. simpl.
        rewrite Z2Nat.id by lia. unfold e. by rewrite Ht'.
      * rewrite bool_decide_eq_false_2 by lia.
        by destruct (i - Z.to_nat (_size d - 1))%nat as [|[|k]] eqn:E; [lia| |].
Qed.

(** The loop of [resize] that constructs the new elements. *)
Lemma length_for_i_fill k i0 (f : Z → Z) v data :
  length (for_i k i0 (λ i, construct_at (f i) v) data) = length data.
Proof.
  revert i0 data. induction k as [|k IH]; intros i0 data; simpl; [done|].
  rewrite IH. unfold construct_at. by rewrite length_insert.
Qed.

Lemma for_i_fill_other k i0 (f : Z → Z) v data j :
  (∀ i, i0 ≤ i < i0 + Z.of_nat k → Z.to_nat (f i) ≠ j) →
  for_i k i0 (λ i, construct_at (f i) v) data !! j = data !! j.
Proof.
  revert i0 data. induction k as [|k IH]; intros i0 data Hf; simpl; [done|].
  rewrite IH by (intros i Hi; apply Hf; lia).
  unfold construct_at. rewrite list_lookup_insert_ne; [done|]. apply Hf. lia.
Qed.

Lemma for_i_fill_hit k i0 (f : Z → Z) v data j :
  (j < length data)%nat →
  data !! j = Some (Some v) ∨
    (∃ i, i0 ≤ i < i0 + Z.of_nat k ∧ Z.to_nat (f i) = j) →
  for_i k i0 (λ i, construct_at (f i) v) data !! j = Some (Some v).
Proof.
  revert i0 data. induction k as [|k IH]; intros i0 data Hlen Hj; simpl.
  { destruct Hj as [|(i & ? & _)]; [done|lia]. }
  apply IH; [unfold construct_at; by rewrite length_insert|].
  unfold construct_at.
  destruct (decide (Z.to_nat (f i0) = j)) as [<-|Hne].
  - left. by rewrite list_lookup_insert_eq.
  - rewrite list_lookup_insert_ne by done.
    destruct Hj as [|(i & Hi & Heq)]; [by left|right].
    exists i. split; [|done]. destruct (decide (i = i0)) as [->|]; [done|lia].
Qed.

Lemma sdt_id z : - 2 ^ 63 ≤ z < 2 ^ 63 → sdt z = z.
Proof. intros. unfold sdt. apply wrap_id; [done|]. simpl. lia. Qed.

(** The deque after the [setCapacity] of [resize]. *)
Lemma setCapacity_resized n d :
  wf d → 0 ≤ n < 2 ^ 63 →
  _capacity (setCapacity n d) = n ∧
  _size (setCapacity n d) = Z.min n (_size d) ∧
  (0 ≤ _head (setCapacity n d) ∧
   (_head (setCapacity n d) < n ∨ n = 0 ∧ _head (setCapacity n d) = 0)) ∧
  length (_data (setCapacity n d)) = Z.to_nat n.
Proof.
  intros Hwf Hn. pose proof Hwf as [Hcap Hlen Hsize Hhead Htail].
  split; [|split; [|split]]; [| | |by apply length_setCapacity; [lia|]].
  all: destruct (decide (n = _capacity d)) as [->|Hne];
    [rewrite SpscDequeFacts.setCapacity_same; (done || lia)|].
  all: destruct (SpscDequeFacts.setCapacity_fields n d Hne) as (Hc & Hs & Hh & Ht & _).
  all: rewrite ?Hc, ?Hs, ?Hh; (done || lia).
Qed.

Lemma resize_wf n v d : wf d → 0 ≤ n < 2 ^ 63 → wf (resize n v d).
Proof.
  intros Hwf Hn.
  destruct (setCapacity_resized n d Hwf Hn) as (Hc & Hs & Hh & Hl).
  unfold resize. split; simpl; rewrite ?Hc; try lia.
  - by rewrite length_for_i_fill.
  - destruct (Z.eqb_spec n 0) as [->|]; [lia|].
    replace (_head (setCapacity n d) + n) with (_head (setCapacity n d) + 1 * n) by lia.
    rewrite Z.mod_add by lia. rewrite Z.mod_small; lia.
Qed.

Lemma resize_elements n v d :
  wf d → 0 ≤ n < 2 ^ 63 →
  elements (resize n v d) =
  take (Z.to_nat n) (elements d) ++ replicate (Z.to_nat (n - _size d)) (Some v).
Proof.
  intros Hwf Hn.
  destruct (setCapacity_resized n d Hwf Hn) as (Hc & Hs & Hh & Hl).
  pose proof (setCapacity_elements n d Hwf Hn) as Hel.
  pose proof (wf_size d Hwf) as Hsize.
  set (d1 := setCapacity n d) in *. set (s1 := Z.min n (_size d)) in *.
  assert (Hdif : sdt (_capacity d1 - _size d1) = n - s1).
  { rewrite Hc, Hs. apply sdt_id. lia. }
  set (f := λ k, ringIndex d1 (szt (szt (_head d1 + s1) + k))).
  assert (Hf : ∀ k, 0 ≤ k < n - s1 → f k = (_head d1 + (s1 + k)) `mod` n).
  { intros k Hk. unfold f, ringIndex. rewrite Hc.
    rewrite (szt_id (_head d1 + _)) by lia. rewrite szt_id by lia. f_equal. lia. }
  assert (Hdata : _data (resize n v d) = for_i (Z.to_nat (n - s1)) 0 (λ k, construct_at (f k) v) (_data d1)).
  { unfold resize. cbv zeta. fold d1. cbn [_data]. by rewrite Hdif, Hs. }
  assert (Hfields : _size (resize n v d) = n ∧ _capacity (resize n v d) = n ∧
                    _head (resize n v d) = _head d1).
  { unfold resize. cbv zeta. fold d1. cbn [_size _capacity _head]. by rewrite Hc. }
  destruct Hfields as (Hrs & Hrc & Hrh).
  apply list_eq. intros i. rewrite elements_lookup, Hrs, Hrc, Hrh, Hdata.
  destruct (decide (i < Z.to_nat s1)%nat) as [Hi|Hi].
  - rewrite lookup_app_l by (rewrite length_take, length_elements; lia).
    rewrite <- Hel, elements_lookup, Hs, Hc, !bool_decide_eq_true_2 by lia.
    rewrite for_i_fill_other; [done|].
    intros k Hk. rewrite Hf by lia. intros Heq.
    apply Z2Nat.inj in Heq; [|apply Z.mod_pos_bound; lia..].
    apply ring_inj in Heq; lia.
  - rewrite lookup_app_r by (rewrite length_take, length_elements; lia).
    rewrite length_take, length_elements.
    destruct (decide (i < Z.to_nat n)%nat) as [Hin|Hin].
    + rewrite bool_decide_eq_true_2 by lia.
      rewrite (lookup_replicate_2 _ (Some v)) by lia. f_equal.
      set (k := Z.of_nat i - s1).
      assert (Hk : 0 ≤ k < n - s1) by (unfold k; lia).
      replace (_head d1 + Z.of_nat i) with (_head d1 + (s1 + k)) by (unfold k; lia).
      rewrite <- (Hf k Hk).
      rewrite (for_i_fill_hit _ 0 f); [done| |].
      * rewrite Hl, Hf by done.
        pose proof (Z.mod_pos_bound (_head d1 + (s1 + k)) n ltac:(lia)). lia.
      * right. exists k. split; [lia|done].
    + rewrite bool_decide_eq_false_2 by lia.
      symmetry. apply lookup_replicate_None. lia.
Qed.

(** [reserve] keeps the elements. *)
Lemma reserve_spec c d :
  wf d → 0 ≤ c < 2 ^ 63 →
  wf (reserve c d) ∧ elements (reserve c d) = elements d ∧
  _capacity (reserve c d) = Z.max c (_capacity d).
Proof.
  intros Hwf Hc. pose proof (wf_size d Hwf). unfold reserve.
  destruct (Z.ltb_spec (_capacity d) c) as [Hlt|Hge].
  - split; [apply setCapacity_wf; (done || lia)|].
    split.
    + rewrite setCapacity_elements by done. apply take_ge. rewrite length_elements. lia.
    + destruct (SpscDequeFacts.setCapacity_fields c d) as (-> & _); lia.
  - repeat split; try done; try apply Hwf. lia.
Qed.

Lemma push_back_eq v d :
  push_back v d =
  mkDeque (construct_at (_tail (room d)) v (_data (room d))) (_capacity (room d))
    (szt (_size (room d) + 1)) (_head (room d)) (ringInc (room d) (_tail (room d)))
    (allocs (room d)).
Proof. done. Qed.

Lemma push_front_eq v d :
  push_front v d =
  mkDeque (construct_at (ringDec (room d) (_head (room d))) v (_data (room d)))
    (_capacity (room d)) (szt (_size (room d) + 1))
    (ringDec (room d) (_head (room d))) (_tail (room d)) (allocs (room d)).
Proof. done. Qed.

Lemma push_back_spec v d :
  wf d → can_grow d →
  wf (push_back v d) ∧ elements (push_back v d) = elements d ++ [Some v].
Proof.
  intros Hwf Hg. destruct (room_spec d Hwf Hg) as (Hwf' & Hs & Hlt & Hel & _).
  rewrite push_back_eq, <- Hel. by apply push_back_room.
Qed.

Lemma push_front_spec v d :
  wf d → can_grow d →
  wf (push_front v d) ∧ elements (push_front v d) = Some v :: elements d.
Proof.
  intros Hwf Hg. destruct (room_spec d Hwf Hg) as (Hwf' & Hs & Hlt & Hel & _).
  rewrite push_front_eq, <- Hel. by apply push_front_room.
Qed.

Lemma new_wf c : 0 ≤ c < 2 ^ 63 → wf (SpscDeque_new c).
Proof.
  intros Hc. unfold SpscDeque_new. apply reserve_spec; [|done].
  split; simpl; lia.
Qed.

Lemma pop_front_none d : _size d = 0 → pop_front d = (false, None, d).
Proof. intros Hs. unfold pop_front. by rewrite Hs. Qed.

Lemma pop_back_none d : _size d = 0 → pop_back d = (false, None, d).
Proof. intros Hs. unfold pop_back. by rewrite Hs. Qed.

Lemma holds_1_2_wf : wf holds_1_2 ∧ can_grow holds_1_2.
Proof.
  split; [|by vm_compute].
  unfold holds_1_2. apply push_back_spec; [|by vm_compute].
  apply push_back_spec; [|by vm_compute]. apply new_wf. lia.
Qed.

(** X1.  The state of a deque between calls is kept: the constructor
    establishes it and [push_front], [push_back], [pop_front], [pop_back],
    [reserve] and [resize] keep it: the array has [_capacity] slots,
    [_size <= _capacity], [_head] is a slot of the ring and [_tail] is the
    slot [_size] steps after it. *)
Theorem deque_state_kept :
  (∀ c, 0 ≤ c < 2 ^ 63 → wf (SpscDeque_new c)) ∧
  (∀ v d, wf d → can_grow d → wf (push_front v d) ∧ wf (push_back v d)) ∧
  (∀ d, wf d → wf (pop_front d).2 ∧ wf (pop_back d).2) ∧
  (∀ c v d, wf d → 0 ≤ c < 2 ^ 63 → wf (reserve c d) ∧ wf (resize c v d)).
Proof.
  split; [apply new_wf|]. split; [|split].
  - intros v d Hwf Hg. split; [by apply push_front_spec|by apply push_back_spec].
  - intros d Hwf. pose proof (wf_size d Hwf).
    destruct (decide (_size d = 0)) as [Hs|Hs].
    + by rewrite pop_front_none, pop_back_none.
    + destruct (pop_front_some d Hwf ltac:(lia)) as (-> & ? & _).
      destruct (pop_back_some d Hwf ltac:(lia)) as (-> & ? & _). done.
  - intros c v d Hwf Hc. split; [by apply reserve_spec|by apply resize_wf].
Qed.

(** X2.  [push_back] puts the value after the last element and
    [push_front] before the first; the other elements stay, in order, also
    when the push has to expand the array. *)
Theorem push_adds_at_its_end (v : Z) (d : SpscDeque) :
  wf d → can_grow d →
  elements (push_back v d) = elements d ++ [Some v] ∧
  elements (push_front v d) = Some v :: elements d ∧
  _size (push_back v d) = _size d + 1 ∧ _size (push_front v d) = _size d + 1.
Proof.
  intros Hwf Hg. destruct (room_spec d Hwf Hg) as (Hwf' & Hs & Hlt & _).
  pose proof (wf_size d Hwf). pose proof (wf_cap _ Hwf').
  split; [by apply push_back_spec|]. split; [by apply push_front_spec|].
  rewrite push_back_eq, push_front_eq. simpl. rewrite Hs, szt_id by lia. done.
Qed.

Lemma push_adds_at_its_end_witness :
  elements (push_back 3 holds_1_2) = [Some 1; Some 2; Some 3] ∧
  elements (push_front 0 holds_1_2) = [Some 0; Some 1; Some 2].
Proof.
  destruct (push_adds_at_its_end 3 holds_1_2 (proj1 holds_1_2_wf) (proj2 holds_1_2_wf))
    as (Hb & _).
  destruct (push_adds_at_its_end 0 holds_1_2 (proj1 holds_1_2_wf) (proj2 holds_1_2_wf))
    as (_ & Hf & _).
  rewrite Hb, Hf. split; reflexivity.
Defined.

(** X3.  [pop_front] on an empty deque returns false and leaves the deque;
    otherwise it returns true with the first element, and the other
    elements stay, in order.  [pop_back] does the same at the other end. *)
Theorem pop_takes_from_its_end (d : SpscDeque) :
  wf d →
  (_size d = 0 → pop_front d = (false, None, d) ∧ pop_back d = (false, None, d)) ∧
  (0 < _size d →
     (∃ e d', pop_front d = (true, e, d') ∧ elements d = e :: elements d' ∧
              _size d' = _size d - 1) ∧
     (∃ e d', pop_back d = (true, e, d') ∧ elements d = elements d' ++ [e] ∧
              _size d' = _size d - 1)).
Proof.
  intros Hwf. pose proof (wf_size d Hwf). pose proof (wf_cap d Hwf). split.
  - intros Hs. by rewrite pop_front_none, pop_back_none.
  - intros Hs. split.
    + destruct (pop_front_some d Hwf Hs) as (Hp & _ & Hel).
      eexists _, _. split; [exact Hp|]. split; [exact Hel|]. simpl. apply szt_id. lia.
    + destruct (pop_back_some d Hwf Hs) as (Hp & _ & Hel).
      eexists _, _. split; [exact Hp|]. split; [exact Hel|]. simpl. apply szt_id. lia.
Qed.

Lemma pop_takes_from_its_end_witness :
  (∃ e d', pop_front holds_1_2 = (true, e, d') ∧
           elements holds_1_2 = e :: elements d' ∧ _size d' = _size holds_1_2 - 1) ∧
  (∃ e d', pop_back holds_1_2 = (true, e, d') ∧
           elements holds_1_2 = elements d' ++ [e] ∧ _size d' = _size holds_1_2 - 1).
Proof.
  apply (pop_takes_from_its_end holds_1_2 (proj1 holds_1_2_wf)). by vm_compute.
Defined.

(** X4.  A pop straight after a push at the same end returns the value
    pushed and leaves the elements the deque had before the push. *)
Theorem pop_after_push (v : Z) (d : SpscDeque) :
  wf d → can_grow d →
  (∃ d', pop_back (push_back v d) = (true, Some v, d') ∧ elements d' = elements d) ∧
  (∃ d', pop_front (push_front v d) = (true, Some v, d') ∧ elements d' = elements d).
Proof.
  intros Hwf Hg. pose proof (wf_size d Hwf).
  destruct (push_back_spec v d Hwf Hg) as [Hwb Heb].
  destruct (push_front_spec v d Hwf Hg) as [Hwf' Hef].
  destruct (room_spec d Hwf Hg) as (Hwr & Hs & Hlt & _). pose proof (wf_cap _ Hwr).
  split.
  - destruct (pop_back_some (push_back v d) Hwb) as (Hp & _ & Hel).
    { rewrite push_back_eq. simpl. rewrite Hs, szt_id by lia. lia. }
    rewrite Heb in Hel. apply app_inj_tail in Hel as [Hel He].
    eexists. split; [|symmetry; exact Hel].
    etrans; [exact Hp|]. f_equal. f_equal. symmetry. exact He.
  - destruct (pop_front_some (push_front v d) Hwf') as (Hp & _ & Hel).
    { rewrite push_front_eq. simpl. rewrite Hs, szt_id by lia. lia. }
    rewrite Hef in Hel. injection Hel as He Hel.
    eexists. split; [|symmetry; exact Hel].
    etrans; [exact Hp|]. f_equal. f_equal. symmetry. exact He.
Qed.

Lemma pop_after_push_witness :
  ∃ d', pop_back (push_back 3 holds_1_2) = (true, Some 3, d') ∧
        elements d' = [Some 1; Some 2].
Proof.
  destruct (pop_after_push 3 holds_1_2 (proj1 holds_1_2_wf) (proj2 holds_1_2_wf))
    as [(d' & Hp & Hel) _].
  exists d'. split; [exact Hp|]. rewrite Hel. reflexivity.
Defined.

(** X5.  A push allocates only when the deque is full, and then the new
    capacity is the old one plus half of it plus one. *)
Theorem push_expands_when_full (v : Z) (d : SpscDeque) :
  wf d → can_grow d →
  (_size d < _capacity d →
     _capacity (push_back v d) = _capacity d ∧ allocs (push_back v d) = allocs d ∧
     _capacity (push_front v d) = _capacity d ∧ allocs (push_front v d) = allocs d) ∧
  (_size d = _capacity d →
     _capacity (push_back v d) = _capacity d + _capacity d / 2 + 1 ∧
     allocs (push_back v d) = S (allocs d) ∧
     _capacity (push_front v d) = _capacity d + _capacity d / 2 + 1 ∧
     allocs (push_front v d) = S (allocs d)).
Proof.
  intros Hwf Hg. destruct (room_spec d Hwf Hg) as (_ & _ & _ & _ & Hsame & Hfull).
  rewrite push_back_eq, push_front_eq. simpl. split.
  - intros Hlt. by rewrite (Hsame Hlt).
  - intros Heq. destruct (Hfull Heq) as [-> ->]. done.
Qed.

Lemma push_expands_when_full_witness :
  _capacity (push_back 3 holds_1_2) = 3 ∧ allocs (push_back 3 holds_1_2) = 1%nat ∧
  _capacity (push_back 4 (push_back 3 holds_1_2)) = 5 ∧
  allocs (push_back 4 (push_back 3 holds_1_2)) = 2%nat.
Proof.
  destruct (push_expands_when_full 3 holds_1_2 (proj1 holds_1_2_wf) (proj2 holds_1_2_wf))
    as [Hroom _].
  destruct (Hroom ltac:(by vm_compute)) as (Hc & Ha & _).
  destruct (push_back_spec 3 holds_1_2 (proj1 holds_1_2_wf) (proj2 holds_1_2_wf))
    as [Hwf3 _].
  destruct (push_expands_when_full 4 (push_back 3 holds_1_2) Hwf3 ltac:(by vm_compute))
    as [_ Hfull].
  destruct (Hfull ltac:(by vm_compute)) as (Hc' & Ha' & _).
  rewrite Hc, Ha, Hc', Ha', Hc, Ha. by vm_compute.
Defined.

(** X6.  [reserve] keeps the elements and never shrinks: the capacity
    becomes the larger of the two, and a request for no more than the
    deque has changes nothing. *)
Theorem reserve_keeps_elements (c : Z) (d : SpscDeque) :
  wf d → 0 ≤ c < 2 ^ 63 →
  elements (reserve c d) = elements d ∧
  _capacity (reserve c d) = Z.max c (_capacity d) ∧
  (c ≤ _capacity d → reserve c d = d).
Proof.
  intros Hwf Hc. destruct (reserve_spec c d Hwf Hc) as (_ & Hel & Hcap).
  split; [done|]. split; [done|]. intros Hle. unfold reserve.
  by destruct (Z.ltb_spec (_capacity d) c); [lia|].
Qed.

Lemma reserve_keeps_elements_witness :
  elements (reserve 10 holds_1_2) = [Some 1; Some 2] ∧
  _capacity (reserve 10 holds_1_2) = 10.
Proof.
  destruct (reserve_keeps_elements 10 holds_1_2 (proj1 holds_1_2_wf) ltac:(lia))
    as (Hel & Hcap & _).
  rewrite Hel, Hcap. split; reflexivity.
Defined.

(** X7.  The elements after [resize(size, initVal)]: the first [size]
    elements the deque had, followed by copies of [initVal] when [size] is
    more than it held. *)
Theorem resize_truncates_or_fills (n v : Z) (d : SpscDeque) :
  wf d → 0 ≤ n < 2 ^ 63 →
  elements (resize n v d) =
  take (Z.to_nat n) (elements d) ++ replicate (Z.to_nat (n - _size d)) (Some v).
Proof. apply resize_elements. Qed.

Lemma resize_truncates_or_fills_witness :
  elements (resize 4 7 holds_1_2) = [Some 1; Some 2; Some 7; Some 7] ∧
  elements (resize 1 7 holds_1_2) = [Some 1].
Proof.
  rewrite (resize_truncates_or_fills 4 7 holds_1_2 (proj1 holds_1_2_wf)) by lia.
  rewrite (resize_truncates_or_fills 1 7 holds_1_2 (proj1 holds_1_2_wf)) by lia.
  split; reflexivity.
Defined.

End DequeFacts.

(** ** The queue at rest *)

Module QueueSeq.
Import Queue QueueInv QueueOps.

Lemma chain_length m h ns vs : chain m h ns vs → length ns = length vs.
Proof.
  revert h vs. induction ns as [|n ns IH]; intros h [|v vs]; simpl; try done.
  intros (_ & _ & Hc). f_equal. by eapply IH.
Qed.

(** A chain reads the slots of its nodes only. *)
Lemma chain_frame m m' h ns vs :
  (∀ n, n ∈ h :: ns → slot_at m' n = slot_at m n) →
  chain m h ns vs → chain m' h ns vs.
Proof.
  revert h vs. induction ns as [|n ns IH]; intros h [|v vs] Hs; simpl; try done.
  - rewrite Hs by set_solver. done.
  - intros (Hn & Hv & Hc). rewrite !Hs by set_solver. split; [done|]. split; [done|].
    apply IH; [|done]. intros x Hx. apply Hs. set_solver.
Qed.

(** The last node of a chain has a nil [next]. *)
Lemma chain_last m h ns vs t :
  chain m h ns vs → last (h :: ns) = Some t → handle (next (slot_at m t)) = None.
Proof.
  revert h vs. induction ns as [|n ns IH]; intros h [|v vs]; cbn [chain]; try done.
  - by intros ? [= <-].
  - intros (_ & _ & Hc) Hl. rewrite last_cons_cons in Hl. by eapply IH.
Qed.

(** Linking a node after the last one. *)
Lemma chain_snoc m m' h ns vs t n v :
  chain m h ns vs → last (h :: ns) = Some t → NoDup (h :: ns) → n ∉ h :: ns →
  (∀ x, x ≠ t → x ≠ n → slot_at m' x = slot_at m x) →
  handle (next (slot_at m' t)) = Some n → val (slot_at m' t) = val (slot_at m t) →
  val (slot_at m' n) = v → handle (next (slot_at m' n)) = None →
  chain m' h (ns ++ [n]) (vs ++ [v]).
Proof.
  revert h vs. induction ns as [|n1 ns IH]; intros h [|v1 vs]; cbn [chain app]; try done.
  - intros _ [= <-] _ _ _ Ht _ Hv Hn. done.
  - intros (Hn1 & Hv1 & Hc) Hl Hnd Hnin Hs Ht Htv Hv Hn.
    rewrite last_cons_cons in Hl.
    apply NoDup_cons in Hnd as [Hh Hnd].
    pose proof (last_Some_elem_of _ _ Hl) as Htin.
    rewrite Hs by set_solver. split; [done|]. split.
    + destruct (decide (n1 = t)) as [->|Hne]; [by rewrite Htv|].
      rewrite Hs; [done|done|set_solver].
    + apply IH; try done. set_solver.
Qed.

Lemma slot_at_insert m n nd x :
  slot_at (set_slots <[n := nd]> m) x = if decide (x = n) then nd else slot_at m x.
Proof.
  unfold slot_at. simpl. case_decide as Hx.
  - subst. by rewrite lookup_insert_eq.
  - by rewrite lookup_insert_ne.
Qed.

(** [FreeList::construct] gives a slot that no node of the queue uses. *)
Lemma construct_spec v m l :
  NoDup (l ++ free m) →
  (∀ x, x ∈ l ++ free m ↔ (x < fresh m)%nat) →
  let m1 := (construct v m).1 in
  let n := (construct v m).2 in
  n ∉ l ∧ val (slot_at m1 n) = v ∧ handle (next (slot_at m1 n)) = None ∧
  (∀ x, x ≠ n → slot_at m1 x = slot_at m x) ∧
  _head m1 = _head m ∧ _tail m1 = _tail m ∧ _size m1 = _size m ∧ vars m1 = vars m ∧
  NoDup ((l ++ [n]) ++ free m1) ∧
  (∀ x, x ∈ (l ++ [n]) ++ free m1 ↔ (x < fresh m1)%nat).
Proof.
  intros Hnd Hq. unfold construct.
  destruct (free m) as [|n rest] eqn:Hfree; simpl.
  - unfold slot_at; simpl. rewrite lookup_insert_eq. simpl.
    rewrite app_nil_r in *.
    assert (Hn : fresh m ∉ l) by (intros Hin; apply Hq in Hin; lia).
    split; [done|]. do 2 (split; [done|]).
    split; [intros x Hx; by rewrite lookup_insert_ne|]. do 4 (split; [done|]).
    split.
    + apply NoDup_app. split; [done|]. split; [|apply NoDup_singleton].
      intros x Hx ->%list_elem_of_singleton. done.
    + intros x. rewrite elem_of_app, list_elem_of_singleton, Hq. lia.
  - unfold slot_at; simpl. rewrite lookup_insert_eq. simpl.
    rewrite <- !app_assoc. simpl.
    split.
    { apply NoDup_app in Hnd as (_ & Hnd & _). intros Hin. apply (Hnd n Hin). left. }
    do 2 (split; [done|]).
    split; [intros x Hx; by rewrite lookup_insert_ne|]. do 4 (split; [done|]).
    done.
Qed.

(** The loop of [push] on a queue at rest links the node in its first
    iteration. *)
Lemma push_loop_alone tid fuel n m t :
  handle (_tail m) = Some t → handle (next (slot_at m t)) = None →
  run exec tid (push_loop (S fuel) n) m =
  (set_slots <[t := mkNode (val (slot_at m t))
                      (mkTaggedHandle (Some n) (nextTag (next (slot_at m t))))]> m,
   Done (_tail m)).
Proof.
  intros Ht Hn. simpl. unfold deref. rewrite Ht. simpl.
  rewrite bool_decide_eq_false_2 by naive_solver.
  rewrite bool_decide_eq_false_2 by (rewrite Hn; naive_solver).
  simpl. rewrite bool_decide_eq_true_2 by done. done.
Qed.

Lemma handle_eta (t : TaggedHandle) : mkTaggedHandle (handle t) (tag t) = t.
Proof. by destruct t. Qed.

(** [push] without interference appends the value. *)
Lemma push_alone tid fuel v m h ns vs :
  queue_is m h ns vs →
  ∃ n m', run exec tid (push (S fuel) v) m = (m', Done ()) ∧ n ∉ h :: ns ∧
          queue_is m' h (ns ++ [n]) (vs ++ [v]) ∧ vars m' = vars m.
Proof.
  intros (Hh & Ht & Hc & Hnd & Hq & Hsz).
  pose proof (construct_spec v m (h :: ns) Hnd Hq) as Hcs.
  unfold push, mbind, Prog_bind. cbn [bind call run].
  change (exec _ tid (Construct v) m) with (construct v m).
  destruct (construct v m) as [m1 n]. cbn [fst snd] in Hcs.
  destruct Hcs as (Hnin & Hv & Hnn & Hs & Hh1 & Ht1 & Hsz1 & Hv1 & Hnd1 & Hq1).
  destruct (last (h :: ns)) as [t|] eqn:Hl; [|by apply last_None in Hl].
  assert (Htin : t ∈ h :: ns) by by eapply last_Some_elem_of.
  assert (Htn : t ≠ n) by (intros ->; by apply Hnin).
  rewrite run_bind, (push_loop_alone tid fuel n m1 t); cycle 1.
  { by rewrite Ht1. }
  { rewrite Hs by done. by eapply chain_last. }
  cbn [bind run exec set_slots _tail]. rewrite bool_decide_eq_true_2 by done.
  eexists n, _. split; [reflexivity|]. split; [done|]. split; [|done].
  split; [simpl; by rewrite Hh1|].
  split; [cbn [_tail set_size set_tail handle]; change (h :: ns ++ [n]) with ((h :: ns) ++ [n]); by rewrite last_snoc|].
  split.
  { eapply (chain_snoc m _ h ns vs t n v); try done.
    - apply NoDup_app in Hnd. tauto.
    - intros x Hxt Hxn. unfold slot_at. simpl. rewrite lookup_insert_ne by done.
      by apply Hs.
    - unfold slot_at. simpl. by rewrite lookup_insert_eq.
    - unfold slot_at at 1. simpl. rewrite lookup_insert_eq. simpl. by rewrite Hs.
    - unfold slot_at. simpl. rewrite lookup_insert_ne by done. done.
    - unfold slot_at. simpl. rewrite lookup_insert_ne by done. done. }
  split; [done|]. split; [done|].
  simpl. rewrite Hsz1, Hsz, length_app. simpl.
  rewrite Z.add_mod_idemp_l by lia. f_equal. lia.
Qed.

(** [pop] without interference takes the first value, moves [_head] to its
    node and recycles the old dummy node. *)
Lemma pop_alone_some tid fuel out m h n ns v vs :
  queue_is m h (n :: ns) (v :: vs) →
  ∃ m', run exec tid (pop (S fuel) out) m = (m', Done true) ∧
        queue_is m' n ns vs ∧ free m' = h :: free m ∧
        vars m' = match out with Some r => <[r := v]> (vars m) | None => vars m end.
Proof.
  intros (Hh & Ht & (Hn & Hv & Hc) & Hnd & Hq & Hsz).
  rewrite last_cons_cons in Ht.
  assert (Hne : handle (_head m) ≠ handle (_tail m)).
  { rewrite Hh, Ht. intros Hl. symmetry in Hl. apply last_Some_elem_of in Hl.
    apply NoDup_app in Hnd as (Hnd & _). apply NoDup_cons in Hnd as [Hnd _]. done. }
  unfold pop, mbind, Prog_bind. rewrite run_bind.
  assert (Hloop : run exec tid (pop_loop (S fuel) out) m =
    (set_head (retag (next (slot_at m h)) (nextTag (_head m)))
       (match out with Some r => set_vars <[r := v]> m | None => m end),
     Done (Some (_head m)))).
  { simpl. unfold deref. rewrite Hh. simpl.
    rewrite bool_decide_eq_false_2 by naive_solver.
    rewrite bool_decide_eq_false_2 by (by rewrite <- Hh).
    rewrite bool_decide_eq_false_2 by (by rewrite Hn).
    rewrite Hn. destruct out as [r|]; simpl.
    - rewrite bool_decide_eq_true_2 by done. by rewrite Hv.
    - by rewrite bool_decide_eq_true_2. }
  rewrite Hloop. cbn [bind call run exec]. unfold deref. rewrite Hh. cbn [default].
  eexists. split; [reflexivity|].
  split; [|split; [by destruct out|by destruct out]].
  split; [destruct out; simpl; by rewrite Hn|].
  split; [destruct out; simpl; by rewrite Ht|].
  split; [eapply chain_frame; [|exact Hc]; intros x _; by destruct out|].
  assert (Hp : (n :: ns) ++ h :: free m ≡ₚ (h :: n :: ns) ++ free m).
  { simpl. rewrite <- Permutation_middle. apply perm_swap. }
  split; [destruct out; simpl in *; by rewrite Hp|].
  split.
  { intros x. specialize (Hq x). destruct out; simpl in *; by rewrite Hp. }
  destruct out; cbn [_size set_size set_head set_vars destroy length] in *; rewrite Hsz, Z.add_mod_idemp_l by lia; f_equal; lia.
Qed.

(** On the empty queue [pop] returns false and changes nothing. *)
Lemma pop_alone_none tid fuel out m h :
  queue_is m h [] [] → run exec tid (pop (S fuel) out) m = (m, Done false).
Proof.
  intros (Hh & Ht & Hc & _). simpl in Hc, Ht.
  unfold pop, mbind, Prog_bind. rewrite run_bind.
  simpl. unfold deref. rewrite Hh. simpl.
  rewrite bool_decide_eq_false_2 by naive_solver.
  rewrite bool_decide_eq_true_2 by (by rewrite <- Hh, Hh, Ht).
  by rewrite bool_decide_eq_true_2.
Qed.

(** [front] without interference copies the first value. *)
Lemma front_alone_some tid fuel r m h n ns v vs :
  queue_is m h (n :: ns) (v :: vs) →
  run exec tid (front (S fuel) r) m = (set_vars <[r := v]> m, Done true).
Proof.
  intros (Hh & Ht & (Hn & Hv & Hc) & _).
  simpl. unfold deref. rewrite Hh. simpl.
  rewrite bool_decide_eq_false_2 by naive_solver.
  rewrite (bool_decide_eq_false_2 (handle _ = None)) by (by rewrite Hn).
  rewrite andb_false_r. rewrite Hn. simpl.
  rewrite bool_decide_eq_true_2 by done. by rewrite Hv.
Qed.

Lemma front_alone_none tid fuel r m h :
  queue_is m h [] [] → run exec tid (front (S fuel) r) m = (m, Done false).
Proof.
  intros (Hh & Ht & Hc & _). simpl in Hc, Ht.
  simpl. unfold deref. rewrite Hh. simpl.
  rewrite bool_decide_eq_false_2 by naive_solver.
  rewrite bool_decide_eq_true_2 by (by rewrite <- Hh, Hh, Ht).
  by rewrite bool_decide_eq_true_2.
Qed.

(** The last node of a chain holds the last value. *)
Lemma chain_last_val m h ns vs n v :
  chain m h (ns ++ [n]) (vs ++ [v]) → val (slot_at m n) = v.
Proof.
  revert h vs. induction ns as [|n1 ns IH]; intros h [|v1 vs]; cbn [chain app].
  - tauto.
  - intros (_ & _ & Hc). by destruct vs.
  - intros (_ & _ & Hc). by destruct ns.
  - intros (_ & _ & Hc). by eapply IH.
Qed.

(** [back] without interference copies the last value. *)
Lemma back_alone_some tid fuel r m h n ns v vs :
  queue_is m h (ns ++ [n]) (vs ++ [v]) →
  run exec tid (back (S fuel) r) m = (set_vars <[r := v]> m, Done true).
Proof.
  intros (Hh & Ht & Hc & Hnd & _).
  change (h :: ns ++ [n]) with ((h :: ns) ++ [n]) in *. rewrite last_snoc in Ht.
  assert (Hl : handle (next (slot_at m n)) = None).
  { eapply chain_last; [exact Hc|]. change (h :: ns ++ [n]) with ((h :: ns) ++ [n]).
    by rewrite last_snoc. }
  assert (Hne : handle (_head m) ≠ handle (_tail m)).
  { rewrite Hh, Ht. intros [= ->]. apply NoDup_app in Hnd as (Hnd & _).
    apply NoDup_app in Hnd as (_ & Hnd & _). apply (Hnd n); [left|left]. }
  simpl. unfold deref. rewrite Ht. simpl.
  rewrite bool_decide_eq_false_2 by naive_solver.
  rewrite bool_decide_eq_false_2 by (rewrite Hl; naive_solver).
  rewrite bool_decide_eq_false_2 by (by rewrite <- Ht).
  simpl. rewrite !bool_decide_eq_true_2 by done. simpl.
  rewrite bool_decide_eq_true_2 by done.
  by rewrite (chain_last_val _ _ _ _ _ _ Hc).
Qed.

Lemma back_alone_none tid fuel r m h :
  queue_is m h [] [] → run exec tid (back (S fuel) r) m = (m, Done false).
Proof.
  intros (Hh & Ht & Hc & _). simpl in Hc, Ht.
  simpl. unfold deref. rewrite Ht. simpl.
  rewrite bool_decide_eq_false_2 by naive_solver.
  rewrite bool_decide_eq_false_2 by (rewrite Hc; naive_solver).
  by rewrite bool_decide_eq_true_2 by (by rewrite Hh).
Qed.

Lemma Queue_new_empty : queue_is Queue_new 0 [] [].
Proof.
  repeat split; try done.
  - vm_compute. apply NoDup_singleton.
  - vm_compute. intros ->%list_elem_of_singleton. lia.
  - vm_compute. intros Hx. apply list_elem_of_singleton. lia.
Qed.

(** [clear] without interference pops every element. *)
Lemma clear_alone tid fuel k m h ns vs :
  queue_is m h ns vs → (length vs < fuel)%nat →
  ∃ h' m', run exec tid (clear fuel (S k)) m = (m', Done ()) ∧
           queue_is m' h' [] [] ∧ vars m' = vars m.
Proof.
  revert fuel m h ns. induction vs as [|v vs IH]; intros fuel m h ns Hq Hfuel.
  - destruct fuel as [|fuel]; [simpl in Hfuel; lia|].
    assert (ns = []) as ->.
    { destruct Hq as (_ & _ & Hc & _). apply chain_length in Hc. by destruct ns. }
    exists h, m. split; [|done].
    cbn [clear]. unfold mbind, Prog_bind. rewrite run_bind.
    change (bind (pop (S k) None)) with (mbind (M := M) (A := bool)).
    by rewrite (pop_alone_none tid k None m h Hq).
  - destruct fuel as [|fuel]; [simpl in Hfuel; lia|].
    destruct ns as [|n ns].
    { destruct Hq as (_ & _ & Hc & _). by apply chain_length in Hc. }
    destruct (pop_alone_some tid k None m h n ns v vs Hq) as (m1 & Hrun & Hq1 & _ & Hv1).
    destruct (IH fuel m1 n ns Hq1) as (h' & m' & Hrun' & Hq' & Hv'); [simpl in Hfuel; lia|].
    exists h', m'. split; [|split; [done|congruence]].
    cbn [clear]. unfold mbind, Prog_bind. rewrite run_bind. by rewrite Hrun.
Qed.

(** [size] and [empty] on a queue at rest. *)
Lemma size_alone tid m h ns vs :
  queue_is m h ns vs → Z.of_nat (length vs) < 2 ^ 64 →
  run exec tid size m = (m, Done (Z.of_nat (length vs))) ∧
  run exec tid empty m = (m, Done (bool_decide (vs = []))).
Proof.
  intros (_ & _ & _ & _ & _ & Hsz) Hlen.
  rewrite Z.mod_small in Hsz by lia.
  simpl. rewrite Hsz. split; [done|]. f_equal. f_equal.
  destruct vs; [done|]. rewrite bool_decide_eq_false_2 by done. apply Z.eqb_neq. simpl length. lia.
Qed.

(** The destructor on a queue at rest returns every slot to the free list. *)
Lemma Queue_delete_alone tid fuel k m h ns vs :
  queue_is m h ns vs → (length vs < fuel)%nat →
  ∃ m', run exec tid (Queue_delete fuel (S k)) m = (m', Done ()) ∧
        NoDup (free m') ∧ ∀ x, x ∈ free m' ↔ (x < fresh m')%nat.
Proof.
  intros Hq Hfuel.
  destruct (clear_alone tid fuel k m h ns vs Hq Hfuel) as (h' & m1 & Hrun & Hq1 & _).
  destruct Hq1 as (Hh & _ & _ & Hnd & Hf & _).
  unfold Queue_delete, mbind, Prog_bind. rewrite run_bind, Hrun.
  simpl. unfold deref. rewrite Hh. simpl. eexists. split; [reflexivity|].
  simpl. done.
Qed.

Lemma holds_7_is : queue_is QueueRuns.holds_7 0 [1%nat] [7].
Proof.
  assert (Hfree : free QueueRuns.holds_7 = []) by by vm_compute.
  assert (Hfresh : fresh QueueRuns.holds_7 = 2%nat) by by vm_compute.
  unfold queue_is. rewrite Hfree, Hfresh.
  split; [by vm_compute|]. split; [by vm_compute|]. split; [by vm_compute|].
  split; [|split; [|by vm_compute]].
  - apply (bool_decide_unpack _). done.
  - intros x. rewrite app_nil_r, !elem_of_cons, elem_of_nil. lia.
Qed.

(** A non-empty chain has a first and a last node. *)
Lemma queue_is_ends m h ns vs a b :
  queue_is m h ns vs → head vs = Some a → last vs = Some b →
  (∃ n ns' vs', ns = n :: ns' ∧ vs = a :: vs') ∧
  (∃ n ns' vs', ns = ns' ++ [n] ∧ vs = vs' ++ [b]).
Proof.
  intros (_ & _ & Hc & _) Ha Hb. apply chain_length in Hc.
  split.
  - destruct vs as [|a' vs']; [done|]. injection Ha as ->.
    destruct ns as [|n ns']; [done|]. by exists n, ns', vs'.
  - apply last_Some in Hb as [vs' ->].
    destruct (last ns) as [n|] eqn:Hn.
    + apply last_Some in Hn as [ns' ->]. by exists n, ns', vs'.
    + apply last_None in Hn as ->. rewrite length_app in Hc. simpl in Hc. lia.
Qed.

(** X8.  [Queue::push], when no other thread takes a step during the call,
    returns and appends: on a queue at rest that holds the values [vs] it
    leaves a queue at rest that holds [vs ++ [v]], the new last node being
    a slot that was not in the queue, with the same dummy node at the
    head; the caller's variables are not written. *)
Theorem push_appends tid fuel v m h ns vs :
  queue_is m h ns vs →
  ∃ n m', run exec tid (push (S fuel) v) m = (m', Done ()) ∧ n ∉ h :: ns ∧
          queue_is m' h (ns ++ [n]) (vs ++ [v]) ∧ vars m' = vars m.
Proof. apply push_alone. Qed.

Lemma push_appends_witness :
  queue_is Queue_new 0 [] [] ∧
  ∃ n m', run exec 0 (push 1 7) Queue_new = (m', Done ()) ∧ n ∉ [0%nat] ∧
          queue_is m' 0 ([] ++ [n]) ([] ++ [7]) ∧ vars m' = vars Queue_new.
Proof.
  split; [apply Queue_new_empty|].
  apply (push_appends 0 0 7 Queue_new 0 [] []). apply Queue_new_empty.
Defined.

(** X9.  [Queue::pop], when no other thread takes a step during the call,
    on a queue at rest that holds [v :: vs] returns true, copies [v] into
    the output when one is supplied, leaves a queue at rest that holds
    [vs] whose dummy node is the node that held [v], and has given the old
    dummy node back to the free list. *)
Theorem pop_takes_first tid fuel out m h n ns v vs :
  queue_is m h (n :: ns) (v :: vs) →
  ∃ m', run exec tid (pop (S fuel) out) m = (m', Done true) ∧
        queue_is m' n ns vs ∧ free m' = h :: free m ∧
        vars m' = match out with Some r => <[r := v]> (vars m) | None => vars m end.
Proof. apply pop_alone_some. Qed.

Lemma pop_takes_first_witness :
  queue_is QueueRuns.holds_7 0 [1%nat] [7] ∧
  ∃ m', run exec 0 (pop 1 (Some 3%nat)) QueueRuns.holds_7 = (m', Done true) ∧
        queue_is m' 1 [] [] ∧ free m' = 0%nat :: free QueueRuns.holds_7 ∧
        vars m' = <[3%nat := 7]> (vars QueueRuns.holds_7).
Proof.
  split; [apply holds_7_is|].
  apply (pop_takes_first 0 0 (Some 3%nat) QueueRuns.holds_7 0 1 [] 7 []), holds_7_is.
Defined.

(** X10.  On an empty queue at rest, with no other thread taking a step,
    [Queue::pop], [Queue::front] and [Queue::back] return false and leave
    the whole memory as it was. *)
Theorem empty_queue_gives_false tid fuel out r m h :
  queue_is m h [] [] →
  run exec tid (pop (S fuel) out) m = (m, Done false) ∧
  run exec tid (front (S fuel) r) m = (m, Done false) ∧
  run exec tid (back (S fuel) r) m = (m, Done false).
Proof.
  intros Hq. split; [by eapply pop_alone_none|].
  split; [by eapply front_alone_none|by eapply back_alone_none].
Qed.

Lemma empty_queue_gives_false_witness :
  queue_is Queue_new 0 [] [] ∧
  run exec 0 (pop 1 None) Queue_new = (Queue_new, Done false) ∧
  run exec 0 (front 1 2) Queue_new = (Queue_new, Done false) ∧
  run exec 0 (back 1 2) Queue_new = (Queue_new, Done false).
Proof.
  split; [apply Queue_new_empty|].
  apply (empty_queue_gives_false 0 0 None 2 Queue_new 0), Queue_new_empty.
Defined.

(** X11.  On a queue at rest that holds at least one value, with no other
    thread taking a step, [Queue::front] copies the first value and
    [Queue::back] the last value into the output and return true; nothing
    else of the memory changes. *)
Theorem front_and_back_read_the_ends tid fuel r m h ns vs a b :
  queue_is m h ns vs → head vs = Some a → last vs = Some b →
  run exec tid (front (S fuel) r) m = (set_vars <[r := a]> m, Done true) ∧
  run exec tid (back (S fuel) r) m = (set_vars <[r := b]> m, Done true).
Proof.
  intros Hq Ha Hb.
  destruct (queue_is_ends m h ns vs a b Hq Ha Hb)
    as [(n & ns' & vs' & -> & ->) (n' & ns'' & vs'' & Hns & Hvs)].
  split; [by eapply front_alone_some|].
  rewrite Hns, Hvs in Hq. by eapply back_alone_some.
Qed.

Lemma front_and_back_read_the_ends_witness :
  queue_is QueueRuns.holds_7 0 [1%nat] [7] ∧
  run exec 0 (front 1 2) QueueRuns.holds_7
    = (set_vars <[2%nat := 7]> QueueRuns.holds_7, Done true) ∧
  run exec 0 (back 1 2) QueueRuns.holds_7
    = (set_vars <[2%nat := 7]> QueueRuns.holds_7, Done true).
Proof.
  split; [apply holds_7_is|].
  by apply (front_and_back_read_the_ends 0 0 2 QueueRuns.holds_7 0 [1%nat] [7] 7 7 holds_7_is).
Defined.

(** X12.  [Queue::clear], with no other thread taking a step, returns once
    its loop has as many iterations as the queue has values plus one, and
    leaves an empty queue at rest; the caller's variables are not
    written. *)
Theorem clear_empties tid fuel k m h ns vs :
  queue_is m h ns vs → (length vs < fuel)%nat →
  ∃ h' m', run exec tid (clear fuel (S k)) m = (m', Done ()) ∧
           queue_is m' h' [] [] ∧ vars m' = vars m.
Proof. apply clear_alone. Qed.

Lemma clear_empties_witness :
  queue_is QueueRuns.holds_7 0 [1%nat] [7] ∧ (length [7] < 2)%nat ∧
  ∃ h' m', run exec 0 (clear 2 1) QueueRuns.holds_7 = (m', Done ()) ∧
           queue_is m' h' [] [] ∧ vars m' = vars QueueRuns.holds_7.
Proof.
  split; [apply holds_7_is|]. split; [simpl; lia|].
  apply (clear_empties 0 2 0 QueueRuns.holds_7 0 [1%nat] [7] holds_7_is). simpl; lia.
Defined.

(** X13.  On a queue at rest that holds fewer than 2^64 values,
    [Queue::size] returns the number of values and [Queue::empty] returns
    true exactly when there is none; neither changes the memory. *)
Theorem size_counts_the_values tid m h ns vs :
  queue_is m h ns vs → Z.of_nat (length vs) < 2 ^ 64 →
  run exec tid size m = (m, Done (Z.of_nat (length vs))) ∧
  run exec tid empty m = (m, Done (bool_decide (vs = []))).
Proof. apply size_alone. Qed.

Lemma size_counts_the_values_witness :
  queue_is QueueRuns.holds_7 0 [1%nat] [7] ∧ Z.of_nat (length [7]) < 2 ^ 64 ∧
  run exec 0 size QueueRuns.holds_7 = (QueueRuns.holds_7, Done 1) ∧
  run exec 0 empty QueueRuns.holds_7 = (QueueRuns.holds_7, Done false).
Proof.
  split; [apply holds_7_is|]. split; [simpl; lia|].
  apply (size_counts_the_values 0 QueueRuns.holds_7 0 [1%nat] [7] holds_7_is). simpl; lia.
Defined.

(** X14.  The destructor of [Queue], run on a queue at rest with no other
    thread taking a step, returns every slot the free list has handed out
    to the free list, each once: the elements are popped and the dummy
    node is destroyed. *)
Theorem destructor_returns_every_slot tid fuel k m h ns vs :
  queue_is m h ns vs → (length vs < fuel)%nat →
  ∃ m', run exec tid (Queue_delete fuel (S k)) m = (m', Done ()) ∧
        NoDup (free m') ∧ ∀ x, x ∈ free m' ↔ (x < fresh m')%nat.
Proof. apply Queue_delete_alone. Qed.

Lemma destructor_returns_every_slot_witness :
  queue_is QueueRuns.holds_7 0 [1%nat] [7] ∧ (length [7] < 2)%nat ∧
  ∃ m', run exec 0 (Queue_delete 2 1) QueueRuns.holds_7 = (m', Done ()) ∧
        NoDup (free m') ∧ ∀ x, x ∈ free m' ↔ (x < fresh m')%nat.
Proof.
  split; [apply holds_7_is|]. split; [simpl; lia|].
  apply (destructor_returns_every_slot 0 2 0 QueueRuns.holds_7 0 [1%nat] [7] holds_7_is).
  simpl; lia.
Defined.

End QueueSeq.

(** ** The operations of the queue on every path *)

Module QueuePaths.
Import Queue QueueEvents QueueCalls.

Abbreviation any := (λ _, True).

Ltac q_norm := unfold mbind, Prog_bind, call, assign; cbn [bind].
Ltac q_step :=
  lazymatch goal with
  | |- quiet _ _ (Ret _) => apply quiet_ret
  | |- quiet _ _ Abort => apply quiet_abort
  | |- quiet _ _ Spin => apply quiet_spin
  | |- quiet _ _ (Vis _ _) =>
      apply quiet_vis; [ intros ?; cbn; rewrite ?Z.eqb_refl; try done | intros ? ]
  | |- quiet _ _ (if bool_decide _ then _ else _) => case_bool_decide
  | |- quiet _ _ (if ?c then _ else _) => destruct c eqn:?
  | |- quiet _ _ (match ?c with _ => _ end) => destruct c eqn:?
  | |- quiet _ _ (bind (match ?c with _ => _ end) _) => destruct c eqn:?
  end.
Ltac q_tac := q_norm; repeat (q_step; q_norm); try done.

Lemma push_loop_quiet fuel node : quiet push_loop_never any (push_loop fuel node).
Proof. induction fuel as [|fuel IH]; cbn [push_loop]; q_tac. Qed.

Lemma pop_loop_quiet fuel out : quiet pop_loop_never any (pop_loop fuel out).
Proof. induction fuel as [|fuel IH]; cbn [pop_loop]; q_tac. Qed.

Lemma pop_loop_no_write fuel : quiet writes any (pop_loop fuel None).
Proof. induction fuel as [|fuel IH]; cbn [pop_loop]; q_tac. Qed.

Lemma front_quiet fuel out : quiet front_never any (front fuel out).
Proof. induction fuel as [|fuel IH]; cbn [front]; q_tac. Qed.

Lemma back_quiet fuel out : quiet modifies any (back fuel out).
Proof. induction fuel as [|fuel IH]; cbn [back]; q_tac. Qed.

(** The tags of the values the loops install. *)
Lemma push_loop_tags fuel node : quiet stale_tag any (push_loop fuel node).
Proof. induction fuel as [|fuel IH]; cbn [push_loop]; q_tac. Qed.

Lemma pop_loop_tags fuel out : quiet stale_tag any (pop_loop fuel out).
Proof. induction fuel as [|fuel IH]; cbn [pop_loop]; q_tac. Qed.

Lemma front_tags fuel out : quiet stale_tag any (front fuel out).
Proof. induction fuel as [|fuel IH]; cbn [front]; q_tac. Qed.

Lemma back_tags fuel out : quiet stale_tag any (back fuel out).
Proof. induction fuel as [|fuel IH]; cbn [back]; q_tac. Qed.

Ltac p_step :=
  lazymatch goal with
  | |- post _ _ (Ret _) => apply post_ret
  | |- post _ _ Abort => apply post_abort
  | |- post _ _ Spin => apply post_spin
  | |- post _ _ (Vis _ _) => apply post_vis; intros ?; cbn [links moves_head]
  | |- post _ _ (if bool_decide _ then _ else _) => case_bool_decide
  | |- post _ _ (if ?c then _ else _) => destruct c eqn:?
  | |- post _ _ (match ?c with _ => _ end) => destruct c eqn:?
  | |- post _ _ (bind (match ?c with _ => _ end) _) => destruct c eqn:?
  end.
Ltac p_tac := q_norm; repeat (p_step; q_norm); try done.

(** The loop of [push] returns after the one CAS that links the node. *)
Lemma push_loop_links fuel node : post links (λ _ n, n = 1%nat) (push_loop fuel node).
Proof. induction fuel as [|fuel IH]; cbn [push_loop]; p_tac. Qed.

(** The loop of [pop] returns a head after the one CAS that moves
    [_head], and nothing without one. *)
Lemma pop_loop_moves fuel out :
  post moves_head (λ r n, n = if r is Some _ then 1%nat else 0%nat) (pop_loop fuel out).
Proof. induction fuel as [|fuel IH]; cbn [pop_loop]; p_tac. Qed.

Lemma cnt_0_le (f g : Event Op → bool) tr :
  (∀ e, g e = true → f e = true) → cnt f tr = 0%nat → cnt g tr = 0%nat.
Proof. intros Hfg Hf. pose proof (cnt_le f g tr Hfg). lia. Qed.

Lemma net_app tr1 tr2 : net (tr1 ++ tr2) = net tr1 + net tr2.
Proof. induction tr1 as [|[B o b] tr1 IH]; simpl; [done|]. rewrite IH. lia. Qed.

Lemma net_quiet tr : cnt resizes tr = 0%nat → net tr = 0.
Proof.
  induction tr as [|[B o b] tr IH]; simpl; [done|].
  destruct o; simpl; try done; lia.
Qed.

(** The paths of [push] that return: an allocation, a path of the loop,
    the CAS on [_tail] and the increment. *)
Lemma push_Path fuel v tr :
  Path (push fuel v) tr (Done ()) →
  ∃ node tr1 tail ok,
    Path (push_loop fuel node) tr1 (Done tail) ∧
    tr = Ev (Construct v) node :: tr1 ++
         [Ev (CasTail (mkTaggedHandle (Some node) (nextTag tail)) tail) ok;
          Ev (AddSize 1) ()].
Proof.
  unfold push. q_norm. intros (node & tr' & -> & Hp).
  apply Path_bind in Hp as [(tr1 & tail & tr2 & H1 & H2 & ->)|[[_ [=]]|[_ [=]]]].
  destruct H2 as (ok & tr3 & -> & [[] [tr4 [-> [-> _]]]]).
  by exists node, tr1, tail, ok.
Qed.

(** The paths of [pop] that return: a path of the loop and, after a CAS
    that moved [_head], the decrement and the release of the old dummy
    node. *)
Lemma pop_Path fuel out tr b :
  Path (pop fuel out) tr (Done b) →
  ∃ tr1 r, Path (pop_loop fuel out) tr1 (Done r) ∧
    match r with
    | None => tr = tr1 ∧ b = false
    | Some head =>
        tr = tr1 ++ [Ev (AddSize (-1)) (); Ev (Destroy (deref head)) ()] ∧ b = true
    end.
Proof.
  unfold pop. q_norm. intros Hp.
  apply Path_bind in Hp as [(tr1 & r & tr2 & H1 & H2 & ->)|[[_ [=]]|[_ [=]]]].
  exists tr1, r. split; [done|]. destruct r as [head|].
  - destruct H2 as ([] & tr3 & -> & [[] [tr4 [-> [-> [= <-]]]]]). done.
  - destruct H2 as [-> [= <-]]. by rewrite app_nil_r.
Qed.

Lemma push_quiet_tags fuel v : quiet stale_tag any (push fuel v).
Proof.
  unfold push. q_norm. apply quiet_vis; [done|]. intros node.
  eapply quiet_bind; [apply push_loop_tags|]. intros tail _. q_tac.
Qed.

Lemma pop_quiet_tags fuel out : quiet stale_tag any (pop fuel out).
Proof.
  unfold pop. q_norm. eapply quiet_bind; [apply pop_loop_tags|].
  intros [head|] _; q_tac.
Qed.

Lemma prog_quiet_tags fuel c : quiet stale_tag any (prog fuel c).
Proof.
  destruct c as [v|out|out|out]; cbn [prog].
  - q_norm. eapply quiet_bind; [apply push_quiet_tags|]. by intros.
  - apply pop_quiet_tags.
  - apply front_tags.
  - apply back_tags.
Qed.

(** What a call that has returned has added to [_size]. *)
Lemma push_net fuel v tr : Path (push fuel v) tr (Done ()) → net tr = 1.
Proof.
  intros (node & tr1 & tail & ok & H1 & ->)%push_Path.
  destruct (quiet_Path _ _ _ _ _ (push_loop_quiet fuel node) H1) as [Hq _].
  cbn [net]. rewrite net_app, (net_quiet tr1); [done|].
  eapply cnt_0_le; [|exact Hq]. intros e He. unfold push_loop_never. by rewrite He, !orb_true_r.
Qed.

Lemma pop_net fuel out tr b :
  Path (pop fuel out) tr (Done b) → net tr = if b then -1 else 0.
Proof.
  intros (tr1 & r & H1 & Hr)%pop_Path.
  destruct (quiet_Path _ _ _ _ _ (pop_loop_quiet fuel out) H1) as [Hq _].
  assert (net tr1 = 0) as Hn.
  { apply net_quiet. eapply cnt_0_le; [|exact Hq]. intros e He.
    unfold pop_loop_never. by rewrite He, !orb_true_r. }
  destruct r as [head|]; destruct Hr as [-> ->].
  - rewrite net_app, Hn. done.
  - done.
Qed.

Lemma modifies_resizes e : resizes e = true → modifies e = true.
Proof. intros He. unfold modifies. by rewrite He, !orb_true_r. Qed.

Lemma prog_net fuel c tr b : Path (prog fuel c) tr (Done b) → net tr = delta c b.
Proof.
  destruct c as [v|out|out|out]; cbn [prog delta].
  - q_norm. intros [(tr1 & [] & tr2 & H1 & [-> _] & ->)|[[_ [=]]|[_ [=]]]]%Path_bind.
    rewrite app_nil_r. by eapply push_net.
  - apply pop_net.
  - intros Hp. destruct (quiet_Path _ _ _ _ _ (front_quiet fuel out) Hp) as [Hq _].
    apply net_quiet. eapply cnt_0_le; [|exact Hq]. intros e He.
    unfold front_never. by rewrite (modifies_resizes e He).
  - intros Hp. destruct (quiet_Path _ _ _ _ _ (back_quiet fuel out) Hp) as [Hq _].
    apply net_quiet. eapply cnt_0_le; [|exact Hq]. apply modifies_resizes.
Qed.

End QueuePaths.

Module QueuePool.
Import Queue QueueEvents QueueCalls QueuePaths.

Lemma total_alter t e logs :
  (t < length logs)%nat →
  total (alter (λ l, l ++ [e]) t logs) = total logs + net [e].
Proof.
  unfold total, fmap, alter. revert t.
  induction logs as [|l logs IH]; intros t Ht; simpl in Ht; [lia|].
  destruct t as [|t]; cbn [list_fmap list_alter foldr].
  - rewrite net_app. lia.
  - rewrite IH by lia. lia.
Qed.

Lemma total_start {A} (ps : list (M A)) : total (start ps) = 0.
Proof.
  unfold total, start, fmap. induction (length ps) as [|n IH]; [done|].
  cbn [replicate list_fmap foldr]. rewrite IH. done.
Qed.

Lemma exec_size B tid (o : Op B) m :
  0 ≤ _size m < 2 ^ 64 →
  0 ≤ _size (exec B tid o m).1 < 2 ^ 64 ∧
  _size (exec B tid o m).1 = (_size m + net [Ev o (exec B tid o m).2]) `mod` 2 ^ 64.
Proof.
  intros Hs. destruct o; simpl; try (split; [done|by rewrite Z.add_0_r, Z.mod_small]).
  - case_bool_decide; simpl; (split; [done|by rewrite Z.add_0_r, Z.mod_small]).
  - case_bool_decide; simpl; (split; [done|by rewrite Z.add_0_r, Z.mod_small]).
  - case_bool_decide; simpl; (split; [done|by rewrite Z.add_0_r, Z.mod_small]).
  - unfold construct. destruct (free m); simpl; (split; [done|by rewrite Z.add_0_r, Z.mod_small]).
  - split; [apply Z.mod_pos_bound; lia|]. by rewrite Z.add_0_r.
Qed.

Lemma interleave_logs_length {A} sched (ps : list (M A)) logs s :
  length (interleave exec sched ps logs s).2 = length logs.
Proof.
  revert ps logs s. induction sched as [|t sched IH]; intros ps logs s; [done|].
  cbn [interleave]. destruct (ps !! t) as [[a| | |B o k]|] eqn:Ht; try by apply IH.
  destruct (exec B t o s) as [s' b]. by rewrite IH, length_alter.
Qed.

(** [_size] moves with the changes the threads have made. *)
Lemma interleave_size {A} sched (ps : list (M A)) logs s :
  length logs = length ps → 0 ≤ _size s < 2 ^ 64 →
  _size (interleave exec sched ps logs s).1.1
  = (_size s + (total (interleave exec sched ps logs s).2 - total logs)) `mod` 2 ^ 64.
Proof.
  revert ps logs s. induction sched as [|t sched IH]; intros ps logs s Hlen Hs.
  { simpl. by rewrite Z.sub_diag, Z.add_0_r, Z.mod_small. }
  cbn [interleave]. destruct (ps !! t) as [[a| | |B o k]|] eqn:Ht; try by apply IH.
  pose proof (exec_size B t o s Hs) as [Hs' He].
  destruct (exec B t o s) as [s' b]. cbn [fst snd] in *.
  rewrite IH; [|by rewrite length_alter, length_insert|done].
  rewrite total_alter by (rewrite Hlen; by eapply lookup_lt_Some).
  rewrite He, Z.add_mod_idemp_l by lia. f_equal. lia.
Qed.

(** Once every call has returned, [_size] has moved by one for every
    [push] and back by one for every [pop] that returned true. *)
Lemma pool_size fuel calls sched m bs :
  0 ≤ _size m < 2 ^ 64 →
  (pool fuel calls sched m).1.2 = Ret <$> bs →
  _size (pool fuel calls sched m).1.1 = (_size m + deltas calls bs) `mod` 2 ^ 64.
Proof.
  intros Hs Hret. unfold pool in *.
  rewrite interleave_size; [|unfold start; by rewrite length_replicate|done].
  rewrite total_start, Z.sub_0_r. f_equal. f_equal. unfold total, deltas. f_equal.
  assert (Hlb : length bs = length calls).
  { apply (f_equal length) in Hret.
    by rewrite interleave_length, !length_fmap in Hret. }
  apply list_eq. intros i. rewrite list_lookup_fmap, lookup_zip_with.
  destruct (bs !! i) as [b|] eqn:Hb.
  - assert (Hi : (interleave exec sched (prog fuel <$> calls)
                    (start (prog fuel <$> calls)) m).1.2 !! i = Some (Ret b)).
    { by rewrite Hret, list_lookup_fmap, Hb. }
    apply interleave_returned in Hi as (p0 & log & H0 & Hlog & Hp).
    rewrite list_lookup_fmap in H0. destruct (calls !! i) as [c|]; [|done].
    injection H0 as <-. rewrite Hlog. simpl. f_equal. by eapply prog_net.
  - apply lookup_ge_None in Hb.
    rewrite (proj2 (lookup_ge_None _ _)).
    + by destruct (calls !! i).
    + rewrite interleave_logs_length. unfold start.
      rewrite length_replicate, length_fmap. lia.
Qed.

End QueuePool.

Module QueueEffects.
Import Queue QueueEvents QueueCalls QueuePaths QueuePool.

(** X15.  Every call of [Queue::push] that returns, whatever the other
    threads do meanwhile, has allocated exactly one node, linked a node
    with exactly one successful CAS on a [next], and changed [_size]
    exactly once, by +1; it has destroyed no node, made no CAS on [_head]
    and written no output variable. *)
Theorem push_effects fuel v tr :
  Path (push fuel v) tr (Done ()) →
  cnt constructs tr = 1%nat ∧ cnt links tr = 1%nat ∧
  cnt resizes tr = 1%nat ∧ cnt (adds 1) tr = 1%nat ∧
  cnt destroys tr = 0%nat ∧ cnt cas_head tr = 0%nat ∧ cnt writes tr = 0%nat.
Proof.
  intros (node & tr1 & tail & ok & H1 & ->)%push_Path.
  destruct (quiet_Path _ _ _ _ _ (push_loop_quiet fuel node) H1) as [Hq _].
  pose proof (push_loop_links fuel node _ _ H1) as Hl. cbn beta in Hl.
  assert (Hsub : ∀ g : Event Op → bool,
            (∀ e, g e = true → push_loop_never e = true) → cnt g tr1 = 0%nat).
  { intros g Hg. by eapply cnt_0_le. }
  assert (∀ d, cnt (adds d) tr1 = 0%nat) as Hadd.
  { intros d. apply Hsub. intros [B o b] He. destruct o; done. }
  cbn [cnt]. rewrite !cnt_app. cbn [cnt].
  rewrite Hl, Hadd.
  rewrite !Hsub; [done|..]; intros [B o b] He; destruct o; done.
Qed.

Lemma push_effects_witness :
  Path (push 1 7) (trace exec 0 (push 1 7) Queue_new) (Done ()) ∧
  cnt constructs (trace exec 0 (push 1 7) Queue_new) = 1%nat ∧
  cnt links (trace exec 0 (push 1 7) Queue_new) = 1%nat ∧
  cnt resizes (trace exec 0 (push 1 7) Queue_new) = 1%nat ∧
  cnt (adds 1) (trace exec 0 (push 1 7) Queue_new) = 1%nat ∧
  cnt destroys (trace exec 0 (push 1 7) Queue_new) = 0%nat ∧
  cnt cas_head (trace exec 0 (push 1 7) Queue_new) = 0%nat ∧
  cnt writes (trace exec 0 (push 1 7) Queue_new) = 0%nat.
Proof.
  assert (Hp : Path (push 1 7) (trace exec 0 (push 1 7) Queue_new) (Done ())).
  { exact (run_Path exec 0 (push 1 7) Queue_new). }
  split; [exact Hp|]. exact (push_effects 1 7 _ Hp).
Defined.

(** X16.  Every call of [Queue::pop] that returns, whatever the other
    threads do meanwhile, has moved [_head] with exactly one successful
    CAS, changed [_size] exactly once, by -1, and destroyed exactly one
    node when it returns true, and has done none of these when it returns
    false; it has allocated no node and made no CAS on a [next]. *)
Theorem pop_effects fuel out tr b :
  Path (pop fuel out) tr (Done b) →
  cnt moves_head tr = once b ∧ cnt resizes tr = once b ∧
  cnt (adds (-1)) tr = once b ∧ cnt destroys tr = once b ∧
  cnt constructs tr = 0%nat ∧ cnt cas_next tr = 0%nat.
Proof.
  intros (tr1 & r & H1 & Hr)%pop_Path.
  destruct (quiet_Path _ _ _ _ _ (pop_loop_quiet fuel out) H1) as [Hq _].
  pose proof (pop_loop_moves fuel out _ _ H1) as Hm. cbn beta in Hm.
  assert (Hsub : ∀ g : Event Op → bool,
            (∀ e, g e = true → pop_loop_never e = true) → cnt g tr1 = 0%nat).
  { intros g Hg. by eapply cnt_0_le. }
  assert (cnt (adds (-1)) tr1 = 0%nat) as Hadd.
  { apply Hsub. intros [B o b'] He. destruct o; done. }
  assert (cnt resizes tr1 = 0%nat ∧ cnt destroys tr1 = 0%nat ∧
          cnt constructs tr1 = 0%nat ∧ cnt cas_next tr1 = 0%nat) as (Hr1 & Hd1 & Hc1 & Hn1).
  { repeat split; apply Hsub; intros [B o b'] He; destruct o; done. }
  destruct r as [head|]; destruct Hr as [-> ->].
  - rewrite !cnt_app. cbn [cnt once]. rewrite Hm, Hadd, Hr1, Hd1, Hc1, Hn1. done.
  - cbn [once]. by rewrite Hm, Hadd, Hr1, Hd1, Hc1, Hn1.
Qed.

Lemma pop_effects_witness :
  Path (pop 1 None) (trace exec 0 (pop 1 None) QueueRuns.holds_7) (Done true) ∧
  cnt moves_head (trace exec 0 (pop 1 None) QueueRuns.holds_7) = once true ∧
  cnt resizes (trace exec 0 (pop 1 None) QueueRuns.holds_7) = once true ∧
  cnt (adds (-1)) (trace exec 0 (pop 1 None) QueueRuns.holds_7) = once true ∧
  cnt destroys (trace exec 0 (pop 1 None) QueueRuns.holds_7) = once true ∧
  cnt constructs (trace exec 0 (pop 1 None) QueueRuns.holds_7) = 0%nat ∧
  cnt cas_next (trace exec 0 (pop 1 None) QueueRuns.holds_7) = 0%nat.
Proof.
  assert (Hp : Path (pop 1 None) (trace exec 0 (pop 1 None) QueueRuns.holds_7) (Done true)).
  { exact (run_Path exec 0 (pop 1 None) QueueRuns.holds_7). }
  split; [exact Hp|]. exact (pop_effects 1 None _ true Hp).
Defined.

(** X17.  [Queue::front] and [Queue::back] change nothing of the queue,
    however they end and whatever the other threads do meanwhile: on no
    path do they allocate or destroy a node, change [_size], or make a CAS
    on [_head] or on a [next]; [front] makes no CAS on [_tail] either,
    [back] only the CAS that helps [_tail] forward. *)
Theorem front_and_back_modify_nothing fuel out out' tr tr' (r r' : Outcome bool) :
  Path (front fuel out) tr r → Path (back fuel out') tr' r' →
  cnt modifies tr = 0%nat ∧ cnt cas_tail tr = 0%nat ∧ cnt modifies tr' = 0%nat.
Proof.
  intros Hf Hb.
  destruct (quiet_Path _ _ _ _ _ (front_quiet fuel out) Hf) as [Hq _].
  destruct (quiet_Path _ _ _ _ _ (back_quiet fuel out') Hb) as [Hq' _].
  split; [|split; [|done]].
  - eapply cnt_0_le; [|exact Hq]. intros e He. unfold front_never. by rewrite He.
  - eapply cnt_0_le; [|exact Hq]. intros e He. unfold front_never. by rewrite He, orb_true_r.
Qed.

Lemma front_and_back_modify_nothing_witness :
  Path (front 1 2) (trace exec 0 (front 1 2) QueueRuns.holds_7) (Done true) ∧
  Path (back 1 3) (trace exec 0 (back 1 3) QueueRuns.holds_7) (Done true) ∧
  cnt modifies (trace exec 0 (front 1 2) QueueRuns.holds_7) = 0%nat ∧
  cnt cas_tail (trace exec 0 (front 1 2) QueueRuns.holds_7) = 0%nat ∧
  cnt modifies (trace exec 0 (back 1 3) QueueRuns.holds_7) = 0%nat.
Proof.
  assert (Hf : Path (front 1 2) (trace exec 0 (front 1 2) QueueRuns.holds_7) (Done true)).
  { exact (run_Path exec 0 (front 1 2) QueueRuns.holds_7). }
  assert (Hb : Path (back 1 3) (trace exec 0 (back 1 3) QueueRuns.holds_7) (Done true)).
  { exact (run_Path exec 0 (back 1 3) QueueRuns.holds_7). }
  split; [exact Hf|]. split; [exact Hb|].
  exact (front_and_back_modify_nothing 1 2 3 _ _ _ _ Hf Hb).
Defined.

(** X18.  Every CAS that [Queue::push], [pop], [front] or [back] makes on
    [_head], on [_tail] or on the [next] of a node, on every path and
    whether it succeeds or not, offers a value whose tag is the tag after
    the one of the value it expects. *)
Theorem cas_advances_the_tag fuel c tr (r : Outcome bool) :
  Path (prog fuel c) tr r → cnt stale_tag tr = 0%nat.
Proof. intros Hp. by destruct (quiet_Path _ _ _ _ _ (prog_quiet_tags fuel c) Hp). Qed.

Lemma cas_advances_the_tag_witness :
  Path (prog 1 (call_push 7)) (trace exec 0 (prog 1 (call_push 7)) Queue_new) (Done true) ∧
  cnt stale_tag (trace exec 0 (prog 1 (call_push 7)) Queue_new) = 0%nat.
Proof.
  assert (Hp : Path (prog 1 (call_push 7))
                 (trace exec 0 (prog 1 (call_push 7)) Queue_new) (Done true)).
  { exact (run_Path exec 0 (prog 1 (call_push 7)) Queue_new). }
  split; [exact Hp|]. exact (cas_advances_the_tag 1 (call_push 7) _ _ Hp).
Defined.

(** X19.  Once every call of a pool of [push], [pop], [front] and [back]
    calls has returned, under any schedule, [_size] is the size before
    plus the number of [push] calls minus the number of [pop] calls that
    returned true, modulo 2^64. *)
Theorem size_at_quiescence fuel calls sched m bs :
  0 ≤ _size m < 2 ^ 64 →
  (pool fuel calls sched m).1.2 = Ret <$> bs →
  _size (pool fuel calls sched m).1.1 = (_size m + deltas calls bs) `mod` 2 ^ 64.
Proof. apply pool_size. Qed.

Lemma size_at_quiescence_witness :
  0 ≤ _size Queue_new < 2 ^ 64 ∧
  (pool 5 QueueSchedules.three_calls QueueSchedules.mixed Queue_new).1.2
  = Ret <$> [true; true; true] ∧
  _size (pool 5 QueueSchedules.three_calls QueueSchedules.mixed Queue_new).1.1
  = (_size Queue_new + deltas QueueSchedules.three_calls [true; true; true]) `mod` 2 ^ 64.
Proof.
  assert (Hs : 0 ≤ _size Queue_new < 2 ^ 64) by (by vm_compute).
  assert (Hr : (pool 5 QueueSchedules.three_calls QueueSchedules.mixed Queue_new).1.2
               = Ret <$> [true; true; true]) by (vm_compute; reflexivity).
  split; [exact Hs|]. split; [exact Hr|].
  exact (size_at_quiescence 5 QueueSchedules.three_calls QueueSchedules.mixed Queue_new
           [true; true; true] Hs Hr).
Defined.

End QueueEffects.

(** ** Hazards, references and deleted nodes *)

Module HazardUse.
Import Heap Atomic HazardMem HeapFacts HazardMemFacts.

Section Facts.
Context `{Config}.
Variable threadMax : Z.

Abbreviation alone := (run (exec threadMax)).

Ltac heap := repeat (autorewrite with heap; rewrite ?decide_True by done).

Lemma removelast_last {A} (l : list A) x : last l = Some x → removelast l ++ [x] = l.
Proof.
  intros [l' ->]%last_Some. by rewrite removelast_last.
Qed.

Lemma td_at_Some m tid td : threads m !! tid = Some td → td_at m tid = td.
Proof. intros Htd. unfold td_at. by rewrite Htd. Qed.

Lemma run_threadData tid m td :
  threads m !! tid = Some td → alone tid threadData m = (m, Done tid).
Proof. intros Htd. unfold threadData. simpl. unfold initThreadData. by rewrite Htd. Qed.

(** [releaseRef] of the last reference of the thread gives the hazard
    index back. *)
Lemma run_releaseRef_last tid node m td :
  threads m !! tid = Some td →
  h_ref (hazard_at m tid node) = 1 →
  alone tid (releaseRef node) m =
  (upd_td tid (with_hazardFreeList (λ l, l ++ [h_index (hazard_at m tid node)]))
     ((if 0 <=? h_index (hazard_at m tid node)
       then upd_td tid (with_hazards <[Z.to_nat (h_index (hazard_at m tid node)) := nil]>)
       else id)
        (upd_hazard tid node (λ h, mkHazard (h_index h) (int8 (h_ref h - 1))) m)),
   Done ()).
Proof.
  intros Htd Href. unfold releaseRef, threadData. simpl. rewrite Href. simpl.
  unfold initThreadData. simpl. rewrite Htd. simpl.
  rewrite hazard_at_upd_hazard. rewrite !decide_True by done. simpl.
  by destruct (0 <=? _).
Qed.

Lemma threads_upd_td_lookup t f m :
  threads (upd_td t f m) !! t = Some (f (td_at m t)).
Proof. unfold upd_td. simpl. by rewrite lookup_insert_eq. Qed.

Lemma threads_upd_hazard t n f m : threads (upd_hazard t n f m) = threads m.
Proof. done. Qed.

(** X20.  A thread that holds no reference to a node takes one with [ref]
    and drops it with [releaseRef]: both return, the hazard index that
    [ref] took from the back of the free list is back at the back, the
    hazard slot of that index holds nil again, and the thread's reference
    count on the node is 0 again; no link changes. *)
Theorem ref_then_releaseRef (tid : nat) (node : Z) (m : Mem) (td : ThreadData) (index : Z) :
  threads m !! tid = Some td →
  last (td_hazardFreeList td) = Some index →
  0 ≤ index →
  h_ref (hazard_at m tid node) = 0 →
  ∃ m', alone tid (ref node;; releaseRef node) m = (m', Done ()) ∧
        td_hazardFreeList (td_at m' tid) = td_hazardFreeList td ∧
        td_hazards (td_at m' tid) = <[Z.to_nat index := nil]> (td_hazards td) ∧
        hazard_at m' tid node = mkHazard index 0 ∧
        ∀ l, load_link m' l = load_link m l.
Proof.
  intros Htd Hback Hi Href.
  unfold mbind, Prog_bind. rewrite run_bind.
  rewrite (run_ref_first threadMax tid node m td index) by (done || lia).
  set (m1 := upd_td tid _ _).
  assert (Hh1 : hazard_at m1 tid node = mkHazard index 1).
  { subst m1. heap. simpl. heap. simpl. by rewrite Href. }
  assert (Ht1 : td_at m1 tid =
                with_hazards <[Z.to_nat index := node]>
                  (with_hazardFreeList (removelast (A:=Z)) td)).
  { subst m1. heap. by rewrite (td_at_Some m tid td). }
  rewrite (run_releaseRef_last tid node m1 (td_at m1 tid)); cycle 1.
  { subst m1. by rewrite threads_upd_td_lookup, td_at_upd_td, decide_True. }
  { by rewrite Hh1. }
  rewrite Hh1. cbn [h_index]. destruct (Z.leb_spec 0 index); [|lia].
  eexists. split; [reflexivity|].
  heap. rewrite ?Ht1, ?Hh1. cbn.
  split; [by apply removelast_last|].
  split; [by rewrite list_insert_insert_eq|].
  split; [done|].
  intros l. subst m1. by autorewrite with heap.
Qed.

(** X21.  A thread that already holds [r] references to a node, [0 < r]:
    [ref] only counts one more and [releaseRef] one less; neither touches
    the thread's hazard slots or its free list of hazard indices, and
    after the pair the thread's hazard record of the node is as before. *)
Theorem nested_ref_takes_no_hazard (tid : nat) (node : Z) (m : Mem) (r : Z) :
  0 < r < 127 →
  h_ref (hazard_at m tid node) = r →
  ∃ m1 m2, alone tid (ref node) m = (m1, Done ()) ∧
           alone tid (releaseRef node) m1 = (m2, Done ()) ∧
           threads m1 = threads m ∧ threads m2 = threads m ∧
           h_ref (hazard_at m1 tid node) = r + 1 ∧
           hazard_at m2 tid node = hazard_at m tid node.
Proof.
  intros Hr Href. eexists _, _.
  assert (H1 : alone tid (ref node) m =
               (upd_hazard tid node (λ h, mkHazard (h_index h) (int8 (h_ref h + 1))) m,
                Done ())).
  { unfold ref. simpl. rewrite Href. by destruct (Z.ltb_spec 0 r); [|lia]. }
  split; [exact H1|].
  assert (Hw : int8 (r + 1) = r + 1) by (apply int8_id; lia).
  assert (Hw' : int8 (r + 1 - 1) = r) by (rewrite int8_id; lia).
  split.
  { unfold releaseRef. simpl. heap. simpl. rewrite Href, Hw, Hw'.
    destruct (Z.ltb_spec 0 r); [|lia]. reflexivity. }
  split; [done|]. split; [done|].
  heap. simpl. rewrite Href, Hw, Hw'. split; [done|].
  rewrite <- Href. by destruct (hazard_at m tid node).
Qed.

(** X22.  [releaseRef] on a node the thread holds no reference to fails
    its assertion (Hazard pointer already released). *)
Theorem releaseRef_unheld_aborts (tid : nat) (node : Z) (m : Mem) :
  -127 ≤ h_ref (hazard_at m tid node) ≤ 0 →
  (alone tid (releaseRef node) m).2 = Aborted.
Proof.
  intros Href. unfold releaseRef. simpl.
  rewrite int8_id by lia.
  destruct (Z.ltb_spec 0 (h_ref (hazard_at m tid node) - 1)); [lia|].
  destruct (Z.eqb_spec (h_ref (hazard_at m tid node) - 1) 0); [lia|]. done.
Qed.

(** X23.  With no free hazard index left, a registered thread fails the
    assertion (Not enough hazard pointers) in [ref] of a node it does not
    hold, in [deRefLink] of any link, and in [createNode]. *)
Theorem no_free_hazard_aborts (tid fuel : nat) (node : Z) (link : LinkAddr)
    (m : Mem) (td : ThreadData) :
  threads m !! tid = Some td →
  td_hazardFreeList td = [] →
  h_ref (hazard_at m tid node) ≤ 0 →
  (alone tid (ref node) m).2 = Aborted ∧
  (alone tid (deRefLink fuel link) m).2 = Aborted ∧
  (alone tid createNode m).2 = Aborted.
Proof.
  intros Htd Hfree Href.
  assert (Hat : ∀ m', threads m' = threads m → td_at m' tid = td).
  { intros m' Hm'. unfold td_at. by rewrite Hm', Htd. }
  split; [|split].
  - unfold ref, threadData. simpl.
    destruct (Z.ltb_spec 0 (h_ref (hazard_at m tid node))); [lia|]. simpl.
    unfold initThreadData. simpl. rewrite Htd. simpl.
    rewrite Hat by done. by rewrite Hfree.
  - unfold deRefLink, threadData. simpl. unfold initThreadData. rewrite Htd. simpl.
    rewrite Hat by done. by rewrite Hfree.
  - unfold createNode, call, mbind, Prog_bind. cbn [bind run exec].
    destruct (construct tid m) as [m1 p] eqn:Hc.
    assert (Ht1 : threads m1 = threads m).
    { unfold construct in Hc. destruct (pools m !! tid) as [[|q rest]|]; by injection Hc as <- <-. }
    assert (Hh1 : hazard_at m1 tid p = Hazard0).
    { unfold construct in Hc. unfold hazard_at, node_at.
      destruct (pools m !! tid) as [[|q rest]|]; injection Hc as <- <-; simpl;
        by rewrite lookup_insert_eq. }
    rewrite run_bind. unfold ref, threadData. simpl. rewrite Hh1. simpl.
    unfold initThreadData. simpl. rewrite Ht1, Htd. simpl.
    rewrite Hat by done. by rewrite Hfree.
Qed.

(** X24.  [deRefLink] on a link that points to a node, by a registered
    thread with a free hazard index, while no other thread takes a step:
    the call returns the node.  When the thread did not hold the node it
    now holds it once, the node is published in the hazard slot taken
    from the back of the free list, and that index has left the free list.
    When the thread held the node already, only the count grows: the slot
    the call probed with is reset to nil and the free list is as before. *)
Theorem deRefLink_protects (tid fuel : nat) (link : LinkAddr) (m : Mem)
    (td : ThreadData) (index node : Z) :
  threads m !! tid = Some td →
  last (td_hazardFreeList td) = Some index →
  0 ≤ index →
  link_ptr (load_link m link) = node → node ≠ nil →
  -128 ≤ h_ref (hazard_at m tid node) < 127 →
  ∃ m', alone tid (deRefLink (S fuel) link) m = (m', Done node) ∧
    h_ref (hazard_at m' tid node) = h_ref (hazard_at m tid node) + 1 ∧
    (∀ l, load_link m' l = load_link m l) ∧
    if 0 <? h_ref (hazard_at m tid node) then
      td_hazards (td_at m' tid) = <[Z.to_nat index := nil]> (td_hazards td) ∧
      td_hazardFreeList (td_at m' tid) = td_hazardFreeList td ∧
      h_index (hazard_at m' tid node) = h_index (hazard_at m tid node)
    else
      td_hazards (td_at m' tid) = <[Z.to_nat index := node]> (td_hazards td) ∧
      td_hazardFreeList (td_at m' tid) = removelast (td_hazardFreeList td) ∧
      h_index (hazard_at m' tid node) = index.
Proof.
  intros Htd Hback Hi Hlink Hnode Href.
  assert (Hat : td_at m tid = td) by by apply td_at_Some.
  unfold deRefLink, threadData. simpl. unfold initThreadData. rewrite Htd. simpl.
  assert (Hle : (0 <=? index) = true) by (apply Z.leb_le; lia).
  rewrite Hat, Hback. simpl. rewrite Hlink, Hle.
  rewrite load_link_upd_td, Hlink. rewrite bool_decide_eq_true_2 by done. simpl.
  rewrite bool_decide_eq_true_2 by done. simpl. heap.
  destruct (Z.ltb_spec 0 (h_ref (hazard_at m tid node))); simpl; rewrite ?Hle.
  - eexists. split; [reflexivity|]. heap. rewrite Hat. simpl.
    rewrite int8_id by lia. split; [done|]. split; [intros l; by heap|].
    by rewrite list_insert_insert_eq.
  - eexists. split; [reflexivity|]. heap. simpl. heap. rewrite Hat. simpl.
    rewrite int8_id by lia. split; [done|]. split; [intros l; by heap|]. done.
Qed.

(** X25.  [storeRef(link, val)] leaves the memory that a [casRef(link, val,
    old)] leaves when [old] is what the link holds, and that [casRef]
    succeeds: the link is set, the count of the new target goes up and its
    trace flag is reset, the count of the old target goes down. *)
Theorem storeRef_is_a_winning_casRef (tid : nat) (link : LinkAddr) (val : Z) (m : Mem) :
  alone tid (storeRef link val) m =
    ((alone tid (casRef link val (load_link m link)) m).1, Done ()) ∧
  (alone tid (casRef link val (load_link m link)) m).2 = Done true.
Proof.
  unfold storeRef, casRef. simpl. unfold cas_link.
  rewrite (bool_decide_eq_true_2 (load_link m link = load_link m link)) by done. simpl.
  destruct (bool_decide (link_ptr val ≠ nil));
    destruct (bool_decide (link_ptr (load_link m link) ≠ nil)); simpl; done.
Qed.

(** *** The second loop of scan *)

Lemma scan_hazards_slots tid td tdata (is_ : list nat) m :
  ∃ m', alone tid (for_each is_ (λ i,
            node ← call (LoadHazard tdata i);
            if bool_decide (node ≠ nil) then call (DelHazardsInsert td node)
            else Ret ())) m = (m', Done ()) ∧
        nodes m' = nodes m ∧ threadDataList m' = threadDataList m ∧
        (∀ t, td_hazards (td_at m' t) = td_hazards (td_at m t)) ∧
        ∀ p, p ∈ td_delHazards (td_at m' td) ↔
             p ∈ td_delHazards (td_at m td) ∨
             (p ≠ nil ∧ ∃ i, i ∈ is_ ∧ default nil (td_hazards (td_at m tdata) !! i) = p).
Proof.
  revert m. induction is_ as [|i is_ IH]; intros m.
  { exists m. split; [done|]. repeat split; try done.
    - by left.
    - intros [?|(_ & i & Hi & _)]; [done|]. by apply elem_of_nil in Hi. }
  cbn [for_each]. unfold mbind, Prog_bind. rewrite run_bind.
  set (p0 := default nil (td_hazards (td_at m tdata) !! i)).
  assert (∃ m1, alone tid (bind (call (LoadHazard tdata i)) (λ node,
              if bool_decide (node ≠ nil) then call (DelHazardsInsert td node)
              else Ret ())) m = (m1, Done ()) ∧
            nodes m1 = nodes m ∧ threadDataList m1 = threadDataList m ∧
            (∀ t, td_hazards (td_at m1 t) = td_hazards (td_at m t)) ∧
            ∀ p, p ∈ td_delHazards (td_at m1 td) ↔
                 p ∈ td_delHazards (td_at m td) ∨ (p ≠ nil ∧ p0 = p))
    as (m1 & Hrun & Hn & Hl & Hh & Hd).
  { simpl. fold p0. case_bool_decide as Hp; simpl.
    - eexists. split; [reflexivity|]. repeat split; try done.
      + intros t. rewrite td_at_upd_td. by case_decide; subst.
      + rewrite td_at_upd_td, decide_True by done. simpl. set_solver.
      + rewrite td_at_upd_td, decide_True by done. simpl. set_solver.
    - exists m. split; [done|]. repeat split; try done; [by left|].
      intros [?|[? ?]]; [done|]. congruence. }
  rewrite Hrun. destruct (IH m1) as (m' & Hrun' & Hn' & Hl' & Hh' & Hd').
  exists m'. split; [done|]. split; [congruence|]. split; [congruence|].
  split; [intros t; by rewrite Hh', Hh|].
  intros p. rewrite Hd', Hd, Hh. split.
  - intros [[?|[? ?]]|(? & j & Hj & ?)].
    + by left.
    + right. split; [done|]. exists i. split; [left|done].
    + right. split; [done|]. exists j. split; [by right|done].
  - intros [?|(? & j & [->|Hj]%elem_of_cons & ?)].
    + left. by left.
    + left. by right.
    + right. split; [done|]. by exists j.
Qed.

Lemma scan_hazards_threads tid td (tis : list nat) m :
  ∃ m', alone tid (for_each tis (λ ti,
            tdata ← call (ThreadDataAt ti);
            for_each (seq 0 (Z.to_nat hazardMax)) (λ i,
              node ← call (LoadHazard tdata i);
              if bool_decide (node ≠ nil) then call (DelHazardsInsert td node)
              else Ret ()))) m = (m', Done ()) ∧
        nodes m' = nodes m ∧ threadDataList m' = threadDataList m ∧
        (∀ t, td_hazards (td_at m' t) = td_hazards (td_at m t)) ∧
        ∀ p, p ∈ td_delHazards (td_at m' td) ↔
             p ∈ td_delHazards (td_at m td) ∨
             (p ≠ nil ∧ ∃ ti i, ti ∈ tis ∧ (i < Z.to_nat hazardMax)%nat ∧
                default nil (td_hazards
                  (td_at m (default 0%nat (threadDataList m !! ti))) !! i) = p).
Proof.
  revert m. induction tis as [|ti tis IH]; intros m.
  { exists m. split; [done|]. repeat split; try done.
    - by left.
    - intros [?|(_ & ti & i & Hi & _)]; [done|]. by apply elem_of_nil in Hi. }
  cbn [for_each]. unfold mbind, Prog_bind. rewrite run_bind.
  cbn [call bind run exec].
  destruct (scan_hazards_slots tid td (default 0%nat (threadDataList m !! ti))
              (seq 0 (Z.to_nat hazardMax)) m) as (m1 & Hrun & Hn & Hl & Hh & Hd).
  unfold mbind, Prog_bind, call in Hrun.
  match goal with |- context [run ?e ?t ?p m] =>
    change (run e t p m) with (alone tid
      (for_each (seq 0 (Z.to_nat hazardMax)) (λ i,
         bind (Vis (LoadHazard (default 0%nat (threadDataList m !! ti)) i) Ret) (λ node,
           if bool_decide (node ≠ nil) then Vis (DelHazardsInsert td node) Ret
           else Ret ()))) m) end.
  rewrite Hrun. destruct (IH m1) as (m' & Hrun' & Hn' & Hl' & Hh' & Hd').
  exists m'. split; [exact Hrun'|]. split; [congruence|]. split; [congruence|].
  split; [intros t; by rewrite Hh', Hh|].
  intros p. rewrite Hd', Hd, Hl. setoid_rewrite Hh. split.
  - intros [[?|(? & i & Hi & ?)]|(? & tj & j & Hj & ? & ?)].
    + by left.
    + right. split; [done|]. exists ti, i. apply elem_of_seq in Hi.
      split; [left|]. split; [lia|done].
    + right. split; [done|]. exists tj, j. split; [by right|done].
  - intros [?|(? & tj & j & [->|Hj]%elem_of_cons & ? & ?)].
    + left. by left.
    + left. right. split; [done|]. exists j. split; [apply elem_of_seq; lia|done].
    + right. split; [done|]. by exists tj, j.
Qed.

(** X26.  The second loop of [scan] flags every published hazard: after
    it, the set [delHazards] of the scanning thread holds what it held
    and every non-nil pointer in a hazard slot of a registered thread, and
    nothing else; the nodes, the registered threads and the hazard slots
    are as before. *)
Theorem scan_hazards_collects (tid td : nat) (m : Mem) :
  ∃ m', alone tid (scan_hazards td) m = (m', Done ()) ∧
        nodes m' = nodes m ∧ threadDataList m' = threadDataList m ∧
        (∀ t, td_hazards (td_at m' t) = td_hazards (td_at m t)) ∧
        ∀ p, p ∈ td_delHazards (td_at m' td) ↔
             p ∈ td_delHazards (td_at m td) ∨
             (p ≠ nil ∧ ∃ t i, t ∈ threadDataList m ∧ (i < Z.to_nat hazardMax)%nat ∧
                td_hazards (td_at m t) !! i = Some p).
Proof.
  destruct (scan_hazards_threads tid td (seq 0 (length (threadDataList m))) m)
    as (m' & Hrun & Hn & Hl & Hh & Hd).
  exists m'. split; [exact Hrun|]. do 3 (split; [done|]).
  intros p. rewrite Hd. split.
  - intros [?|(Hp & ti & i & Hti & Hi & Hs)]; [by left|]. right. split; [done|].
    apply elem_of_seq in Hti.
    destruct (threadDataList m !! ti) as [t|] eqn:Ht;
      [|apply lookup_ge_None in Ht; lia].
    exists t, i. split; [by eapply list_elem_of_lookup_2|]. split; [done|].
    simpl in Hs. destruct (td_hazards (td_at m t) !! i) as [q|]; simpl in Hs; congruence.
  - intros [?|(Hp & t & i & Ht & Hi & Hs)]; [by left|]. right. split; [done|].
    apply list_elem_of_lookup in Ht as [ti Hti].
    exists ti, i. split.
    + apply elem_of_seq. apply lookup_lt_Some in Hti. lia.
    + split; [done|]. by rewrite Hti; simpl; rewrite Hs.
Qed.

(** *** deleteNode *)

Lemma threshScan_le : threshScan threadMax ≤ threshClean threadMax.
Proof. unfold threshScan. destruct (Z.ltb_spec (int32 (hazardMax * 2)) (threshClean threadMax)); lia. Qed.

(** X27.  [deleteNode] by a registered thread whose count of deleted nodes
    stays below the scan threshold: the node is flagged deleted and its
    trace flag reset, the entry at the back of the thread's free list of
    entries is set to the node (not done) and put at the head of the
    thread's chain, the count goes up by one, and nothing is cleaned up,
    scanned or given back to the pools. *)
Theorem deleteNode_queues_the_node (cleanUpNode : Z → M unit)
    (terminateNode : Z → bool → M unit) (tid fuel : nat) (node : Z) (m : Mem)
    (td : ThreadData) (e : nat) :
  threads m !! tid = Some td →
  last (td_delNodeFreeList td) = Some e →
  (e < length (td_delNodes td))%nat →
  td_delCount td + 1 < threshScan threadMax →
  ∃ m', alone tid (deleteNode threadMax cleanUpNode terminateNode (S fuel) node) m
        = (m', Done ()) ∧
    n_del (node_at m' node) = true ∧ n_trace (node_at m' node) = false ∧
    entry_at m' tid e = mkDelNode node (dn_claim (entry_at m tid e)) false ∧
    td_delHead (td_at m' tid) = e :: td_delHead td ∧
    td_delCount (td_at m' tid) = td_delCount td + 1 ∧
    td_delNodeFreeList (td_at m' tid) = removelast (td_delNodeFreeList td) ∧
    td_hazards (td_at m' tid) = td_hazards td ∧
    pools m' = pools m ∧ ∀ l, load_link m' l = load_link m l.
Proof.
  intros Htd Hback He Hc.
  pose proof threshScan_le as Hle.
  assert (Hat : td_at m tid = td) by by apply td_at_Some.
  unfold deleteNode, threadData. simpl. unfold initThreadData. rewrite Htd. simpl.
  heap. rewrite Hat, Hback. simpl. unfold upd_entry. heap. simpl. rewrite Hat. simpl.
  destruct (Z.eqb_spec (td_delCount td + 1) (threshClean threadMax)); [lia|]. simpl.
  heap. simpl.
  destruct (Z.leb_spec (threshScan threadMax) (td_delCount td + 1)); [lia|]. simpl.
  heap. simpl.
  destruct (Z.eqb_spec (td_delCount td + 1) (threshClean threadMax)); [lia|]. simpl.
  eexists. split; [reflexivity|].
  unfold entry_at. heap. simpl. rewrite Hat. simpl.
  split; [done|]. split; [done|].
  split.
  { rewrite !list_lookup_alter_eq.
    destruct (td_delNodes td !! e) as [d|] eqn:Hd; [done|].
    apply lookup_ge_None in Hd. lia. }
  do 5 (split; [done|]).
  intros l. rewrite !load_link_upd_td. by rewrite !load_link_upd_node.
Qed.

End Facts.
End HazardUse.

Module HazardScenarios.
Import Heap Atomic HazardMem LockFreeList HeapFacts Runs HazardRuns HazardUse.

(** Thread 0 of the empty list takes and drops a reference to the head,
    node 2, with the hazard index 5. *)
Lemma ref_then_releaseRef_on_head :
  threads empty_list !! 0%nat = Some (td_at empty_list 0) ∧
  last (td_hazardFreeList (td_at empty_list 0)) = Some 5 ∧
  h_ref (hazard_at empty_list 0 2) = 0 ∧
  ∃ m', run ex 0 (ref 2;; releaseRef 2) empty_list = (m', Done ()) ∧
        td_hazardFreeList (td_at m' 0) = td_hazardFreeList (td_at empty_list 0) ∧
        td_hazards (td_at m' 0)
        = <[Z.to_nat 5 := nil]> (td_hazards (td_at empty_list 0)) ∧
        hazard_at m' 0 2 = mkHazard 5 0 ∧
        ∀ l, load_link m' l = load_link empty_list l.
Proof.
  assert (H1 : threads empty_list !! 0%nat = Some (td_at empty_list 0))
    by (vm_compute; reflexivity).
  assert (H2 : last (td_hazardFreeList (td_at empty_list 0)) = Some 5)
    by (vm_compute; reflexivity).
  assert (H3 : h_ref (hazard_at empty_list 0 2) = 0) by (vm_compute; reflexivity).
  split; [exact H1|]. split; [exact H2|]. split; [exact H3|].
  apply (ref_then_releaseRef (H := ListConfig 2) 8 0 2 empty_list _ 5 H1 H2); [lia|exact H3].
Defined.

(** Thread 0 holds the element, node 6, through its iterator and takes a
    second reference. *)
Lemma nested_ref_on_iterator :
  0 < 1 < 127 ∧ h_ref (hazard_at iterator_taken 0 6) = 1 ∧
  ∃ m1 m2, run ex 0 (ref 6) iterator_taken = (m1, Done ()) ∧
           run ex 0 (releaseRef 6) m1 = (m2, Done ()) ∧
           threads m1 = threads iterator_taken ∧ threads m2 = threads iterator_taken ∧
           h_ref (hazard_at m1 0 6) = 1 + 1 ∧
           hazard_at m2 0 6 = hazard_at iterator_taken 0 6.
Proof.
  assert (H1 : h_ref (hazard_at iterator_taken 0 6) = 1) by (vm_compute; reflexivity).
  split; [lia|]. split; [exact H1|].
  apply (nested_ref_takes_no_hazard (H := ListConfig 2) 8 0 6 iterator_taken 1); [lia|exact H1].
Defined.

(** Thread 0 of the empty list holds no reference to the head. *)
Lemma releaseRef_of_head_aborts :
  -127 ≤ h_ref (hazard_at empty_list 0 2) ≤ 0 ∧
  (run ex 0 (releaseRef 2) empty_list).2 = Aborted.
Proof.
  assert (H1 : -127 ≤ h_ref (hazard_at empty_list 0 2) ≤ 0) by (vm_compute; split; discriminate).
  split; [exact H1|].
  exact (releaseRef_unheld_aborts (H := ListConfig 2) 8 0 2 empty_list H1).
Defined.

(** With its seven hazard indices in use, thread 0 cannot protect the
    head. *)
Lemma exhausted_thread_aborts :
  threads exhausted !! 0%nat = Some (td_at exhausted 0) ∧
  td_hazardFreeList (td_at exhausted 0) = [] ∧
  h_ref (hazard_at exhausted 0 2) ≤ 0 ∧
  (run ex 0 (ref 2) exhausted).2 = Aborted ∧
  (run ex 0 (deRefLink (H := ListConfig 2) 3 LHead) exhausted).2 = Aborted ∧
  (run ex 0 HazardMem.createNode exhausted).2 = Aborted.
Proof.
  assert (H1 : threads exhausted !! 0%nat = Some (td_at exhausted 0))
    by (vm_compute; reflexivity).
  assert (H2 : td_hazardFreeList (td_at exhausted 0) = []) by (vm_compute; reflexivity).
  assert (H3 : h_ref (hazard_at exhausted 0 2) ≤ 0) by (vm_compute; discriminate).
  split; [exact H1|]. split; [exact H2|]. split; [exact H3|].
  exact (no_free_hazard_aborts (H := ListConfig 2) 8 0 3 2 LHead exhausted _ H1 H2 H3).
Defined.

(** Thread 0 of the empty list dereferences [_head], which points to
    node 2. *)
Lemma deRefLink_of_head :
  threads empty_list !! 0%nat = Some (td_at empty_list 0) ∧
  last (td_hazardFreeList (td_at empty_list 0)) = Some 5 ∧
  link_ptr (Config := ListConfig 2) (load_link empty_list LHead) = 2 ∧
  ∃ m', run ex 0 (deRefLink (H := ListConfig 2) 1 LHead) empty_list = (m', Done 2) ∧
    h_ref (hazard_at m' 0 2) = h_ref (hazard_at empty_list 0 2) + 1 ∧
    (∀ l, load_link m' l = load_link empty_list l) ∧
    if 0 <? h_ref (hazard_at empty_list 0 2) then
      td_hazards (td_at m' 0)
      = <[Z.to_nat 5 := nil]> (td_hazards (td_at empty_list 0)) ∧
      td_hazardFreeList (td_at m' 0) = td_hazardFreeList (td_at empty_list 0) ∧
      h_index (hazard_at m' 0 2) = h_index (hazard_at empty_list 0 2)
    else
      td_hazards (td_at m' 0)
      = <[Z.to_nat 5 := 2]> (td_hazards (td_at empty_list 0)) ∧
      td_hazardFreeList (td_at m' 0)
      = removelast (td_hazardFreeList (td_at empty_list 0)) ∧
      h_index (hazard_at m' 0 2) = 5.
Proof.
  assert (H1 : threads empty_list !! 0%nat = Some (td_at empty_list 0))
    by (vm_compute; reflexivity).
  assert (H2 : last (td_hazardFreeList (td_at empty_list 0)) = Some 5)
    by (vm_compute; reflexivity).
  assert (H3 : link_ptr (Config := ListConfig 2) (load_link empty_list LHead) = 2)
    by (vm_compute; reflexivity).
  assert (H4 : -128 ≤ h_ref (hazard_at empty_list 0 2) < 127)
    by (vm_compute; split; [discriminate|reflexivity]).
  split; [exact H1|]. split; [exact H2|]. split; [exact H3|].
  apply (deRefLink_protects (H := ListConfig 2) 8 0 0 LHead empty_list _ 5 2 H1 H2);
    [lia|exact H3|discriminate|exact H4].
Defined.

(** Thread 0 of the empty list deletes a node at address 10: its count
    of deleted nodes goes from 0 to 1, below the scan threshold 14. *)
Lemma deleteNode_on_the_empty_list :
  threads empty_list !! 0%nat = Some (td_at empty_list 0) ∧
  last (td_delNodeFreeList (td_at empty_list 0)) = Some 95%nat ∧
  td_delCount (td_at empty_list 0) + 1 < threshScan (H := ListConfig 2) 8 ∧
  ∃ m', run ex 0 (deleteNode 2 8 3 10) empty_list = (m', Done ()) ∧
    n_del (node_at m' 10) = true ∧ n_trace (node_at m' 10) = false ∧
    entry_at m' 0 95 = mkDelNode 10 (dn_claim (entry_at empty_list 0 95)) false ∧
    td_delHead (td_at m' 0) = 95%nat :: td_delHead (td_at empty_list 0) ∧
    td_delCount (td_at m' 0) = td_delCount (td_at empty_list 0) + 1 ∧
    td_delNodeFreeList (td_at m' 0)
    = removelast (td_delNodeFreeList (td_at empty_list 0)) ∧
    td_hazards (td_at m' 0) = td_hazards (td_at empty_list 0) ∧
    pools m' = pools empty_list ∧ ∀ l, load_link m' l = load_link empty_list l.
Proof.
  assert (H1 : threads empty_list !! 0%nat = Some (td_at empty_list 0))
    by (vm_compute; reflexivity).
  assert (H2 : last (td_delNodeFreeList (td_at empty_list 0)) = Some 95%nat)
    by (vm_compute; reflexivity).
  assert (H3 : (95 < length (td_delNodes (td_at empty_list 0)))%nat)
    by (vm_compute; lia).
  assert (H4 : td_delCount (td_at empty_list 0) + 1 < threshScan (H := ListConfig 2) 8)
    by (vm_compute; reflexivity).
  split; [exact H1|]. split; [exact H2|]. split; [exact H4|].
  exact (deleteNode_queues_the_node (H := ListConfig 2) 8 (cleanUpNode 2 3)
           (terminateNode 2) 0 2 10 empty_list _ 95 H1 H2 H3 H4).
Defined.

End HazardScenarios.

(** ** The registry of the threads *)

Module RegistryFacts.
Import Heap Atomic HazardMem HeapFacts Registry.

Section Facts.
Context `{Config}.
Variable threadMax : Z.

Lemma registered_same m m' :
  threadDataList m' = threadDataList m →
  (∀ t, is_Some (threads m !! t) → is_Some (threads m' !! t)) →
  registered threadMax m → registered threadMax m'.
Proof.
  intros Hl Ht (Hnd & Hin & Hlen). unfold registered. rewrite Hl.
  split; [done|]. split; [|done]. intros t Hi. by apply Ht, Hin.
Qed.

Lemma registered_upd_td t f m :
  registered threadMax m → registered threadMax (upd_td t f m).
Proof.
  apply registered_same; [done|]. intros t' Hs. unfold upd_td. simpl.
  destruct (decide (t' = t)) as [->|Hne].
  - rewrite lookup_insert_eq. eauto.
  - by rewrite lookup_insert_ne.
Qed.

Lemma registered_upd_node n f m :
  registered threadMax m → registered threadMax (upd_node n f m).
Proof. by apply registered_same. Qed.

Lemma registered_store_link l v m :
  registered threadMax m → registered threadMax (store_link l v m).
Proof. apply registered_same; by destruct l. Qed.

(** Every operation keeps the registry. *)
Lemma exec_registered B tid (o : Op B) m :
  registered threadMax m → registered threadMax (exec threadMax B tid o m).1.
Proof.
  intros Hr.
  destruct o; cbn [exec fst];
    try done;
    try (by apply registered_upd_node);
    try (by apply registered_upd_td);
    try (by apply registered_store_link);
    try (by apply (registered_same m)).
  - unfold cas_link. case_bool_decide; [by apply registered_store_link|done].
  - unfold initThreadData. destruct (threads m !! tid) eqn:Ht; [done|].
    case_bool_decide as Hlt; [|done]. cbn [fst].
    destruct Hr as (Hnd & Hin & Hlen). unfold registered. simpl.
    split; [|split].
    + apply NoDup_app. split; [done|]. split; [|apply NoDup_singleton].
      intros t Ht' ->%list_elem_of_singleton. apply Hin in Ht' as [? Ht']. congruence.
    + intros t [Ht'|Ht']%elem_of_app; [|apply list_elem_of_singleton in Ht' as ->].
      * destruct (decide (t = tid)) as [->|Hne].
        -- rewrite lookup_insert_eq. eauto.
        -- rewrite lookup_insert_ne by done. by apply Hin.
      * rewrite lookup_insert_eq. eauto.
    + rewrite length_app. simpl. lia.
  - destruct (0 <=? i); [by apply registered_upd_td|done].
  - unfold construct. destruct (pools m !! tid) as [[|p rest]|]; by apply (registered_same m).
Qed.

Lemma interleave_registered {A} sched (ps : list (M A)) logs m :
  registered threadMax m →
  registered threadMax (interleave (exec threadMax) sched ps logs m).1.1.
Proof.
  revert ps logs m. induction sched as [|t sched IH]; intros ps logs m Hr; [done|].
  cbn [interleave]. destruct (ps !! t) as [[a| | |B o k]|] eqn:Ht; try by apply IH.
  pose proof (exec_registered B t o m Hr) as Hr'.
  destruct (exec threadMax B t o m) as [m' b]. by apply IH.
Qed.

(** X28.  The registry of the memory manager under any schedule of any
    programs: the threads listed in [_threadDataList] stay distinct, each
    has its [ThreadData], and they never number more than [threadMax]. *)
Theorem registry_stays_within_threadMax {A} sched (ps : list (M A)) m :
  registered threadMax m →
  registered threadMax (interleave (exec threadMax) sched ps (start ps) m).1.1.
Proof. apply interleave_registered. Qed.

End Facts.

(** Two threads construct a list each on the memory manager, taking
    their steps in turn. *)
Lemma registry_stays_within_threadMax_witness :
  registered 8 Mem_new ∧
  registered 8
    (interleave (exec (H := ListConfig 2) 8) (concat (replicate 20 [0%nat; 1%nat]))
       [LockFreeList.List_new 2; LockFreeList.List_new 2]
       (start [LockFreeList.List_new 2; LockFreeList.List_new 2]) Mem_new).1.1.
Proof.
  assert (H0 : registered 8 Mem_new).
  { split; [apply NoDup_nil_2|]. split; [|simpl; lia].
    intros t Ht. by apply elem_of_nil in Ht. }
  split; [exact H0|].
  exact (registry_stays_within_threadMax (H := ListConfig 2) 8
           (concat (replicate 20 [0%nat; 1%nat]))
           [LockFreeList.List_new 2; LockFreeList.List_new 2] Mem_new H0).
Defined.

End RegistryFacts.

(** ** The link word and the links of a terminated node *)

Module LinkFacts.
Import Heap Atomic HazardMem LockFreeList HeapFacts Events.

Lemma testbit_b2z b n : 0 ≤ n → Z.testbit (Z.b2z b) n = b && (n =? 0).
Proof. intros Hn. destruct b, n as [|q|q]; try done; lia. Qed.

Lemma aligned_bit0 p : aligned p ↔ Z.testbit p 0 = false.
Proof.
  unfold aligned, d_mask. split.
  - intros Hp. apply (f_equal (λ z, Z.testbit z 0)) in Hp.
    rewrite Z.land_spec in Hp. simpl in Hp. by rewrite andb_true_r in Hp.
  - intros Hp. apply Z.bits_inj'. intros n Hn.
    rewrite Z.land_spec, Z.bits_0, (testbit_b2z true) by done. cbn [negb andb orb].
    destruct (Z.eqb_spec n 0) as [->|]; [by rewrite Hp|by rewrite andb_false_r].
Qed.

Lemma testbit_ptr_mask n : 0 ≤ n → Z.testbit ptr_mask n = negb (n =? 0).
Proof.
  intros Hn. unfold ptr_mask, d_mask. rewrite Z.lnot_spec by done.
  by rewrite (testbit_b2z true).
Qed.

Lemma Link_ptr_Link p d : aligned p → Link_ptr (Link p d) = p.
Proof.
  intros Hp%aligned_bit0. unfold Link_ptr, Link. apply Z.bits_inj'. intros n Hn.
  rewrite Z.land_spec, Z.lor_spec, testbit_ptr_mask, testbit_b2z by done.
  destruct (Z.eqb_spec n 0) as [->|]; cbn [negb andb orb].
  - by rewrite Hp, andb_false_r.
  - by rewrite andb_false_r, orb_false_r, andb_true_r.
Qed.

Lemma Link_d_Link p d : aligned p → Link_d (Link p d) = d.
Proof.
  intros Hp%aligned_bit0. unfold Link_d, Link, d_mask.
  assert (Z.land (Z.lor p (Z.b2z d)) 1 = Z.b2z d) as ->.
  { apply Z.bits_inj'. intros n Hn.
    rewrite Z.land_spec, Z.lor_spec, (testbit_b2z true), testbit_b2z by done. cbn [negb andb orb].
    destruct (Z.eqb_spec n 0) as [->|]; cbn [negb andb orb].
    - by rewrite Hp, !andb_true_r.
    - by rewrite !andb_false_r. }
  by destruct d.
Qed.

Lemma Link_eta x : Link (Link_ptr x) (Link_d x) = x.
Proof.
  unfold Link, Link_ptr, Link_d, d_mask. apply Z.bits_inj'. intros n Hn.
  rewrite Z.lor_spec, Z.land_spec, testbit_ptr_mask, testbit_b2z by done.
  destruct (Z.eqb_spec n 0) as [->|]; cbn [negb andb orb].
  - rewrite andb_false_r, andb_true_r. cbn [negb andb orb].
    assert (Z.land x 1 = Z.b2z (Z.testbit x 0)) as ->.
    { apply Z.bits_inj'. intros k Hk.
      rewrite Z.land_spec, (testbit_b2z true), testbit_b2z by done. cbn [negb andb orb].
      destruct (Z.eqb_spec k 0) as [->|]; [by rewrite !andb_true_r|by rewrite !andb_false_r]. }
    by destruct (Z.testbit x 0).
  - by rewrite andb_true_r, andb_false_r, orb_false_r.
Qed.

(** X29.  The link word of the list: a node pointer with a free low bit
    and a delete mark, packed by [Link(ptr, d)], are read back by [ptr()]
    and [d()]; and any word is the packing of its [ptr()] and [d()],
    whose [ptr()] has the low bit free. *)
Theorem Link_packs_pointer_and_mark (p x : Z) (d : bool) :
  aligned p →
  Link_ptr (Link p d) = p ∧ Link_d (Link p d) = d ∧
  Link (Link_ptr x) (Link_d x) = x ∧ aligned (Link_ptr x).
Proof.
  intros Hp. split; [by apply Link_ptr_Link|]. split; [by apply Link_d_Link|].
  split; [apply Link_eta|apply ListPaths.Link_ptr_aligned].
Qed.

Lemma Link_packs_pointer_and_mark_witness :
  aligned 6 ∧
  Link_ptr (Link 6 true) = 6 ∧ Link_d (Link 6 true) = true ∧
  Link (Link_ptr 9) (Link_d 9) = 9 ∧ aligned (Link_ptr 9).
Proof.
  split; [reflexivity|]. apply (Link_packs_pointer_and_mark 6 9 true). reflexivity.
Defined.

End LinkFacts.

Module TerminateFacts.
Import Heap Atomic HazardMem LockFreeList HeapFacts Events LinkFacts.

Section Facts.
Variable iterMax : Z.
Variable threadMax : Z.

Abbreviation alone := (run (exec (H := ListConfig iterMax) threadMax)).

#[local] Arguments load_link : simpl never.
#[local] Arguments store_link : simpl never.
#[local] Arguments upd_node : simpl never.

Lemma n_ref_dec q m0 p :
  n_ref (node_at ((if bool_decide (q ≠ nil)
                   then upd_node q (with_ref (λ r, int32 (r + -1))) else id) m0) p)
  = (if decide (p = q ∧ p ≠ nil) then λ r, int32 (r - 1) else id) (n_ref (node_at m0 p)).
Proof.
  case_bool_decide as Hq.
  - rewrite node_at_upd_node. destruct (decide (p = q)) as [->|Hne].
    + by rewrite decide_True.
    + by rewrite decide_False by tauto.
  - rewrite decide_False; [done|]. intros [-> Hp]. by apply Hp.
Qed.

(** X30.  [terminateNode] of the list, in either mode and with no other
    thread taking a step: both links of the node end as the marked nil
    link, no other link changes, and the reference count of each node the
    two links pointed to goes down by one (first for [prev], then for
    [next]); the thread records and the pools are untouched. *)
Theorem terminateNode_cuts_both_links (tid : nat) (node : Z) (concurrent : bool) (m : Mem) :
  ∃ m', alone tid (terminateNode iterMax node concurrent) m = (m', Done ()) ∧
    load_link m' (LPrev node) = Link nil true ∧
    load_link m' (LNext node) = Link nil true ∧
    (∀ l, l ≠ LPrev node → l ≠ LNext node → load_link m' l = load_link m l) ∧
    (∀ p, n_ref (node_at m' p) =
          (if decide (p = Link_ptr (load_link m (LNext node)) ∧ p ≠ nil)
           then λ r, int32 (r - 1) else id)
            ((if decide (p = Link_ptr (load_link m (LPrev node)) ∧ p ≠ nil)
              then λ r, int32 (r - 1) else id) (n_ref (node_at m p)))) ∧
    threads m' = threads m ∧ pools m' = pools m.
Proof.
  set (pv := load_link m (LPrev node)). set (nx := load_link m (LNext node)).
  assert (Hrun : alone tid (terminateNode iterMax node concurrent) m =
    ((if bool_decide (Link_ptr nx ≠ nil)
      then upd_node (Link_ptr nx) (with_ref (λ r, int32 (r + -1))) else id)
       (store_link (LNext node) (Link nil true)
          ((if bool_decide (Link_ptr pv ≠ nil)
            then upd_node (Link_ptr pv) (with_ref (λ r, int32 (r + -1))) else id)
             (store_link (LPrev node) (Link nil true) m))), Done ())).
  { assert (Hnx : load_link
               ((if bool_decide (Link_ptr pv ≠ nil)
                 then upd_node (Link_ptr pv) (with_ref (λ r, int32 (r + -1))) else id)
                  (store_link (LPrev node) (Link nil true) m)) (LNext node) = nx).
    { case_bool_decide; cbv beta iota; unfold id.
      - rewrite load_link_upd_node by done. rewrite load_link_store_link.
        by rewrite decide_False.
      - rewrite load_link_store_link. by rewrite decide_False. }
    unfold terminateNode, storeRef, casRef. destruct concurrent; simpl.
    - unfold cas_link. fold pv.
      rewrite (bool_decide_eq_true_2 (pv = pv)) by done. simpl.
      destruct (bool_decide (Link_ptr pv ≠ nil)) eqn:Hpv; simpl; unfold id in Hnx; rewrite Hnx;
        unfold cas_link; rewrite Hnx;
        rewrite (bool_decide_eq_true_2 (nx = nx)) by done;
        simpl; by destruct (bool_decide (Link_ptr nx ≠ nil)).
    - fold pv. change (Link nil true) with 1 in Hnx.
      destruct (bool_decide (Link_ptr pv ≠ nil)) eqn:Hpv; simpl; unfold id in Hnx; rewrite Hnx;
        by destruct (bool_decide (Link_ptr nx ≠ nil)). }
  eexists. split; [exact Hrun|].
  split; [|split; [|split; [|split]]].
  - do 2 case_bool_decide; cbv beta iota; unfold id;
      rewrite ?load_link_upd_node by done; rewrite ?load_link_store_link;
      rewrite ?decide_False by done;
      rewrite ?load_link_upd_node by done; rewrite ?load_link_store_link;
      by rewrite ?decide_True.
  - do 2 case_bool_decide; cbv beta iota; unfold id;
      rewrite ?load_link_upd_node by done; rewrite ?load_link_store_link;
      by rewrite ?decide_True.
  - intros l Hp Hn. do 2 case_bool_decide; cbv beta iota; unfold id;
      rewrite ?load_link_upd_node by done; rewrite ?load_link_store_link;
      rewrite ?decide_False by done;
      rewrite ?load_link_upd_node by done; rewrite ?load_link_store_link;
      by rewrite ?decide_False.
  - intros p. by rewrite n_ref_dec, n_ref_store_link, n_ref_dec, n_ref_store_link.
  - by do 2 case_bool_decide; destruct node.
Qed.

End Facts.
End TerminateFacts.

(** ** Calls of the memory manager by any thread *)

Module CallerFacts.
Import Heap Atomic HazardMem HeapFacts HazardMemFacts Threads.

Section Facts.
Context `{Config}.
Variable threadMax : Z.

Abbreviation alone := (run (exec threadMax)).

Lemma td_at_initThreadData tid m m' td :
  initThreadData threadMax tid m = (m', Some td) →
  td = tid ∧ threads m' !! tid = Some (td_at m' tid) ∧
  (∀ p, node_at m' p = node_at m p) ∧ (∀ l, load_link m' l = load_link m l) ∧
  pools m' = pools m ∧ slab m' = slab m ∧
  (∀ t, t ≠ tid → td_at m' t = td_at m t).
Proof.
  unfold initThreadData. destruct (threads m !! tid) as [td0|] eqn:Ht.
  - intros [= <- <-]. split; [done|]. split; [|by repeat split].
    unfold td_at. by rewrite Ht.
  - case_bool_decide; [|done]. intros [= <- <-]. split; [done|].
    split; [unfold td_at; simpl; by rewrite lookup_insert_eq|].
    split; [done|]. split; [by intros []|]. split; [done|]. split; [done|].
    intros t Hne. unfold td_at. simpl. by rewrite lookup_insert_ne.
Qed.

Lemma run_threadData_of tid m :
  alone tid threadData m =
  match initThreadData threadMax tid m with
  | (m', Some td) => (m', Done td)
  | (m', None) => (m', Aborted)
  end.
Proof.
  unfold threadData. simpl. by destruct (initThreadData threadMax tid m) as [m' [td|]].
Qed.

(** C10, as the code has it.  [deRefLink] on a link whose pointer is nil.
    The call first takes its thread data and the hazard index at the back
    of the free list: it fails an assertion when the thread cannot be
    registered or has no free hazard index.  Otherwise it returns nil, the
    free list of hazard indices is the one the thread had (no slot is
    consumed), and no node changes, so no per-thread hazard reference
    count does; the only write is nil into the free hazard slot the call
    probed with, which holds nil already whenever the slot is free, and
    then a registered thread's call leaves the memory as it was. *)
Theorem deRefLink_nil_returns_nil (tid fuel : nat) (link : LinkAddr) (m : Mem) :
  link_ptr (load_link m link) = nil →
  match threadData_of threadMax tid m with
  | None => (alone tid (deRefLink (S fuel) link) m).2 = Aborted
  | Some td =>
      match last (td_hazardFreeList td) with
      | None => (alone tid (deRefLink (S fuel) link) m).2 = Aborted
      | Some index =>
          (alone tid (deRefLink (S fuel) link) m).2 = Done nil ∧
          td_hazardFreeList (td_at (alone tid (deRefLink (S fuel) link) m).1 tid)
          = td_hazardFreeList td ∧
          nodes (alone tid (deRefLink (S fuel) link) m).1 = nodes m ∧
          (∀ t n, hazard_at (alone tid (deRefLink (S fuel) link) m).1 t n
                  = hazard_at m t n) ∧
          (∀ l, load_link (alone tid (deRefLink (S fuel) link) m).1 l = load_link m l) ∧
          td_hazards (td_at (alone tid (deRefLink (S fuel) link) m).1 tid) =
            (if 0 <=? index then <[Z.to_nat index := nil]> (td_hazards td)
             else td_hazards td) ∧
          (threads m !! tid = Some td → td_hazards td !! Z.to_nat index = Some nil →
           (alone tid (deRefLink (S fuel) link) m).1 = m)
      end
  end.
Proof.
  intros Hnil. unfold threadData_of.
  unfold deRefLink, mbind, Prog_bind. rewrite run_bind, run_threadData_of.
  destruct (initThreadData threadMax tid m) as [m0 [td|]] eqn:Hinit; [|done].
  destruct (td_at_initThreadData tid m m0 td Hinit) as (-> & Ht0 & Hn0 & Hl0 & _).
  assert (Hnodes : nodes m0 = nodes m).
  { unfold initThreadData in Hinit. destruct (threads m !! tid); [by injection Hinit as <-|].
    case_bool_decide; [|done]. by injection Hinit as <-. }
  simpl. destruct (last (td_hazardFreeList (td_at m0 tid))) as [index|] eqn:Hback; [|done].
  simpl. rewrite Hl0, Hnil.
  destruct (0 <=? index) eqn:Hi; simpl.
  - rewrite load_link_upd_td, Hl0, Hnil. simpl.
    rewrite td_at_upd_td, decide_True by done. simpl.
    repeat split; try done.
    + intros t n. rewrite hazard_at_upd_td. unfold hazard_at. by rewrite Hn0.
    + intros Htd Hslot.
      assert (m0 = m) as ->.
      { unfold initThreadData in Hinit. rewrite Htd in Hinit. by injection Hinit as <-. }
      apply upd_td_id with (td_at m tid); [done|].
      destruct (td_at m tid); unfold with_hazards; simpl in *. f_equal.
      by apply list_insert_id.
  - rewrite Hl0, Hnil. simpl. repeat split; try done.
    { intros t n. unfold hazard_at. by rewrite Hn0. }
    intros Htd _. unfold initThreadData in Hinit. rewrite Htd in Hinit.
    by injection Hinit as <-.
Qed.

(** C3, as the code has it.  [createNode]: the node comes from the pool of
    the calling thread (a recycled node of that pool, else the next slot of
    the slab) and carries the thread as its origin; its header is zeroed
    ([ref = 0], [trace = false], [del = false]) and stays so; [ref()] sets
    the calling thread's hazard reference count on the node to 1, takes the
    hazard index at the back of the thread's free list and publishes the
    node in that hazard slot.  The call fails an assertion, and returns no
    node, when the thread cannot be registered or has no free hazard
    index. *)
Theorem createNode_refs_by_hazard (tid : nat) (m : Mem) :
  let m' := (alone tid createNode m).1 in
  let node := match pools m !! tid with Some (p :: _) => p | _ => slab m end in
  match threadData_of threadMax tid m with
  | None => (alone tid createNode m).2 = Aborted
  | Some td =>
      match last (td_hazardFreeList td) with
      | None => (alone tid createNode m).2 = Aborted
      | Some index =>
          (alone tid createNode m).2 = Done node ∧
          match pools m !! tid with
          | Some (_ :: rest) => pools m' !! tid = Some rest ∧ slab m' = slab m
          | _ => pools m' = pools m ∧ slab m' = slab m + 2
          end ∧
          n_threadId (node_at m' node) = tid ∧
          n_ref (node_at m' node) = 0 ∧
          n_trace (node_at m' node) = false ∧
          n_del (node_at m' node) = false ∧
          hazard_at m' tid node = mkHazard index 1 ∧
          td_hazards (td_at m' tid) =
            (if 0 <=? index then <[Z.to_nat index := node]> (td_hazards td)
             else td_hazards td) ∧
          td_hazardFreeList (td_at m' tid) = removelast (td_hazardFreeList td)
      end
  end.
Proof.
  intros m' node.
  set (m1 := fst (construct tid m)).
  assert (Hc : construct tid m = (m1, node)).
  { subst m1 node. unfold construct. by destruct (pools m !! tid) as [[|p rest]|]. }
  assert (Hn1 : node_at m1 node = Node_new tid).
  { subst m1 node. unfold construct, node_at.
    destruct (pools m !! tid) as [[|p rest]|]; simpl; by rewrite lookup_insert_eq. }
  assert (Ht1 : threads m1 = threads m ∧ threadDataList m1 = threadDataList m).
  { subst m1. unfold construct. by destruct (pools m !! tid) as [[|p rest]|]. }
  assert (Hp1 : match pools m !! tid with
                | Some (_ :: rest) => pools m1 !! tid = Some rest ∧ slab m1 = slab m
                | _ => pools m1 = pools m ∧ slab m1 = slab m + 2
                end).
  { subst m1. unfold construct. destruct (pools m !! tid) as [[|p rest]|]; simpl; try done.
    by rewrite lookup_insert_eq. }
  assert (Hh1 : hazard_at m1 tid node = Hazard0).
  { unfold hazard_at. by rewrite Hn1. }
  set (m2 := upd_hazard tid node (λ h, mkHazard (h_index h) (int8 (h_ref h + 1))) m1).
  assert (Hrun : alone tid createNode m =
                 alone tid (td ← threadData;
                            back ← call (HazardFreeBack td);
                            match back with
                            | None => Abort
                            | Some index =>
                                call (HazardFreePop td);;
                                call (StoreHazardIndex node index);;
                                call (StoreHazard td index node);;
                                Ret node
                            end) m2).
  { unfold createNode, call, mbind, Prog_bind. cbn [bind run exec]. rewrite Hc.
    unfold ref, call, mbind, Prog_bind. cbn [bind run exec fst snd]. rewrite Hh1.
    simpl. fold m2. destruct (initThreadData threadMax tid m2) as [s [td|]]; simpl; [|done].
    by destruct (last (td_hazardFreeList (td_at s td))). }
  subst m'. rewrite Hrun. clear Hrun.
  unfold mbind, Prog_bind. rewrite run_bind, run_threadData_of.
  assert (Hi2 : (initThreadData threadMax tid m2).2 = (initThreadData threadMax tid m).2 ∧
                td_at (initThreadData threadMax tid m2).1 tid
                = td_at (initThreadData threadMax tid m).1 tid).
  { unfold initThreadData.
    change (threads m2) with (threads m1). change (threadDataList m2) with (threadDataList m1).
    destruct Ht1 as [Ht1 ->]. rewrite Ht1. destruct (threads m !! tid) as [td|] eqn:Htd.
    - split; [done|]. simpl. unfold td_at.
      change (threads m2) with (threads m1). by rewrite Ht1.
    - case_bool_decide; simpl.
      + split; [done|]. unfold td_at; simpl. by rewrite !lookup_insert_eq.
      + split; [done|]. unfold td_at. change (threads m2) with (threads m1).
        by rewrite Ht1. }
  unfold threadData_of.
  destruct (initThreadData threadMax tid m) as [m0 [td|]] eqn:Hinit;
    destruct (initThreadData threadMax tid m2) as [m3 [td'|]] eqn:Hinit2;
    simpl in Hi2; destruct Hi2 as [Hr2 Htd2]; try done.
  destruct (td_at_initThreadData tid m m0 td Hinit) as (-> & _).
  destruct (td_at_initThreadData tid m2 m3 td' Hinit2) as (-> & Ht3 & Hn3 & Hl3 & Hpo3 & Hsl3 & _).
  simpl. rewrite Htd2.
  destruct (last (td_hazardFreeList (td_at m0 tid))) as [index|] eqn:Hback; [|done].
  simpl.
  assert (Hnode3 : node_at m3 node
                   = with_hazard <[tid := mkHazard (-1) 1]> (Node_new tid)).
  { rewrite Hn3. subst m2. unfold upd_hazard. rewrite node_at_upd_node, decide_True by done.
    rewrite Hh1, Hn1. reflexivity. }
  assert (Hhz3 : hazard_at m3 tid node = mkHazard (-1) 1).
  { unfold hazard_at. rewrite Hnode3. simpl. by rewrite lookup_insert_eq. }
  split; [by destruct (0 <=? index)|].
  split.
  { destruct (0 <=? index); simpl; rewrite ?Hpo3, ?Hsl3;
      subst m2; unfold upd_hazard, upd_node; simpl; exact Hp1. }
  destruct (0 <=? index) eqn:Hi; simpl;
    autorewrite with heap; rewrite ?decide_True by done; simpl;
    autorewrite with heap; rewrite ?decide_True by done; simpl;
    rewrite ?Hhz3, ?Hnode3, ?Htd2; done.
Qed.

End Facts.
End CallerFacts.

Module CallerScenarios.
Import Heap Atomic HazardMem LockFreeList Runs HazardRuns Threads ThreadRuns CallerFacts.

(** [deRefLink] on the [prev] link of the head, which is nil, by the thread
    that built the list. *)
Lemma deRefLink_of_nil_link :
  (run ex 0 (deRefLink (H := ListConfig 2) 10 (LPrev 2)) empty_list).2 = Done nil ∧
  nodes (run ex 0 (deRefLink (H := ListConfig 2) 10 (LPrev 2)) empty_list).1
    = nodes empty_list ∧
  td_hazardFreeList
    (td_at (run ex 0 (deRefLink (H := ListConfig 2) 10 (LPrev 2)) empty_list).1 0)
    = td_hazardFreeList (td_at empty_list 0).
Proof.
  assert (Hnil : link_ptr (Config := ListConfig 2) (load_link empty_list (LPrev 2)) = nil)
    by (vm_compute; reflexivity).
  pose proof (deRefLink_nil_returns_nil (H := ListConfig 2) 8 0 9 (LPrev 2) empty_list
                Hnil) as Hcall.
  assert (Htd : threadData_of (H := ListConfig 2) 8 0 empty_list
                = Some (td_at empty_list 0)) by (vm_compute; reflexivity).
  rewrite Htd in Hcall.
  assert (Hlast : last (td_hazardFreeList (td_at empty_list 0)) = Some 5)
    by (vm_compute; reflexivity).
  rewrite Hlast in Hcall.
  destruct Hcall as (Hr & Hf & Hn & _).
  split; [exact Hr|]. split; [exact Hn|exact Hf].
Defined.

(** C10, counterexample: thread 0 holds every hazard index; its call of
    [deRefLink] on the [prev] link of the head, which is nil, fails the
    assertion and returns nothing.  So does the call of a ninth thread,
    which cannot be registered. *)
Lemma deRefLink_of_nil_link_aborts :
  link_ptr (Config := ListConfig 2) (load_link exhausted (LPrev 2)) = nil ∧
  td_hazardFreeList (td_at exhausted 0) = [] ∧
  (run ex 0 (deRefLink (H := ListConfig 2) 10 (LPrev 2)) exhausted).2 = Aborted ∧
  (run ex 0 (deRefLink (H := ListConfig 2) 10 (LPrev 2)) exhausted).2 ≠ Done nil ∧
  link_ptr (Config := ListConfig 2) (load_link crowded (LPrev 2)) = nil ∧
  length (threadDataList crowded) = 8%nat ∧ threads crowded !! 8%nat = None ∧
  (run ex 8 (deRefLink (H := ListConfig 2) 10 (LPrev 2)) crowded).2 = Aborted.
Proof. vm_compute. repeat split; done. Qed.

End CallerScenarios.

(** ** The reclamation scan *)

Module ScanFacts.
Import Heap Atomic HazardMem Reclaim HeapFacts HazardMemFacts HazardUse CallerFacts ScanPhases.

Section Facts.
Context `{Config}.
Variable threadMax : Z.
Variable terminateNode : Z → bool → M unit.
Hypothesis Hframe : terminate_frame threadMax terminateNode.

Abbreviation alone := (run (exec threadMax)).

Lemma entry_at_upd_entry_ne t e e' f m :
  e' ≠ e → entry_at (upd_entry t e f m) t e' = entry_at m t e'.
Proof.
  intros Hne. unfold entry_at, upd_entry. rewrite td_at_upd_td, decide_True by done.
  simpl. by rewrite list_lookup_alter_ne.
Qed.

Lemma entry_at_upd_entry_eq t e f m :
  entry_at (upd_entry t e f m) t e =
  if decide (e < length (td_delNodes (td_at m t)))%nat then f (entry_at m t e)
  else entry_at m t e.
Proof.
  unfold entry_at, upd_entry. rewrite td_at_upd_td, decide_True by done. simpl.
  rewrite list_lookup_alter_eq. case_decide as He.
  - by destruct (lookup_lt_is_Some_2 _ _ He) as [x ->].
  - rewrite lookup_ge_None_2 by lia. done.
Qed.

Lemma entry_at_default t e m :
  ¬ (e < length (td_delNodes (td_at m t)))%nat → entry_at m t e = DelNode0.
Proof. intros He. unfold entry_at. rewrite lookup_ge_None_2 by lia. done. Qed.

(** One iteration of the third loop of [scan]. *)
Lemma run_scan_visit (tid td e : nat) (m : Mem) :
  ∃ m' r, alone tid (scan_visit terminateNode td e) m = (m', Done r) ∧
          visited td e m m' r.
Proof.
  unfold visited.
  set (node := dn_node (entry_at m td e)).
  set (claim := dn_claim (entry_at m td e)).
  set (origin := n_threadId (node_at m node)).
  unfold scan_visit, call, mbind, Prog_bind. cbn [bind run exec]. fold node.
  rewrite run_bind, run_scan_reclaimable.
  match goal with |- context [@bool_decide ?P ?D] =>
    destruct (@bool_decide_reflect P D) as [Hrec|Hrec] end.
  - cbn [bind run exec].
    rewrite entry_at_upd_entry_eq.
    replace (dn_claim (if decide (e < length (td_delNodes (td_at m td)))%nat
                       then with_node nil (entry_at m td e) else entry_at m td e))
      with claim by (by case_decide).
    destruct (Z.eqb_spec claim 0) as [Hc|Hc].
    + cbn [bind run exec]. rewrite run_bind.
      match goal with |- context [run _ tid (terminateNode node false) ?m0] =>
        destruct (Hframe tid node false m0) as (m2 & Ht & Hth & Hpo & Hca & Hid)
      end.
      rewrite Ht. cbn [bind run exec]. eexists _, _. split; [reflexivity|].
      assert (Horigin : n_threadId (node_at m2 node) = origin).
      { rewrite Hid. subst origin. done. }
      assert (Htd : td_at m2 td = td_at (upd_entry td e (with_node nil) m) td).
      { unfold td_at. by rewrite Hth. }
      assert (Htd' : td_at (destruct_ node (set_calls (λ l, l ++ [CDestruct node])
                        (upd_td td (with_delNodeFreeList (λ l, l ++ [e])) m2))) td
                     = with_delNodeFreeList (λ l, l ++ [e])
                         (td_at (upd_entry td e (with_node nil) m) td)).
      { unfold destruct_. autorewrite with heap. rewrite decide_True by done.
        by rewrite Htd. }
      split; [|split; [|split; [|split; [|split]]]].
      * intros _. split; [done|].
        unfold destruct_. simpl. rewrite Hca. simpl.
        split; [by rewrite <- app_assoc|].
        autorewrite with heap. rewrite decide_True by done. simpl.
        rewrite Htd. unfold upd_entry. autorewrite with heap.
        rewrite decide_True by done. simpl.
        split; [done|].
        rewrite Horigin, lookup_insert_eq, Hpo. split; [done|].
        unfold entry_at. autorewrite with heap. rewrite decide_True by done. simpl.
        rewrite Htd. fold (entry_at (upd_entry td e (with_node nil) m) td e).
        rewrite entry_at_upd_entry_eq. case_decide as He; [done|].
        by rewrite entry_at_default.
      * intros [_ ?]. done.
      * intros ?. tauto.
      * rewrite Htd'. unfold upd_entry. autorewrite with heap.
        by rewrite decide_True by done.
      * rewrite Htd'. unfold upd_entry. autorewrite with heap.
        by rewrite decide_True by done.
      * intros e' Hne. unfold entry_at at 1. rewrite Htd'. simpl.
        fold (entry_at (upd_entry td e (with_node nil) m) td e').
        by rewrite entry_at_upd_entry_ne.
    + cbn [bind run exec]. rewrite run_bind.
      match goal with |- context [run _ tid (terminateNode node true) ?m0] =>
        destruct (Hframe tid node true m0) as (m2 & Ht & Hth & Hpo & Hca & Hid)
      end.
      rewrite Ht. cbn [bind run exec]. eexists _, _. split; [reflexivity|].
      assert (Htd : td_at m2 td = td_at (upd_entry td e (with_node nil) m) td).
      { unfold td_at. by rewrite Hth. }
      assert (He : (e < length (td_delNodes (td_at m td)))%nat).
      { destruct (decide (e < length (td_delNodes (td_at m td)))%nat) as [|He]; [done|].
        exfalso. apply Hc. subst claim. by rewrite entry_at_default. }
      assert (Hen : ∀ e', entry_at m2 td e' = entry_at (upd_entry td e (with_node nil) m) td e').
      { intros e'. unfold entry_at. by rewrite Htd. }
      split; [|split; [|split; [|split; [|split]]]].
      * intros [_ ?]. done.
      * intros _. split; [done|].
        split; [simpl; by rewrite Hca|].
        split.
        { assert (He1 : (e < length (td_delNodes (td_at m2 td)))%nat)
            by (by rewrite Htd, length_delNodes_upd_entry).
          assert (He2 : (e < length (td_delNodes
                          (td_at (upd_entry td e (with_done true) m2) td)))%nat)
            by (by rewrite length_delNodes_upd_entry).
          rewrite (entry_at_upd_entry _ _ _ _ He2), (entry_at_upd_entry _ _ _ _ He1).
          rewrite Hen, entry_at_upd_entry by done. done. }
        split.
        { unfold upd_entry. autorewrite with heap. rewrite ?decide_True by done. simpl.
          autorewrite with heap. rewrite ?decide_True by done. simpl. rewrite Htd.
          unfold upd_entry. autorewrite with heap. rewrite ?decide_True by done. done. }
        simpl. by rewrite Hpo.
      * intros ?. tauto.
      * unfold upd_entry. autorewrite with heap. rewrite ?decide_True by done. simpl.
        autorewrite with heap. rewrite ?decide_True by done. simpl. rewrite Htd.
        unfold upd_entry. autorewrite with heap. rewrite ?decide_True by done. done.
      * unfold upd_entry. autorewrite with heap. rewrite ?decide_True by done. simpl.
        autorewrite with heap. rewrite ?decide_True by done. simpl. rewrite Htd.
        unfold upd_entry. autorewrite with heap. rewrite ?decide_True by done. done.
      * intros e' Hne. rewrite !entry_at_upd_entry_ne by done.
        rewrite Hen. by rewrite entry_at_upd_entry_ne.
  - cbn [bind run exec]. exists m, (Some e). split; [done|].
    split; [|split; [|split]]; try tauto.
Qed.

(** The third loop of [scan]. *)
Lemma run_scan_walk (tid td : nat) (chain : list nat) (m : Mem) (keep : list nat)
    (count : Z) :
  ∃ m' keep', alone tid (scan_walk terminateNode td chain keep count) m
              = (m', Done (keep', count + Z.of_nat (length keep') - Z.of_nat (length keep))) ∧
              walk td chain m keep m' keep'.
Proof.
  revert m keep count. induction chain as [|e rest IH]; intros m keep count.
  { exists m, keep. split; [|constructor]. simpl. do 3 f_equal. lia. }
  cbn [scan_walk]. unfold call, mbind, Prog_bind. cbn [bind run exec].
  rewrite run_bind.
  destruct (run_scan_visit tid td e (upd_td td (with_delHead (λ _, rest)) m))
    as (m1 & r & Hrun & Hv).
  rewrite Hrun. destruct r as [e'|].
  - destruct (IH m1 (e' :: keep) (count + 1)) as (m' & keep' & Hrun' & Hw).
    exists m', keep'. split; [|by econstructor].
    rewrite Hrun'. do 3 f_equal. simpl length. lia.
  - destruct (IH m1 keep count) as (m' & keep' & Hrun' & Hw).
    exists m', keep'. split; [done|by econstructor].
Qed.

(** *** The first two loops *)

(** The first loop of [scan] sets the trace flag of the nodes of the chain
    that no link refers to. *)
Lemma run_scan_traces (tid td : nat) (chain : list nat) (m : Mem) :
  ∃ m', alone tid (for_each chain (scan_trace td)) m = (m', Done ()) ∧
        threads m' = threads m ∧ threadDataList m' = threadDataList m ∧
        pools m' = pools m ∧ calls m' = calls m ∧
        ∀ p, node_at m' p =
             if decide (p ∈ chain_nodes m td chain ∧ n_ref (node_at m p) = 0)
             then with_trace true (node_at m p) else node_at m p.
Proof.
  revert m. induction chain as [|e rest IH]; intros m.
  { exists m. split; [done|]. do 4 (split; [done|]). intros p.
    rewrite decide_False; [done|]. intros [Hin _]. by apply elem_of_nil in Hin. }
  cbn [for_each]. unfold mbind, Prog_bind. rewrite run_bind.
  set (node := dn_node (entry_at m td e)).
  assert (Hstep : ∃ m1, alone tid (scan_trace td e) m = (m1, Done ()) ∧
            threads m1 = threads m ∧ threadDataList m1 = threadDataList m ∧
            pools m1 = pools m ∧ calls m1 = calls m ∧
            ∀ p, node_at m1 p =
                 if decide (p = node ∧ n_ref (node_at m p) = 0)
                 then with_trace true (node_at m p) else node_at m p).
  { unfold scan_trace. simpl. fold node.
    destruct (Z.eqb_spec (n_ref (node_at m node)) 0) as [Hr|Hr]; simpl.
    - rewrite node_at_upd_node, decide_True by done. simpl. rewrite Hr. simpl.
      eexists. split; [reflexivity|]. do 4 (split; [done|]). intros p.
      rewrite node_at_upd_node. destruct (decide (p = node)) as [->|Hp].
      + by rewrite decide_True.
      + rewrite decide_False; [done|]. tauto.
    - exists m. split; [done|]. do 4 (split; [done|]). intros p.
      rewrite decide_False; [done|]. intros [-> ?]. done. }
  destruct Hstep as (m1 & Hrun1 & Ht1 & Hl1 & Hp1 & Hc1 & Hn1). rewrite Hrun1.
  destruct (IH m1) as (m' & Hrun' & Ht' & Hl' & Hp' & Hc' & Hn').
  exists m'. split; [exact Hrun'|].
  split; [congruence|]. split; [congruence|]. split; [congruence|]. split; [congruence|].
  intros p. rewrite Hn'.
  assert (Hch : chain_nodes m1 td rest = chain_nodes m td rest).
  { unfold chain_nodes, entry_at, td_at. by rewrite Ht1. }
  assert (Href : n_ref (node_at m1 p) = n_ref (node_at m p)).
  { rewrite Hn1. by case_decide. }
  rewrite Hch, Href. unfold chain_nodes. rewrite fmap_cons. fold node.
  fold (chain_nodes m td rest). rewrite Hn1.
  repeat case_decide; destruct_and?; try done.
  - exfalso. match goal with Hn : ¬ _ |- _ => apply Hn end. split; [by right|done].
  - exfalso. match goal with Hn : ¬ _ |- _ => apply Hn end. split; [by right|done].
  - exfalso. match goal with Hn : ¬ _ |- _ => apply Hn end. split; [subst; left|done].
  - exfalso.
    match goal with Hn : (_ ∈ _ :: _) |- _ => apply elem_of_cons in Hn as [?|?] end; tauto.
Qed.

Lemma flagged_trans td m1 m2 m3 : flagged td m1 m2 → flagged td m2 m3 → flagged td m1 m3.
Proof.
  intros [->|[D1 ->]] [->|[D2 ->]]; [by left|right; by exists D2|right; by exists D1|].
  right. exists D2. unfold upd_td at 1. rewrite td_at_upd_td, decide_True by done.
  unfold upd_td, set_threads. simpl. by rewrite insert_insert_eq.
Qed.

Lemma for_each_flagged {A} tid td (l : list A) (body : A → M unit) :
  (∀ x m, ∃ m', alone tid (body x) m = (m', Done ()) ∧ flagged td m m') →
  ∀ m, ∃ m', alone tid (for_each l body) m = (m', Done ()) ∧ flagged td m m'.
Proof.
  intros Hbody. induction l as [|x l IH]; intros m.
  { exists m. split; [done|by left]. }
  cbn [for_each]. unfold mbind, Prog_bind. rewrite run_bind.
  destruct (Hbody x m) as (m1 & -> & Hf1).
  destruct (IH m1) as (m' & Hrun & Hf). exists m'. split; [done|].
  by eapply flagged_trans.
Qed.

Lemma run_scan_hazards (tid td : nat) (m : Mem) :
  ∃ m', alone tid (scan_hazards td) m = (m', Done ()) ∧ flagged td m m' ∧
        ∀ p, p ∈ td_delHazards (td_at m' td) ↔
             p ∈ td_delHazards (td_at m td) ∨ published m p.
Proof.
  destruct (scan_hazards_threads threadMax tid td (seq 0 (length (threadDataList m))) m)
    as (m' & Hrun & Hn & Hl & Hh & Hd).
  exists m'. split; [exact Hrun|]. split.
  - assert (Hfl : ∃ m'', alone tid (scan_hazards td) m = (m'', Done ()) ∧ flagged td m m'').
    { unfold scan_hazards, call, mbind, Prog_bind. cbn [bind run exec].
      apply for_each_flagged. intros ti m1. cbn [bind run exec].
      apply for_each_flagged. intros i m2. cbn [bind run exec].
      case_bool_decide; cbn [bind run exec].
      - eexists. split; [reflexivity|]. right. by eexists.
      - exists m2. split; [done|by left]. }
    destruct Hfl as (m'' & Hrun'' & Hfl).
    unfold scan_hazards, call, mbind, Prog_bind in Hrun, Hrun''.
    cbn [bind run exec] in Hrun, Hrun''. rewrite Hrun in Hrun''. by simplify_eq.
  - intros p. rewrite Hd. unfold published. split.
    + intros [?|(Hp & ti & i & Hti & Hi & Hs)]; [by left|]. right. split; [done|].
      apply elem_of_seq in Hti.
      destruct (threadDataList m !! ti) as [t|] eqn:Ht;
        [|apply lookup_ge_None in Ht; lia].
      exists t, i. split; [by eapply list_elem_of_lookup_2|]. split; [done|].
      simpl in Hs. destruct (td_hazards (td_at m t) !! i) as [q|]; simpl in Hs; congruence.
    + intros [?|(Hp & t & i & Ht & Hi & Hs)]; [by left|]. right. split; [done|].
      apply list_elem_of_lookup in Ht as [ti Hti].
      exists ti, i. split.
      * apply elem_of_seq. apply lookup_lt_Some in Hti. lia.
      * split; [done|]. by rewrite Hti; simpl; rewrite Hs.
Qed.

Lemma flagged_frame td m m' :
  flagged td m m' →
  nodes m' = nodes m ∧ pools m' = pools m ∧ calls m' = calls m ∧
  td_delHead (td_at m' td) = td_delHead (td_at m td) ∧
  td_delNodes (td_at m' td) = td_delNodes (td_at m td) ∧
  td_delNodeFreeList (td_at m' td) = td_delNodeFreeList (td_at m td).
Proof.
  intros [->|[D ->]]; [done|]. rewrite td_at_upd_td, decide_True by done. done.
Qed.


End Facts.
End ScanFacts.

Module ScanScenarios.
Import Heap Atomic HazardMem LockFreeList Reclaim Runs Scenarios ScanPhases ScanFacts.


End ScanScenarios.
